(** * Pathfinding visualiser: maze generation and A* search

    A shallow embedding of [mazePrimsAlgorithm] (lib/utils) and of the
    search functions of the [MapMaker] component ([getValidNeighbors],
    [getDiagonalDistance], [getManhattanDistance], [startPathFind]),
    followed by the properties established about them.

    JavaScript numbers that hold grid coordinates and costs are modelled
    as [Z]; arrays as lists read with [!!] and written with [<[_:=_]>]
    (a write past the end grows the array, as in JavaScript); the calls
    of [Math.random] as the values they yield, passed in as arguments;
    the React state of the component as a record threaded through
    [startPathFind]. *)

From Stdlib Require Import ZArith List Bool Lia FinFun.
From stdpp Require Import base list.
Import ListNotations.

#[local] Open Scope Z_scope.

(** ** Shared data model (lib/utils) *)

Record Coord := mkCoord { x : Z; y : Z }.

#[warnings="-register-all"]
Inductive Node := mkNode {
  coord : Coord;
  gCost : Z;
  hCost : Z;
  parent : option Node
}.

Coercion coord : Node >-> Coord.

#[global] Instance Coord_eq_dec : EqDecision Coord.
Proof. solve_decision. Defined.

(** [a.x === b.x && a.y === b.y], the comparison used by every closure
    of the component. *)
Definition sameCoord (a b : Coord) : bool :=
  (x a =? x b) && (y a =? y b).

Definition addCoord (d c : Coord) : Coord :=
  {| x := x d + x c; y := y d + y c |}.

(** Every coordinate of the grid, column by column. *)
Definition allCells (w h : Z) : list Coord :=
  flat_map (fun cx => List.map (fun cy => mkCoord cx cy) (seqZ 0 h)) (seqZ 0 w).

(** ** PathFinder (components/MapMaker) *)

Module PathFinder.

Definition D : Z := 10.

(** [Math.round (Math.sqrt n)] on a non-negative integer [n]: the integer
    nearest to the square root (a square root of an integer is never
    half-way between two integers). *)
Definition roundSqrt (n : Z) : Z :=
  let s := Z.sqrt n in
  if 4 * n <? (2 * s + 1) * (2 * s + 1) then s else s + 1.

Definition D2 : Z := roundSqrt (D ^ 2 + D ^ 2).

(** The part of the component state read and written by the search. *)
Record MapState := mkMapState {
  width : Z;
  height : Z;
  start : Coord;
  end_ : Coord;
  walls : list Coord;
  openNodes : list Node;
  closedNodes : list Node;
  nodePath : list Coord;
  diagonalMovement : bool;
  iterations : nat;
  distance : Z
}.

Section Search.

(** The values the closures of one render capture. *)
Variables (w h : Z) (wallsL : list Coord) (endC : Coord) (diag : bool).

Definition isWallTile (cx cy : Z) : bool :=
  existsb (fun wall => (x wall =? cx) && (y wall =? cy)) wallsL.

Definition isClosedNode (node : Coord) (closedNodesLocal : list Node) : bool :=
  existsb (fun closedNode : Node =>
             (x closedNode =? x node) && (y closedNode =? y node))
          closedNodesLocal.

Definition straight : list Coord :=
  [ mkCoord (-1) 0; mkCoord 0 1; mkCoord 1 0; mkCoord 0 (-1) ].

Definition diagonal : list Coord :=
  [ mkCoord (-1) 1; mkCoord (-1) (-1); mkCoord 1 1; mkCoord 1 (-1) ].

Definition directions : list Coord :=
  if diag then straight ++ diagonal else straight.

Definition withinBounds (c : Coord) : bool :=
  (0 <=? x c) && (x c <? w) && (0 <=? y c) && (y c <? h).

Definition getValidNeighbors (node : Node) (closedNodesLocal : list Node)
  : list Coord :=
  List.filter
    (fun neighbor =>
       let notWall := negb (isWallTile (x neighbor) (y neighbor)) in
       let notClosed := negb (isClosedNode neighbor closedNodesLocal) in
       withinBounds neighbor && notWall && notClosed)
    (List.map (fun direction => addCoord direction node) directions).

Definition getDiagonalDistance (node : Coord) : Z :=
  let dx := Z.abs (x node - x endC) in
  let dy := Z.abs (y node - y endC) in
  D * (dx + dy) + (D2 - 2 * D) * Z.min dx dy.

Definition getManhattanDistance (node : Coord) : Z :=
  let dx := Z.abs (x node - x endC) in
  let dy := Z.abs (y node - y endC) in
  D * (dx + dy).

(** [diagonalMovement ? getDiagonalDistance(c) : getManhattanDistance(c)] *)
Definition heuristic (c : Coord) : Z :=
  if diag then getDiagonalDistance c else getManhattanDistance c.

Definition fCost (n : Node) : Z := gCost n + hCost n.

(** [openNodesLocal.reduce((minItem, currentItem) => ... )] without an
    initial value: the accumulator starts at the first element. *)
Definition pickMin (minItem currentItem : Node) : Node :=
  if fCost currentItem <=? fCost minItem then currentItem else minItem.

Definition leastFCost (first : Node) (rest : list Node) : Node :=
  fold_left pickMin rest first.

(** [findIndex]: index of the first element that satisfies [p]. *)
Fixpoint findIndex {A} (p : A -> bool) (l : list A) : option nat :=
  match l with
  | [] => None
  | a :: l' => if p a then Some 0%nat else S <$> findIndex p l'
  end.

Definition stepCost (currentNode : Node) (neighbor : Coord) : Z :=
  if negb (x neighbor =? x currentNode) && negb (y neighbor =? y currentNode)
  then D2 else D.

Definition updatedNeighbor (currentNode : Node) (neighbor : Coord) : Node :=
  {| coord := {| x := x neighbor; y := y neighbor |};
     gCost := gCost currentNode + stepCost currentNode neighbor;
     hCost := heuristic neighbor;
     parent := Some currentNode |}.

(** Body of [for (const neighbor of neighbors)]. *)
Definition relax (currentNode : Node) (openNodesLocal : list Node)
           (neighbor : Coord) : list Node :=
  let g := gCost currentNode + stepCost currentNode neighbor in
  match findIndex (fun node : Node => sameCoord node neighbor) openNodesLocal with
  | None => openNodesLocal ++ [updatedNeighbor currentNode neighbor]
  | Some openNodeIndex =>
      match openNodesLocal !! openNodeIndex with
      | Some old =>
          if g <=? gCost old
          then <[openNodeIndex := updatedNeighbor currentNode neighbor]> openNodesLocal
          else openNodesLocal
      | None => openNodesLocal
      end
  end.

Definition relaxAll (currentNode : Node) (neighbors : list Coord)
           (openNodesLocal : list Node) : list Node :=
  fold_left (relax currentNode) neighbors openNodesLocal.

(** The [while (openNodesLocal.length > 0)] loop.  [shown] is the
    argument of the latest [setOpenNodes] call.  [fuel] bounds the
    number of iterations; [None] means the bound was reached.  The
    result is [closedNodesLocal], [count] and [shown] at loop exit. *)
Fixpoint searchLoop (fuel : nat) (openNodesLocal closedNodesLocal : list Node)
         (count : nat) (shown : list Node)
  : option (list Node * nat * list Node) :=
  match openNodesLocal with
  | [] => Some (closedNodesLocal, count, shown)
  | first :: rest =>
      match fuel with
      | O => None
      | S fuel' =>
          let currentNode := leastFCost first rest in
          let openNodesLocal :=
            List.filter (fun node : Node => negb (sameCoord node currentNode))
                        openNodesLocal in
          let closedNodesLocal := closedNodesLocal ++ [currentNode] in
          if sameCoord currentNode endC
          then Some (closedNodesLocal, count, shown)
          else
            let neighbors := getValidNeighbors currentNode closedNodesLocal in
            let openNodesLocal := relaxAll currentNode neighbors openNodesLocal in
            searchLoop fuel' openNodesLocal closedNodesLocal (S count)
                       openNodesLocal
      end
  end.

(** [while (current) { path.push(...); current = current.parent }] *)
Fixpoint tracePath (current : Node) : list Coord :=
  {| x := x current; y := y current |} ::
  match parent current with
  | Some p => tracePath p
  | None => []
  end.

End Search.

(** Iteration bound handed to [searchLoop]: one more than the number of
    cells of the grid (every iteration closes a coordinate that was not
    closed before, and all of them but [start] lie on the grid). *)
Definition searchFuel (st : MapState) : nat :=
  S (S (Z.to_nat (width st) * Z.to_nat (height st))).

(** [startPathFind], with the state updates of one run applied in order.
    [reset ()] clears the open nodes, the closed nodes and the path.
    [setClosedNodes] is handed the very array that later iterations push
    to, so once it has been called the state holds the final contents of
    [closedNodesLocal]; [setOpenNodes] is handed the array of the last
    iteration that ran to its end. *)
Definition startPathFindWith (fuel : nat) (st : MapState) : option MapState :=
  let w := width st in
  let h := height st in
  let endC := end_ st in
  let diag := diagonalMovement st in
  let openNodesLocal :=
    [ {| coord := {| x := x (start st); y := y (start st) |};
         gCost := 0;
         hCost := heuristic endC diag (start st);
         parent := None |} ] in
  match searchLoop w h (walls st) endC diag fuel openNodesLocal [] 0%nat [] with
  | None => None
  | Some (closedNodesLocal, count, shown) =>
      let current :=
        List.find (fun node : Node => sameCoord node endC) closedNodesLocal in
      Some {| width := w; height := h; start := start st; end_ := endC;
              walls := walls st;
              openNodes := shown;
              closedNodes :=
                match count with O => [] | S _ => closedNodesLocal end;
              nodePath :=
                rev (match current with
                     | Some c => tracePath c
                     | None => []
                     end);
              diagonalMovement := diag;
              iterations := count;
              distance :=
                match current with
                | Some c => gCost c
                | None => distance st
                end |}
  end.

Definition startPathFind (st : MapState) : option MapState :=
  startPathFindWith (searchFuel st) st.

(** *** Notions used to state the properties of the search *)

(** The open-set entry recorded for a coordinate: the first node of the
    list with that coordinate, the one [findIndex] points at. *)
Definition entry (c : Coord) (l : list Node) : option Node :=
  List.find (fun node : Node => sameCoord node c) l.

(** The open set after the expanded node has been removed. *)
Definition popped (cur : Node) (openL : list Node) : list Node :=
  List.filter (fun node : Node => negb (sameCoord node cur)) openL.

(** No open coordinate is closed, no coordinate is closed twice, and
    every node lies on the grid or is the seed. *)
Record searchInv (w h : Z) (startC : Coord) (openL closedL : list Node) : Prop := {
  inv_disjoint :
    forall n m : Node, In n openL -> In m closedL -> coord n <> coord m;
  inv_nodup : List.NoDup (List.map coord closedL);
  inv_open_cells :
    forall n : Node, In n openL ->
                     coord n = startC \/ In (coord n) (allCells w h);
  inv_closed_cells :
    forall n : Node, In n closedL ->
                     coord n = startC \/ In (coord n) (allCells w h)
}.

(** The empty 3x3 grid, from (0,0) to (2,2). *)
Definition scenario3x3 (diag : bool) : MapState :=
  {| width := 3; height := 3;
     start := mkCoord 0 0; end_ := mkCoord 2 2;
     walls := []; openNodes := []; closedNodes := []; nodePath := [];
     diagonalMovement := diag; iterations := 0; distance := 0 |}.


End PathFinder.

(** ** MazeGenerator (lib/utils) *)

Module Maze.

(** The run-time errors the function can abort with. *)
Inductive JsError := TypeError | RangeError.

Inductive Outcome (A : Type) :=
| Returned (a : A)
| Threw (e : JsError).
Arguments Returned {A} a.
Arguments Threw {A} e.

Record MazeResult := mkMazeResult {
  finalWallList : list Coord;
  start : Coord;
  end_ : Coord
}.

(** [grid[x][y]] read in a boolean position: an index that is negative
    or past the end of its array reads [undefined], which is falsy. *)
Definition cell (grid : list (list bool)) (c : Coord) : bool :=
  (0 <=? x c) && (0 <=? y c) &&
  default false (grid !! Z.to_nat (x c) ≫= fun col => col !! Z.to_nat (y c)).

(** [a[i] = v] on an array: an index past the end grows the array and
    leaves holes (which read falsy) in between. *)
Definition arraySet (a : list bool) (i : nat) (v : bool) : list bool :=
  if (i <? length a)%nat then <[i := v]> a
  else a ++ replicate (i - length a) false ++ [v].

(** [grid[c.x][c.y] = true] where the column [grid[c.x]] exists; a
    negative [c.y] names a property, not an element. *)
Definition setPassage (grid : list (list bool)) (c : Coord) : list (list bool) :=
  match grid !! Z.to_nat (x c) with
  | Some col =>
      if 0 <=? y c
      then <[Z.to_nat (x c) := arraySet col (Z.to_nat (y c)) true]> grid
      else grid
  | None => grid
  end.

(** The lengths an array can have lie below 2^32. *)
Definition arrayLimit : Z := 4294967296.

(** [Array.from({ length: width }, () => Array(height).fill(false))]:
    a non-positive length gives the empty array and never runs the
    callback; a length of 2^32 or more is a [RangeError] when the outer
    array is made, before the callback runs; [Array(height)] with a
    length that is negative or not below 2^32 is a [RangeError]. *)
Definition newGrid (width height : Z) : Outcome (list (list bool)) :=
  if width <=? 0 then Returned []
  else if arrayLimit <=? width then Threw RangeError
  else if (height <? 0) || (arrayLimit <=? height) then Threw RangeError
  else Returned (replicate (Z.to_nat width) (replicate (Z.to_nat height) false)).

Section Generation.

Variables (width height : Z).

Definition directions : list Coord :=
  [ mkCoord (-1) 0;   (* Left *)
    mkCoord 0 1;      (* Down *)
    mkCoord 1 0;      (* Right *)
    mkCoord 0 (-1) ]. (* Up *)

Definition inGrid (c : Coord) : bool :=
  (0 <=? x c) && (0 <=? y c) && (x c <? width) && (y c <? height).

Definition getCells (c : Coord) : list Coord :=
  List.filter inGrid (List.map (fun direction => addCoord direction c) directions).

(** The two variables the generation loop updates. *)
Record LoopState := mkLoopState {
  grid : list (list bool);
  wallList : list Coord
}.

(** One iteration of [while (wallList.length > 0)], for the index
    [Math.floor(Math.random() * wallList.length)] and the entry
    [randomWall] found there. *)
Definition loopBody (s : LoopState) (randomWallIndex : nat) (randomWall : Coord)
  : LoopState :=
  let wallSurroundings := getCells randomWall in
  let count := length (List.filter (cell (grid s)) wallSurroundings) in
  let s1 :=
    if (count =? 1)%nat then
      let grid1 := setPassage (grid s) randomWall in
      {| grid := grid1;
         wallList :=
           wallList s ++ List.filter (fun c => negb (cell grid1 c)) wallSurroundings |}
    else s in
  {| grid := grid s1; wallList := delete randomWallIndex (wallList s1) |}.

(** The loop, fed with the successive random indices.  [None]: the
    supplied indices ran out before the list was empty, or one of
    them was not an index of the list (which
    [Math.floor(Math.random() * n)] never yields). *)
Fixpoint generationLoop (draws : list nat) (s : LoopState) : option LoopState :=
  match wallList s with
  | [] => Some s
  | _ :: _ =>
      match draws with
      | [] => None
      | randomWallIndex :: draws' =>
          match wallList s !! randomWallIndex with
          | Some randomWall =>
              generationLoop draws' (loopBody s randomWallIndex randomWall)
          | None => None
          end
      end
  end.

(** Every index of [draws] is one that
    [Math.floor(Math.random() * wallList.length)] can yield when it is
    drawn: an index of the frontier list of its iteration.  What is
    left of [draws] when the loop has ended is not drawn. *)
Fixpoint validDraws (draws : list nat) (s : LoopState) : bool :=
  match draws with
  | [] => true
  | randomWallIndex :: draws' =>
      match wallList s with
      | [] => true
      | _ :: _ =>
          match wallList s !! randomWallIndex with
          | Some randomWall =>
              validDraws draws' (loopBody s randomWallIndex randomWall)
          | None => false
          end
      end
  end.

(** The nested [for] loops that collect the walls; the inner bound is
    [grid[0].length]. *)
Definition collectWalls (g : list (list bool)) : list Coord :=
  let cols := length (default [] (g !! 0%nat)) in
  flat_map
    (fun cx =>
       flat_map
         (fun cy => if cell g (mkCoord cx cy) then [] else [mkCoord cx cy])
         (seqZ 0 (Z.of_nat cols)))
    (seqZ 0 (Z.of_nat (length g))).

(** The scan for the end points: [n] iterations remain, [i] is the
    loop variable, and the bound of the loop is [grid.length]. *)
Fixpoint scanLoop (g : list (list bool)) (n : nat) (i : Z)
         (start end_ : Coord) (startFound endFound : bool) : Coord * Coord :=
  match n with
  | O => (start, end_)
  | S n' =>
      if negb (startFound && endFound) then
        let '(start, startFound) :=
          if cell g (mkCoord 0 i) && negb startFound
          then (mkCoord 0 i, true) else (start, startFound) in
        let ex := Z.of_nat (length g) - 1 - i in
        let '(end_, endFound) :=
          if cell g (mkCoord ex (height - 1)) && negb endFound
          then (mkCoord ex (height - 1), true) else (end_, endFound) in
        scanLoop g n' (i + 1) start end_ startFound endFound
      else (start, end_)
  end.

Definition findEndpoints (g : list (list bool)) : Coord * Coord :=
  scanLoop g (length g) 0 (mkCoord 0 0) (mkCoord 0 0) false false.

(** State on entry to the generation loop. *)
Definition initialState (g : list (list bool)) (firstCell : Coord) : LoopState :=
  {| grid := setPassage g firstCell; wallList := getCells firstCell |}.

(** [mazePrimsAlgorithm width height].  [firstCell] holds the two
    values drawn for the seed, [draws] the indices drawn in the loop.
    The outer [option] is [None] exactly when [generationLoop] is. *)
Definition mazePrimsAlgorithm (firstCell : Coord) (draws : list nat)
  : option (Outcome MazeResult) :=
  match newGrid width height with
  | Threw e => Some (Threw e)
  | Returned g0 =>
      if (x firstCell <? 0) || (Z.of_nat (length g0) <=? x firstCell)
      then Some (Threw TypeError)   (* grid[firstCell.x] is undefined *)
      else
        match generationLoop draws (initialState g0 firstCell) with
        | None => None
        | Some s =>
            let '(start, end_) := findEndpoints (grid s) in
            Some (Returned {| finalWallList := collectWalls (grid s);
                              start := start; end_ := end_ |})
        end
  end.

(** What [Math.floor(Math.random() * n)] can evaluate to. *)
Definition drawn (n v : Z) : Prop :=
  (0 < n -> 0 <= v < n) /\ (n = 0 -> v = 0) /\ (n < 0 -> n <= v <= 0).

(** The states the generation loop passes through. *)
Inductive reachable (g0 : list (list bool)) (firstCell : Coord) : LoopState -> Prop :=
| reachable_init : reachable g0 firstCell (initialState g0 firstCell)
| reachable_step s k c :
    reachable g0 firstCell s ->
    wallList s !! k = Some c ->
    reachable g0 firstCell (loopBody s k c).

End Generation.

(** A grid as [newGrid] allocates it for positive dimensions. *)
Definition wfGrid (width height : Z) (g : list (list bool)) : Prop :=
  length g = Z.to_nat width /\
  Forall (fun col : list bool => length col = Z.to_nat height) g.

(** Number of passages among the four cells around [c]. *)
Definition around (g : list (list bool)) (c : Coord) : nat :=
  (Nat.b2n (cell g (addCoord (mkCoord (-1) 0) c)) +
   Nat.b2n (cell g (addCoord (mkCoord 0 1) c)) +
   Nat.b2n (cell g (addCoord (mkCoord 1 0) c)) +
   Nat.b2n (cell g (addCoord (mkCoord 0 (-1)) c)))%nat.

(** One 4-directional move. *)
Definition adjacent (a b : Coord) : Prop :=
  exists d, In d directions /\ b = addCoord d a.

(** [c] can be reached from [seed] by 4-directional moves that stay on
    cells satisfying [passage]. *)
Inductive connected (passage : Coord -> bool) (seed : Coord) : Coord -> Prop :=
| connected_seed : passage seed = true -> connected passage seed seed
| connected_move c c' :
    connected passage seed c -> adjacent c c' -> passage c' = true ->
    connected passage seed c'.

(** The passages of a returned maze: the cells of the grid that are not
    in the wall list. *)
Definition isPassage (width height : Z) (wallsL : list Coord) (c : Coord) : bool :=
  inGrid width height c && negb (existsb (sameCoord c) wallsL).

(** The end-point scan as the specification words it: [i] runs from 0
    upward; at each [i] an end point not yet found is looked for at
    [(0, i)] (start) and at [(width-1-i, height-1)] (end); the scan
    stops when both are found or when [i] has run through the grid
    height; an end point that was not found is (0,0). *)
Fixpoint lockstepScan (passage : Coord -> bool) (width height : Z)
         (n : nat) (i : Z) (start end_ : option Coord)
  : option Coord * option Coord :=
  match n with
  | O => (start, end_)
  | S n' =>
      match start, end_ with
      | Some _, Some _ => (start, end_)
      | _, _ =>
          let start' :=
            match start with
            | Some s => Some s
            | None => if passage (mkCoord 0 i) then Some (mkCoord 0 i) else None
            end in
          let end' :=
            match end_ with
            | Some e => Some e
            | None =>
                if passage (mkCoord (width - 1 - i) (height - 1))
                then Some (mkCoord (width - 1 - i) (height - 1)) else None
            end in
          lockstepScan passage width height n' (i + 1) start' end'
      end
  end.

Definition specEndpoints (passage : Coord -> bool) (width height : Z)
  : Coord * Coord :=
  let '(s, e) := lockstepScan passage width height (Z.to_nat height) 0 None None in
  (default (mkCoord 0 0) s, default (mkCoord 0 0) e).

(** *** Notions used to state the properties of the generation loop *)

(** The grid is rectangular, the frontier holds cells of the grid,
    every passage is connected to the seed, and a wall next to a
    passage is either still on the frontier or has two passages
    around it. *)
Record mazeInv (width height : Z) (firstCell : Coord) (s : LoopState) : Prop := {
  inv_wf : wfGrid width height (grid s);
  inv_seed : cell (grid s) firstCell = true;
  inv_frontier : forall c, In c (wallList s) -> inGrid width height c = true;
  inv_connected :
    forall c, cell (grid s) c = true -> connected (cell (grid s)) firstCell c;
  inv_pending :
    forall c, inGrid width height c = true -> cell (grid s) c = false ->
              (1 <= around (grid s) c)%nat ->
              In c (wallList s) \/ (2 <= around (grid s) c)%nat
}.

(** Walls left on the grid, and the weight of the frontier list: an
    entry that is a passage by now counts 4, an entry that is still a
    wall counts 1. *)
Definition wallCells (width height : Z) (g : list (list bool)) : nat :=
  length (List.filter (fun c => negb (cell g c)) (allCells width height)).

Definition frontierWeight (g : list (list bool)) (l : list Coord) : nat :=
  list_sum (List.map (fun c => if cell g c then 4%nat else 1%nat) l).

(** One iteration, for some index of the list. *)
Definition loopStep (width height : Z) (s s' : LoopState) : Prop :=
  exists k rw, wallList s !! k = Some rw /\ s' = loopBody width height s k rw.

(** The passages among the four cells around [c], for a maze given by
    its passage test. *)
Definition passagesAround (passage : Coord -> bool) (c : Coord) : nat :=
  length (List.filter passage (List.map (fun d => addCoord d c) directions)).

(** Number of passages of a [width] x [height] maze, and the sum over
    its passages of the passages around each (twice the number of pairs
    of adjacent passages). *)
Definition passageCount (width height : Z) (passage : Coord -> bool) : nat :=
  length (List.filter passage (allCells width height)).

Definition degreeSum (width height : Z) (passage : Coord -> bool) : nat :=
  list_sum (List.map (passagesAround passage)
                     (List.filter passage (allCells width height))).

End Maze.

(** ** Routes on the grid and the iterations of the search *)

Module Routes.
Import PathFinder.

(** One move the search can make from [a] to [b]: [b] is [a] plus an
    enabled offset, lies on the grid and is not a wall. *)
Definition validStep (w h : Z) (wallsL : list Coord) (diag : bool)
           (a b : Coord) : bool :=
  existsb (fun d => sameCoord (addCoord d a) b) (directions diag) &&
  withinBounds w h b && negb (isWallTile wallsL (x b) (y b)).

(** A sequence of coordinates in which every one is a move away from
    the one before. *)
Fixpoint validPath (w h : Z) (wallsL : list Coord) (diag : bool)
         (l : list Coord) : bool :=
  match l with
  | a :: (b :: _) as rest => validStep w h wallsL diag a b && validPath w h wallsL diag rest
  | _ => true
  end.

(** The cells that moves lead to from [a]. *)
Inductive reachableFrom (w h : Z) (wallsL : list Coord) (diag : bool) (a : Coord)
  : Coord -> Prop :=
| reachable_here : reachableFrom w h wallsL diag a a
| reachable_move b c :
    reachableFrom w h wallsL diag a b -> validStep w h wallsL diag b c = true ->
    reachableFrom w h wallsL diag a c.

(** Cost of one move, as the search charges it: D2 when both
    coordinates change, D otherwise. *)
Definition moveCost (a b : Coord) : Z :=
  if negb (x b =? x a) && negb (y b =? y a) then D2 else D.

Fixpoint pathCost (l : list Coord) : Z :=
  match l with
  | a :: (b :: _) as rest => moveCost a b + pathCost rest
  | _ => 0
  end.

(** The three variables of the search loop at the top of an iteration. *)
Record Config := mkConfig {
  cfgOpen : list Node;
  cfgClosed : list Node;
  cfgCount : nat
}.

(** The node the next iteration expands. *)
Definition nextNode (c : Config) : option Node :=
  match cfgOpen c with
  | [] => None
  | first :: rest => Some (leastFCost first rest)
  end.

(** One iteration that runs to its end (the expanded node is not
    [end]); [None] when the loop is left instead. *)
Definition iteration (w h : Z) (wallsL : list Coord) (endC : Coord) (diag : bool)
           (c : Config) : option Config :=
  match nextNode c with
  | None => None
  | Some cur =>
      if sameCoord cur endC then None
      else
        let closedL := cfgClosed c ++ [cur] in
        Some {| cfgOpen :=
                  relaxAll endC diag cur
                           (getValidNeighbors w h wallsL diag cur closedL)
                           (popped cur (cfgOpen c));
                cfgClosed := closedL;
                cfgCount := S (cfgCount c) |}
  end.

(** The configurations the loop passes through from [c]. *)
Inductive runsTo (w h : Z) (wallsL : list Coord) (endC : Coord) (diag : bool)
          (c : Config) : Config -> Prop :=
| runs_here : runsTo w h wallsL endC diag c c
| runs_on c1 c2 :
    runsTo w h wallsL endC diag c c1 ->
    iteration w h wallsL endC diag c1 = Some c2 ->
    runsTo w h wallsL endC diag c c2.

(** The first node of the loop: [start] at cost 0, without parent. *)
Definition seedNode (st : MapState) : Node :=
  {| coord := {| x := x (start st); y := y (start st) |};
     gCost := 0;
     hCost := heuristic (end_ st) (diagonalMovement st) (start st);
     parent := None |}.

(** The chain of parents of a node is a route back to [startC] whose
    cost is the gCost of the node. *)
Record rooted (w h : Z) (wallsL : list Coord) (diag : bool) (startC : Coord)
       (n : Node) : Prop := {
  rooted_start : last (tracePath n) = Some startC;
  rooted_route : validPath w h wallsL diag (rev (tracePath n)) = true;
  rooted_cost : gCost n = pathCost (rev (tracePath n))
}.

(** Every closed coordinate has each of its moves closed or open, and
    [startC] is closed or open. *)
Record frontierInv (w h : Z) (wallsL : list Coord) (diag : bool) (startC : Coord)
       (c : Config) : Prop := {
  frontier_start :
    isClosedNode startC (cfgClosed c) = true \/ entry startC (cfgOpen c) <> None;
  frontier_moves :
    forall (a : Node) (b : Coord),
      In a (cfgClosed c) -> validStep w h wallsL diag a b = true ->
      isClosedNode b (cfgClosed c) = true \/ entry b (cfgOpen c) <> None
}.

(** No route from [startC] to a closed coordinate is cheaper than the
    gCost of the node closed there, and the open set records, for
    every move out of a closed node, a gCost no larger than the gCost of
    that node plus the move. *)
Record shortestInv (w h : Z) (wallsL : list Coord) (diag : bool) (startC : Coord)
       (c : Config) : Prop := {
  short_closed :
    forall (n : Node) (l : list Coord),
      In n (cfgClosed c) ->
      validPath w h wallsL diag l = true ->
      head l = Some startC -> last l = Some (coord n) ->
      gCost n <= pathCost l;
  short_start :
    isClosedNode startC (cfgClosed c) = true \/
    exists m, entry startC (cfgOpen c) = Some m /\ gCost m <= 0;
  short_moves :
    forall (a : Node) (b : Coord),
      In a (cfgClosed c) -> validStep w h wallsL diag a b = true ->
      isClosedNode b (cfgClosed c) = true \/
      exists m, entry b (cfgOpen c) = Some m /\ gCost m <= gCost a + moveCost a b
}.

End Routes.

(** ** The editor around the grid (components/MapMaker) *)

Module Editor.
Import PathFinder.

Definition WIDTH : Z := 125.
Definition HEIGHT : Z := 50.

(** [currentNode]: what a click on a tile sets. *)
Inductive Mode := StartMode | EndMode | WallMode.

(** The search state together with the state of the pointer. *)
Record UiState := mkUiState {
  map : MapState;
  currentNode : Mode;
  mouseDown : bool;
  toggleTile : bool
}.

Definition withMap (u : UiState) (m : MapState) : UiState :=
  {| map := m; currentNode := currentNode u;
     mouseDown := mouseDown u; toggleTile := toggleTile u |}.

Definition setStart (c : Coord) (m : MapState) : MapState :=
  {| width := width m; height := height m; start := c; end_ := end_ m;
     walls := walls m; openNodes := openNodes m; closedNodes := closedNodes m;
     nodePath := nodePath m; diagonalMovement := diagonalMovement m;
     iterations := iterations m; distance := distance m |}.

Definition setEnd (c : Coord) (m : MapState) : MapState :=
  {| width := width m; height := height m; start := start m; end_ := c;
     walls := walls m; openNodes := openNodes m; closedNodes := closedNodes m;
     nodePath := nodePath m; diagonalMovement := diagonalMovement m;
     iterations := iterations m; distance := distance m |}.

Definition setWalls (l : list Coord) (m : MapState) : MapState :=
  {| width := width m; height := height m; start := start m; end_ := end_ m;
     walls := l; openNodes := openNodes m; closedNodes := closedNodes m;
     nodePath := nodePath m; diagonalMovement := diagonalMovement m;
     iterations := iterations m; distance := distance m |}.

Definition setWidth (v : Z) (m : MapState) : MapState :=
  {| width := v; height := height m; start := start m; end_ := end_ m;
     walls := walls m; openNodes := openNodes m; closedNodes := closedNodes m;
     nodePath := nodePath m; diagonalMovement := diagonalMovement m;
     iterations := iterations m; distance := distance m |}.

Definition setHeight (v : Z) (m : MapState) : MapState :=
  {| width := width m; height := v; start := start m; end_ := end_ m;
     walls := walls m; openNodes := openNodes m; closedNodes := closedNodes m;
     nodePath := nodePath m; diagonalMovement := diagonalMovement m;
     iterations := iterations m; distance := distance m |}.

Definition setDiagonalMovement (b : bool) (m : MapState) : MapState :=
  {| width := width m; height := height m; start := start m; end_ := end_ m;
     walls := walls m; openNodes := openNodes m; closedNodes := closedNodes m;
     nodePath := nodePath m; diagonalMovement := b;
     iterations := iterations m; distance := distance m |}.

(** [reset]: clears the open nodes, the closed nodes and the path. *)
Definition reset (m : MapState) : MapState :=
  {| width := width m; height := height m; start := start m; end_ := end_ m;
     walls := walls m; openNodes := []; closedNodes := [];
     nodePath := []; diagonalMovement := diagonalMovement m;
     iterations := iterations m; distance := distance m |}.

Definition resetWalls (m : MapState) : MapState := setWalls [] m.

(** The updater [handleNodeClick] hands to [setWalls]; [toggle] is the
    [toggleTile] of the render the handler belongs to. *)
Definition toggleWall (toggle : bool) (row col : Z) (prev : list Coord)
  : list Coord :=
  let isWall := existsb (fun node => (x node =? row) && (y node =? col)) prev in
  if isWall && negb toggle then
    List.filter (fun node => negb ((x node =? row) && (y node =? col))) prev
  else if negb isWall && toggle then prev ++ [ {| x := row; y := col |} ]
  else prev.

(** [handleNodeClick (row, col)] of the render whose state is [closure],
    applied to the state [u] the pending updates have produced. *)
Definition handleNodeClick (closure : UiState) (row col : Z) (u : UiState)
  : UiState :=
  let position := {| x := row; y := col |} in
  match currentNode closure with
  | StartMode => withMap u (setStart position (map u))
  | EndMode => withMap u (setEnd position (map u))
  | WallMode =>
      withMap u (setWalls (toggleWall (toggleTile closure) row col (walls (map u)))
                          (map u))
  end.

(** [handleMouseDown]: the two setters take effect at the next render;
    [handleNodeClick] still reads the [toggleTile] of this one. *)
Definition handleMouseDown (row col : Z) (u : UiState) : UiState :=
  let u1 :=
    {| map := map u; currentNode := currentNode u;
       mouseDown := true;
       toggleTile := negb (isWallTile (walls (map u)) row col) |} in
  handleNodeClick u row col u1.

Definition handleMouseEnter (row col : Z) (u : UiState) : UiState :=
  match mouseDown u, currentNode u with
  | true, WallMode => handleNodeClick u row col u
  | _, _ => u
  end.

Definition handleMouseUp (u : UiState) : UiState :=
  {| map := map u; currentNode := currentNode u;
     mouseDown := false; toggleTile := toggleTile u |}.

(** The effect that runs when [width] or [height] has changed. *)
Definition dimensionEffect (m : MapState) : MapState :=
  let m := reset m in
  let m := setWalls [] m in
  let m := setStart {| x := 0; y := 0 |} m in
  setEnd {| x := Z.min 1 (width m - 1); y := Z.min 1 (height m - 1) |} m.

(** [handleWidthChange] for an input that reads as the integer [v]; a
    setter called with the value the state already has causes no
    render and no effect. *)
Definition handleWidthChange (v : Z) (u : UiState) : UiState :=
  let value := Z.max 5 (Z.min WIDTH v) in
  if value =? width (map u) then u
  else withMap u (dimensionEffect (setWidth value (map u))).

Definition handleHeightChange (v : Z) (u : UiState) : UiState :=
  let value := Z.max 5 (Z.min HEIGHT v) in
  if value =? height (map u) then u
  else withMap u (dimensionEffect (setHeight value (map u))).

(** [generateMaze], with the values drawn by [mazePrimsAlgorithm]:
    [reset] has been called when the generator fails, so a raised error
    leaves the cleared state.  [None] as for [mazePrimsAlgorithm].  The
    two 1 ms waits of the handler are passed without another event: the
    width and height the generator is called with are those of the
    state its result is stored in. *)
Definition generateMaze (firstCell : Coord) (draws : list nat) (u : UiState)
  : option UiState :=
  let m := reset (map u) in
  match Maze.mazePrimsAlgorithm (width m) (height m) firstCell draws with
  | None => None
  | Some (Maze.Threw _) => Some (withMap u m)
  | Some (Maze.Returned r) =>
      Some (withMap u (setEnd (Maze.end_ r)
                      (setStart (Maze.start r)
                      (setWalls (Maze.finalWallList r) m))))
  end.

(** What the user can do. *)
Inductive Event :=
| MouseDown (row col : Z)
| MouseEnter (row col : Z)
| MouseUp
| SelectMode (m : Mode)
| WidthInput (v : Z)
| HeightInput (v : Z)
| GenerateMaze (firstCell : Coord) (draws : list nat)
| StartPathFind
| ClearPathfind
| ClearWalls
| SetDiagonal (b : bool).

Definition dispatch (e : Event) (u : UiState) : option UiState :=
  match e with
  | MouseDown row col => Some (handleMouseDown row col u)
  | MouseEnter row col => Some (handleMouseEnter row col u)
  | MouseUp => Some (handleMouseUp u)
  | SelectMode m =>
      Some {| map := map u; currentNode := m;
              mouseDown := mouseDown u; toggleTile := toggleTile u |}
  | WidthInput v => Some (handleWidthChange v u)
  | HeightInput v => Some (handleHeightChange v u)
  | GenerateMaze firstCell draws => generateMaze firstCell draws u
  | StartPathFind => withMap u <$> startPathFind (map u)
  | ClearPathfind => Some (withMap u (reset (map u)))
  | ClearWalls => Some (withMap u (resetWalls (map u)))
  | SetDiagonal b => Some (withMap u (setDiagonalMovement b (map u)))
  end.

(** Tiles exist for the coordinates of the grid only, and the generator
    draws its seed as [Math.floor(Math.random() * n)] does. *)
Definition possible (e : Event) (u : UiState) : Prop :=
  match e with
  | MouseDown row col | MouseEnter row col =>
      0 <= row < width (map u) /\ 0 <= col < height (map u)
  | GenerateMaze firstCell _ =>
      Maze.drawn (width (map u)) (x firstCell) /\
      Maze.drawn (height (map u)) (y firstCell)
  | _ => True
  end.

(** The state the component is mounted with. *)
Definition initialUi : UiState :=
  {| map := {| width := WIDTH; height := HEIGHT;
               start := {| x := 0; y := 0 |}; end_ := {| x := 1; y := 1 |};
               walls := []; openNodes := []; closedNodes := []; nodePath := [];
               diagonalMovement := true; iterations := 0; distance := 0 |};
     currentNode := StartMode; mouseDown := false; toggleTile := false |}.

(** The states a session can reach, each event being handled to its
    end (with the render that follows) before the next one arrives. *)
Inductive session : UiState -> Prop :=
| session_start : session initialUi
| session_event u e u' :
    session u -> possible e u -> dispatch e u = Some u' -> session u'.

(** A sequence of events, each handled in the state the one before
    has left. *)
Fixpoint replay (events : list Event) (u : UiState) : option UiState :=
  match events with
  | [] => Some u
  | e :: events' =>
      match dispatch e u with
      | Some u1 => replay events' u1
      | None => None
      end
  end.

(** Every event of the sequence is possible in the state it arrives in. *)
Fixpoint replayable (events : list Event) (u : UiState) : Prop :=
  match events with
  | [] => True
  | e :: events' =>
      possible e u /\
      match dispatch e u with
      | Some u1 => replayable events' u1
      | None => True
      end
  end.

(** Dimensions within the limits of the inputs, start, end and walls on
    the grid, and no wall listed twice. *)
Record gridInv (m : MapState) : Prop := {
  grid_width : 5 <= width m <= WIDTH;
  grid_height : 5 <= height m <= HEIGHT;
  grid_start : withinBounds (width m) (height m) (start m) = true;
  grid_end : withinBounds (width m) (height m) (end_ m) = true;
  grid_walls : forall c, In c (walls m) -> withinBounds (width m) (height m) c = true;
  grid_walls_nodup : List.NoDup (walls m)
}.

End Editor.

(** * Properties of the search *)

Module PathFinderProofs.
Import PathFinder.

Lemma sameCoord_eq (a b : Coord) : sameCoord a b = true <-> a = b.
Proof.
  unfold sameCoord. destruct a as [ax ay], b as [bx by_]; simpl.
  rewrite andb_true_iff, !Z.eqb_eq. split.
  - intros [-> ->]. reflexivity.
  - intros H. injection H. auto.
Qed.

Lemma sameCoord_refl (a : Coord) : sameCoord a a = true.
Proof. apply sameCoord_eq. reflexivity. Qed.

Lemma sameCoord_neq (a b : Coord) : sameCoord a b = false <-> a <> b.
Proof.
  rewrite <- sameCoord_eq. destruct (sameCoord a b); split; congruence.
Qed.

Lemma coord_eta (c : Coord) : {| x := x c; y := y c |} = c.
Proof. destruct c. reflexivity. Qed.

(** *** Selection of the node to expand *)

Lemma leastFCost_snoc first rest z :
  leastFCost first (rest ++ [z]) = pickMin (leastFCost first rest) z.
Proof. unfold leastFCost. rewrite fold_left_app. reflexivity. Qed.




(** *** Neighbour filter *)

Lemma isWallTile_spec wallsL (c : Coord) :
  isWallTile wallsL (x c) (y c) = true <-> In c wallsL.
Proof.
  unfold isWallTile. rewrite existsb_exists. split.
  - intros (wl & Hin & Heq).
    assert (wl = c) as <-; [|exact Hin].
    apply sameCoord_eq. exact Heq.
  - intros Hin. exists c. split; [exact Hin|]. apply sameCoord_refl.
Qed.

Lemma isClosedNode_spec (c : Coord) (closedL : list Node) :
  isClosedNode c closedL = true <-> exists n : Node, In n closedL /\ coord n = c.
Proof.
  unfold isClosedNode. rewrite existsb_exists. split.
  - intros (n & Hin & Heq). exists n. split; [exact Hin|].
    apply sameCoord_eq. exact Heq.
  - intros (n & Hin & <-). exists n. split; [exact Hin|].
    apply (sameCoord_refl (coord n)).
Qed.

Lemma withinBounds_spec w h (c : Coord) :
  withinBounds w h c = true <-> 0 <= x c < w /\ 0 <= y c < h.
Proof. unfold withinBounds. rewrite !andb_true_iff. lia. Qed.

Lemma getValidNeighbors_spec w h wallsL diag (node : Node) closedL (c : Coord) :
  In c (getValidNeighbors w h wallsL diag node closedL) <->
  (exists d, In d (directions diag) /\ c = addCoord d node) /\
  (0 <= x c < w /\ 0 <= y c < h) /\
  ~ In c wallsL /\
  ~ (exists n : Node, In n closedL /\ coord n = c).
Proof.
  unfold getValidNeighbors. rewrite filter_In, in_map_iff.
  rewrite !andb_true_iff, !negb_true_iff, withinBounds_spec.
  rewrite <- isWallTile_spec, <- isClosedNode_spec.
  rewrite <- !not_true_iff_false.
  split.
  - intros ((d & Hd & Hin) & (Hb & Hw) & Hc).
    repeat split; try tauto; try lia. exists d. auto.
  - intros ((d & Hin & Hd) & Hb & Hw & Hc).
    repeat split; try tauto; try lia. exists d. auto.
Qed.



(** *** Relaxation of the neighbours *)

Lemma findIndex_None {A} (p : A -> bool) (l : list A) :
  findIndex p l = None -> List.find p l = None.
Proof.
  induction l as [|a l IH]; simpl; [reflexivity|].
  destruct (p a); [discriminate|].
  destruct (findIndex p l); simpl; [discriminate|auto].
Qed.

Lemma findIndex_Some {A} (p : A -> bool) (l : list A) (i : nat) :
  findIndex p l = Some i ->
  exists a, l !! i = Some a /\ List.find p l = Some a /\ p a = true.
Proof.
  revert i. induction l as [|a l IH]; simpl; intros i H; [discriminate|].
  destruct (p a) eqn:Hp.
  - injection H as <-. exists a. auto.
  - destruct (findIndex p l) as [k|]; simpl in H; [|discriminate].
    injection H as <-. destruct (IH k eq_refl) as (b & Hb & Hf & Hpb).
    exists b. auto.
Qed.

Lemma find_insert_at_findIndex {A} (p : A -> bool) (l : list A) (i : nat) (u : A) :
  findIndex p l = Some i -> p u = true ->
  List.find p (<[i := u]> l) = Some u.
Proof.
  revert i. induction l as [|a l IH]; simpl; intros i H Hu; [discriminate|].
  destruct (p a) eqn:Hp.
  - injection H as <-. simpl. rewrite Hu. reflexivity.
  - destruct (findIndex p l) as [k|]; simpl in H; [|discriminate].
    injection H as <-. simpl. rewrite Hp. apply IH; auto.
Qed.

Lemma find_insert_irrelevant {A} (q : A -> bool) (l : list A) (i : nat) (old u : A) :
  l !! i = Some old -> q old = false -> q u = false ->
  List.find q (<[i := u]> l) = List.find q l.
Proof.
  revert i. induction l as [|a l IH]; intros [|i] H Ho Hu; simpl in *;
    try discriminate.
  - injection H as ->. rewrite Ho, Hu. reflexivity.
  - destruct (q a); [reflexivity|]. eapply IH; eauto.
Qed.

Lemma find_snoc {A} (p : A -> bool) (l : list A) (u : A) :
  List.find p (l ++ [u]) =
  match List.find p l with
  | Some a => Some a
  | None => if p u then Some u else None
  end.
Proof.
  induction l as [|a l IH]; simpl; [reflexivity|].
  destruct (p a); [reflexivity|exact IH].
Qed.

Lemma relax_entry_same endC diag (cur : Node) (openL : list Node) (nb : Coord) :
  entry nb (relax endC diag cur openL nb) =
  Some (match entry nb openL with
        | None => updatedNeighbor endC diag cur nb
        | Some old =>
            if gCost cur + stepCost cur nb <=? gCost old
            then updatedNeighbor endC diag cur nb else old
        end).
Proof.
  assert (Hu : sameCoord (updatedNeighbor endC diag cur nb) nb = true).
  { apply sameCoord_eq. simpl. apply coord_eta. }
  unfold relax, entry.
  destruct (findIndex (fun node : Node => sameCoord node nb) openL) as [i|] eqn:Hi.
  - destruct (findIndex_Some _ _ _ Hi) as (old & Hl & Hf & Hp).
    rewrite Hl, Hf.
    destruct (gCost cur + stepCost cur nb <=? gCost old).
    + apply (find_insert_at_findIndex _ _ _ _ Hi Hu).
    + exact Hf.
  - rewrite (findIndex_None _ _ Hi), find_snoc, (findIndex_None _ _ Hi), Hu.
    reflexivity.
Qed.

Lemma relax_entry_other endC diag (cur : Node) (openL : list Node) (nb c : Coord) :
  c <> nb ->
  entry c (relax endC diag cur openL nb) = entry c openL.
Proof.
  intros Hne.
  assert (Hu : sameCoord (updatedNeighbor endC diag cur nb) c = false).
  { apply sameCoord_neq. simpl. rewrite coord_eta. congruence. }
  unfold relax, entry.
  destruct (findIndex (fun node : Node => sameCoord node nb) openL) as [i|] eqn:Hi.
  - destruct (findIndex_Some _ _ _ Hi) as (old & Hl & Hf & Hp).
    rewrite Hl.
    destruct (gCost cur + stepCost cur nb <=? gCost old); [|reflexivity].
    apply (find_insert_irrelevant _ _ _ old); auto.
    apply sameCoord_neq. apply sameCoord_eq in Hp. congruence.
  - rewrite find_snoc, Hu. destruct (List.find _ openL); reflexivity.
Qed.

Lemma relaxAll_entry_other endC diag (cur : Node) (nbs : list Coord) :
  forall (openL : list Node) (c : Coord),
    ~ In c nbs ->
    entry c (relaxAll endC diag cur nbs openL) = entry c openL.
Proof.
  induction nbs as [|a nbs IH]; intros openL c Hc; [reflexivity|].
  unfold relaxAll in *. simpl. rewrite IH.
  - apply relax_entry_other. intros ->. apply Hc. left. reflexivity.
  - intros H. apply Hc. right. exact H.
Qed.

Lemma relaxAll_entry_neighbor endC diag (cur : Node) (nbs : list Coord) :
  List.NoDup nbs ->
  forall (openL : list Node) (nb : Coord),
    In nb nbs ->
    entry nb (relaxAll endC diag cur nbs openL) =
    Some (match entry nb openL with
          | None => updatedNeighbor endC diag cur nb
          | Some old =>
              if gCost cur + stepCost cur nb <=? gCost old
              then updatedNeighbor endC diag cur nb else old
          end).
Proof.
  induction 1 as [|a nbs Hnotin Hnd IH]; intros openL nb Hin; [destruct Hin|].
  change (relaxAll endC diag cur (a :: nbs) openL)
    with (relaxAll endC diag cur nbs (relax endC diag cur openL a)).
  destruct Hin as [->|Hin].
  - rewrite relaxAll_entry_other by exact Hnotin. apply relax_entry_same.
  - rewrite IH by exact Hin.
    rewrite relax_entry_other; [reflexivity|].
    intros ->. contradiction.
Qed.

Lemma addCoord_injective (node : Coord) :
  Injective (fun direction => addCoord direction node).
Proof.
  intros [ax ay] [bx by_] H. unfold addCoord in H. simpl in H.
  injection H as H1 H2. f_equal; lia.
Qed.

Lemma directions_NoDup diag : List.NoDup (directions diag).
Proof.
  destruct diag; unfold directions, straight, diagonal; simpl;
    repeat (constructor; [simpl; intuition discriminate|]); constructor.
Qed.

Lemma getValidNeighbors_NoDup w h wallsL diag (node : Node) closedL :
  List.NoDup (getValidNeighbors w h wallsL diag node closedL).
Proof.
  unfold getValidNeighbors. apply List.NoDup_filter.
  apply Injective_map_NoDup; [apply addCoord_injective|apply directions_NoDup].
Qed.




(** *** Invariants of the search loop *)

Lemma leastFCost_In first rest : In (leastFCost first rest) (first :: rest).
Proof.
  induction rest as [|z rest IH] using rev_ind; [left; reflexivity|].
  rewrite leastFCost_snoc. unfold pickMin.
  change (first :: rest ++ [z]) with ((first :: rest) ++ [z]).
  apply in_or_app. destruct (_ <=? _); [right; left; reflexivity|left; exact IH].
Qed.

Lemma In_insert_inv {A} (l : list A) (i : nat) (u a : A) :
  In a (<[i := u]> l) -> a = u \/ In a l.
Proof.
  revert i. induction l as [|b l IH]; intros [|i] H; simpl in *; try tauto.
  - destruct H as [H|H]; auto.
  - destruct H as [H|H]; auto. apply IH in H. tauto.
Qed.

Lemma relax_In endC diag (cur : Node) (openL : list Node) (nb : Coord) (n : Node) :
  In n (relax endC diag cur openL nb) ->
  In n openL \/ n = updatedNeighbor endC diag cur nb.
Proof.
  unfold relax.
  destruct (findIndex _ openL) as [i|].
  - destruct (openL !! i) as [old|]; [|auto].
    destruct (_ <=? _); [|auto].
    intros H. apply In_insert_inv in H. tauto.
  - intros H. apply in_app_or in H as [H|[H|[]]]; auto.
Qed.

Lemma relaxAll_In endC diag (cur : Node) (nbs : list Coord) :
  forall (openL : list Node) (n : Node),
    In n (relaxAll endC diag cur nbs openL) ->
    In n openL \/ exists nb, In nb nbs /\ n = updatedNeighbor endC diag cur nb.
Proof.
  induction nbs as [|a nbs IH]; intros openL n H; [auto|].
  change (relaxAll endC diag cur (a :: nbs) openL)
    with (relaxAll endC diag cur nbs (relax endC diag cur openL a)) in H.
  apply IH in H as [H|(nb & Hnb & ->)].
  - apply relax_In in H as [H| ->]; [auto|].
    right. exists a. split; [left|]; reflexivity.
  - right. exists nb. split; [right|]; auto.
Qed.

Section LoopInvariant.

Variables (w h : Z) (wallsL : list Coord) (endC : Coord) (diag : bool).

Lemma searchLoop_nil fuel closedL count shown :
  searchLoop w h wallsL endC diag fuel [] closedL count shown
  = Some (closedL, count, shown).
Proof. destruct fuel; reflexivity. Qed.

Lemma searchLoop_cons fuel first rest closedL count shown :
  searchLoop w h wallsL endC diag (S fuel) (first :: rest) closedL count shown =
  let cur := leastFCost first rest in
  if sameCoord cur endC
  then Some (closedL ++ [cur], count, shown)
  else
    let openL :=
      relaxAll endC diag cur
               (getValidNeighbors w h wallsL diag cur (closedL ++ [cur]))
               (popped cur (first :: rest)) in
    searchLoop w h wallsL endC diag fuel openL (closedL ++ [cur]) (S count) openL.
Proof. reflexivity. Qed.

(** A property of nodes that the seed has and that every node built
    for a valid neighbour has holds of all nodes the loop hands out. *)
Variable P : Node -> Prop.
Hypothesis P_new :
  forall (cur : Node) (closedL : list Node) (nb : Coord),
    P cur -> In nb (getValidNeighbors w h wallsL diag cur closedL) ->
    P (updatedNeighbor endC diag cur nb).

Lemma searchLoop_Forall (fuel : nat) :
  forall (openL closedL : list Node) (count : nat) (shown : list Node)
         (closedL' : list Node) (count' : nat) (shown' : list Node),
    Forall P openL -> Forall P closedL -> Forall P shown ->
    searchLoop w h wallsL endC diag fuel openL closedL count shown
    = Some (closedL', count', shown') ->
    Forall P closedL' /\ Forall P shown'.
Proof.
  induction fuel as [|fuel IH]; intros openL closedL count shown
    closedL' count' shown' Ho Hc Hs Hrun.
  - destruct openL; simpl in Hrun; [|discriminate].
    injection Hrun as <- <- <-. auto.
  - destruct openL as [|first rest].
    { rewrite searchLoop_nil in Hrun. injection Hrun as <- <- <-. auto. }
    rewrite searchLoop_cons in Hrun. cbv zeta in Hrun.
    set (cur := leastFCost first rest) in *.
    assert (Hcur : P cur).
    { rewrite List.Forall_forall in Ho. apply Ho. apply leastFCost_In. }
    assert (Hc1 : Forall P (closedL ++ [cur])).
    { apply Forall_app. split; [exact Hc|]. constructor; [exact Hcur|constructor]. }
    destruct (sameCoord cur endC).
    { injection Hrun as <- <- <-. auto. }
    match type of Hrun with
    | searchLoop _ _ _ _ _ _ ?o _ _ _ = _ => assert (Ho2 : Forall P o)
    end.
    { rewrite List.Forall_forall. intros n Hn.
      apply relaxAll_In in Hn as [Hn|(nb & Hnb & ->)].
      - apply filter_In in Hn as [Hn _].
        rewrite List.Forall_forall in Ho. apply Ho. exact Hn.
      - eapply P_new; eauto. }
    exact (IH _ _ _ _ _ _ _ Ho2 Hc1 Ho2 Hrun).
Qed.

End LoopInvariant.

(** *** The search loop ends *)

Lemma In_seqZ (m n k : Z) : In k (seqZ m n) <-> m <= k < m + n.
Proof. rewrite <- list_elem_of_In. apply elem_of_seqZ. Qed.

Lemma allCells_In w h (c : Coord) :
  In c (allCells w h) <-> 0 <= x c < w /\ 0 <= y c < h.
Proof.
  unfold allCells. rewrite in_flat_map. split.
  - intros (cx & Hcx & Hc). apply in_map_iff in Hc as (cy & <- & Hcy).
    apply In_seqZ in Hcx, Hcy. simpl. lia.
  - intros [Hx Hy]. exists (x c). split; [apply In_seqZ; lia|].
    apply in_map_iff. exists (y c). split; [apply coord_eta|apply In_seqZ; lia].
Qed.

Lemma allCells_length w h :
  length (allCells w h) = (Z.to_nat w * Z.to_nat h)%nat.
Proof.
  unfold allCells. rewrite <- (length_seqZ 0 w).
  induction (seqZ 0 w) as [|cx l IH]; [reflexivity|].
  simpl. rewrite length_app, IH, length_map, length_seqZ. reflexivity.
Qed.

Lemma NoDup_snoc {A} (l : list A) (a : A) :
  ~ In a l -> List.NoDup l -> List.NoDup (l ++ [a]).
Proof.
  intros Ha Hl. induction Hl as [|b l Hb Hl IH]; simpl.
  - constructor; [intros []|constructor].
  - constructor.
    + intros H. apply in_app_or in H as [H|[H|[]]]; [auto|].
      apply Ha. left. symmetry. exact H.
    + apply IH. intros H. apply Ha. right. exact H.
Qed.

Section Termination.

Variables (w h : Z) (wallsL : list Coord) (endC : Coord) (diag : bool).
Variable startC : Coord.

Lemma searchInv_closed_length openL closedL :
  searchInv w h startC openL closedL ->
  (length closedL <= S (Z.to_nat w * Z.to_nat h))%nat.
Proof.
  intros [_ Hnd _ Hc].
  rewrite <- allCells_length, <- (length_map coord closedL).
  change (S (length (allCells w h))) with (length (startC :: allCells w h)).
  apply NoDup_incl_length; [exact Hnd|].
  intros c Hin. apply in_map_iff in Hin as (n & <- & Hn).
  destruct (Hc n Hn) as [->|H]; [left|right]; auto.
Qed.

Lemma searchInv_step first rest closedL :
  searchInv w h startC (first :: rest) closedL ->
  let cur := leastFCost first rest in
  searchInv w h startC
    (relaxAll endC diag cur
              (getValidNeighbors w h wallsL diag cur (closedL ++ [cur]))
              (popped cur (first :: rest)))
    (closedL ++ [cur]).
Proof.
  intros [Hd Hnd Ho Hc] cur.
  assert (Hcur : In cur (first :: rest)) by apply leastFCost_In.
  assert (Hnew : forall n,
             In n (relaxAll endC diag cur
                      (getValidNeighbors w h wallsL diag cur (closedL ++ [cur]))
                      (popped cur (first :: rest))) ->
             (In n (first :: rest) /\ coord n <> coord cur) \/
             (In (coord n) (getValidNeighbors w h wallsL diag cur
                                              (closedL ++ [cur])))).
  { intros n Hn. apply relaxAll_In in Hn as [Hn|(nb & Hnb & ->)].
    - left. apply filter_In in Hn as [Hn Hne]. split; [exact Hn|].
      apply negb_true_iff, sameCoord_neq in Hne. exact Hne.
    - right. simpl. rewrite coord_eta. exact Hnb. }
  split.
  - intros n m Hn Hm Heq. apply in_app_or in Hm.
    destruct (Hnew n Hn) as [[Hin Hne]|Hv].
    + destruct Hm as [Hm|[<-|[]]]; [exact (Hd n m Hin Hm Heq)|].
      exact (Hne Heq).
    + apply getValidNeighbors_spec in Hv as (_ & _ & _ & Hncl).
      apply Hncl. exists m. split; [|congruence].
      apply in_or_app. destruct Hm as [Hm|Hm]; [left|right]; exact Hm.
  - rewrite map_app. simpl.
    apply NoDup_snoc.
    + intros Hin. apply in_map_iff in Hin as (m & Heq & Hm).
      exact (Hd cur m Hcur Hm (eq_sym Heq)).
    + exact Hnd.
  - intros n Hn. destruct (Hnew n Hn) as [[Hin _]|Hv]; [exact (Ho n Hin)|].
    right. apply getValidNeighbors_spec in Hv as (_ & Hb & _).
    apply allCells_In. exact Hb.
  - intros n Hn. apply in_app_or in Hn as [Hn|[<-|[]]]; [exact (Hc n Hn)|].
    exact (Ho cur Hcur).
Qed.

Lemma searchLoop_terminates (fuel : nat) :
  forall (openL closedL : list Node) (count : nat) (shown : list Node),
    searchInv w h startC openL closedL ->
    (S (Z.to_nat w * Z.to_nat h) <= fuel + length closedL)%nat ->
    is_Some (searchLoop w h wallsL endC diag fuel openL closedL count shown).
Proof.
  induction fuel as [|fuel IH]; intros openL closedL count shown Hinv Hfuel.
  - destruct openL as [|first rest]; [rewrite searchLoop_nil; eauto|].
    pose proof (searchInv_closed_length _ _ (searchInv_step _ _ _ Hinv)) as Hl.
    rewrite length_app in Hl. simpl in Hl. lia.
  - destruct openL as [|first rest]; [rewrite searchLoop_nil; eauto|].
    rewrite searchLoop_cons. cbv zeta.
    destruct (sameCoord _ endC); [eauto|].
    apply IH; [apply searchInv_step; exact Hinv|].
    rewrite length_app. simpl. lia.
Qed.

End Termination.

(** [startPathFind] returns for every state of the component. *)
Lemma startPathFind_total (st : MapState) : is_Some (startPathFind st).
Proof.
  unfold startPathFind, startPathFindWith.
  match goal with
  | |- is_Some (match ?r with _ => _ end) => assert (Hr : is_Some r)
  end.
  { apply searchLoop_terminates with (startC := start st).
    - split.
      + intros n m _ [].
      + constructor.
      + intros n [<-|[]]. left. simpl. apply coord_eta.
      + intros n [].
    - unfold searchFuel. simpl. lia. }
  destruct Hr as [[[closedL count] shown] ->]. eauto.
Qed.

(** *** Heuristic *)

Lemma D2_value : D2 = 14.
Proof. reflexivity. Qed.

Lemma heuristic_new_node w h wallsL endC diag (cur : Node) (closedL : list Node)
      (nb : Coord) :
  hCost cur = heuristic endC diag cur ->
  In nb (getValidNeighbors w h wallsL diag cur closedL) ->
  hCost (updatedNeighbor endC diag cur nb)
  = heuristic endC diag (updatedNeighbor endC diag cur nb).
Proof. intros _ _. simpl. rewrite coord_eta. reflexivity. Qed.

(** *** Worked scenario *)

(** C10: on the empty 3x3 grid from (0,0) to (2,2) the search without
    diagonal movement returns a path of 5 coordinates of cost 40; with
    diagonal movement it returns (0,0), (1,1), (2,2) of cost 2 * D2 = 28. *)
Theorem C10_worked_scenario_3x3 :
  (exists st',
      startPathFind (scenario3x3 false) = Some st' /\
      length (nodePath st') = 5%nat /\
      head (nodePath st') = Some (mkCoord 0 0) /\
      last (nodePath st') = Some (mkCoord 2 2) /\
      distance st' = 40) /\
  (exists st',
      startPathFind (scenario3x3 true) = Some st' /\
      nodePath st' = [mkCoord 0 0; mkCoord 1 1; mkCoord 2 2] /\
      distance st' = 2 * D2 /\
      distance st' = 28).
Proof.
  split.
  - eexists. split; [vm_compute; reflexivity|].
    repeat split; reflexivity.
  - eexists. split; [vm_compute; reflexivity|].
    repeat split; reflexivity.
Qed.

(** *** Search without a path *)

(** When the loop ends without [end] among the closed nodes, the path
    is empty and [setDistance] is not called. *)
Lemma startPathFind_no_path (st : MapState) closedL count shown :
  searchLoop (width st) (height st) (walls st) (end_ st) (diagonalMovement st)
             (searchFuel st)
             [ {| coord := {| x := x (start st); y := y (start st) |};
                  gCost := 0;
                  hCost := heuristic (end_ st) (diagonalMovement st) (start st);
                  parent := None |} ] [] 0%nat []
  = Some (closedL, count, shown) ->
  List.find (fun node : Node => sameCoord node (end_ st)) closedL = None ->
  exists st',
    startPathFind st = Some st' /\
    nodePath st' = [] /\ distance st' = distance st /\ iterations st' = count.
Proof.
  intros Hrun Hfind. unfold startPathFind, startPathFindWith.
  rewrite Hrun, Hfind. eexists. split; [reflexivity|]. simpl. auto.
Qed.

End PathFinderProofs.

(** * Properties of the maze generator *)

Module MazeProofs.
Import Maze.
Import PathFinderProofs.

Section Grid.

Variables (width height : Z).

Lemma inGrid_spec (c : Coord) :
  inGrid width height c = true <-> 0 <= x c < width /\ 0 <= y c < height.
Proof. unfold inGrid. rewrite !andb_true_iff. lia. Qed.

Lemma cell_lookup (g : list (list bool)) (c : Coord) :
  cell g c = true <->
  0 <= x c /\ 0 <= y c /\
  exists col, g !! Z.to_nat (x c) = Some col /\ col !! Z.to_nat (y c) = Some true.
Proof.
  unfold cell. rewrite !andb_true_iff. split.
  - intros [[Hx Hy] H]. split; [lia|]. split; [lia|].
    destruct (g !! Z.to_nat (x c)) as [col|]; simpl in H; [|discriminate].
    exists col. split; [reflexivity|].
    destruct (col !! Z.to_nat (y c)) as [[]|]; simpl in H; congruence.
  - intros (Hx & Hy & col & Hg & Hc). rewrite Hg. simpl. rewrite Hc. simpl.
    repeat split; lia.
Qed.

Lemma wfGrid_cell_inGrid (g : list (list bool)) (c : Coord) :
  wfGrid width height g -> cell g c = true -> inGrid width height c = true.
Proof.
  intros [Hlen Hcols] H. apply cell_lookup in H as (Hx & Hy & col & Hg & Hc).
  apply inGrid_spec.
  pose proof (lookup_lt_Some _ _ _ Hg) as Hlx.
  pose proof (lookup_lt_Some _ _ _ Hc) as Hly.
  rewrite List.Forall_forall in Hcols.
  assert (Hcol : length col = Z.to_nat height).
  { apply Hcols. apply list_elem_of_In. eapply list_elem_of_lookup_2. exact Hg. }
  lia.
Qed.

Lemma setPassage_wf (g : list (list bool)) (c : Coord) :
  wfGrid width height g -> inGrid width height c = true ->
  wfGrid width height (setPassage g c).
Proof.
  intros [Hlen Hcols] Hc. apply inGrid_spec in Hc.
  unfold setPassage.
  destruct (g !! Z.to_nat (x c)) as [col|] eqn:Hg; [|split; assumption].
  destruct (Z.leb_spec 0 (y c)); [|split; assumption].
  split; [rewrite length_insert; exact Hlen|].
  apply Forall_insert; [exact Hcols|].
  rewrite List.Forall_forall in Hcols.
  assert (Hcol : length col = Z.to_nat height).
  { apply Hcols. apply list_elem_of_In. eapply list_elem_of_lookup_2. exact Hg. }
  unfold arraySet.
  destruct (Nat.ltb_spec (Z.to_nat (y c)) (length col)); [|lia].
  rewrite length_insert. exact Hcol.
Qed.

Lemma cell_setPassage (g : list (list bool)) (c c' : Coord) :
  wfGrid width height g -> inGrid width height c = true ->
  cell (setPassage g c) c' = cell g c' || sameCoord c' c.
Proof.
  intros [Hlen Hcols] Hc. apply inGrid_spec in Hc.
  destruct (lookup_lt_is_Some_2 g (Z.to_nat (x c))) as [col Hg]; [lia|].
  rewrite List.Forall_forall in Hcols.
  assert (Hcol : length col = Z.to_nat height).
  { apply Hcols. apply list_elem_of_In. eapply list_elem_of_lookup_2. exact Hg. }
  unfold setPassage. rewrite Hg.
  destruct (Z.leb_spec 0 (y c)); [|lia].
  unfold arraySet.
  destruct (Nat.ltb_spec (Z.to_nat (y c)) (length col)); [|lia].
  unfold cell, sameCoord.
  destruct (Z.leb_spec 0 (x c')); simpl;
    [|destruct (Z.eqb_spec (x c') (x c)); [lia|reflexivity]].
  destruct (Z.leb_spec 0 (y c')); simpl;
    [|destruct (Z.eqb_spec (y c') (y c)); [lia|rewrite andb_false_r; reflexivity]].
  destruct (Z.eqb_spec (x c') (x c)) as [Hx|Hx]; simpl.
  - rewrite Hx, list_lookup_insert_eq by lia. rewrite Hg. simpl.
    destruct (Z.eqb_spec (y c') (y c)) as [Hy|Hy].
    + rewrite Hy, list_lookup_insert_eq by lia. simpl.
      rewrite orb_true_r. reflexivity.
    + rewrite list_lookup_insert_ne by lia. rewrite orb_false_r. reflexivity.
  - rewrite list_lookup_insert_ne by lia. rewrite orb_false_r. reflexivity.
Qed.

Lemma getCells_spec (c c' : Coord) :
  In c' (getCells width height c) <->
  inGrid width height c' = true /\ adjacent c c'.
Proof.
  unfold getCells, adjacent. rewrite filter_In, in_map_iff. split.
  - intros [(d & <- & Hd) Hin]. split; [exact Hin|]. exists d. auto.
  - intros [Hin (d & Hd & ->)]. split; [|exact Hin]. exists d. auto.
Qed.

Lemma adjacent_sym (a b : Coord) : adjacent a b -> adjacent b a.
Proof.
  intros (d & Hd & ->). unfold adjacent, directions in *.
  exists (mkCoord (- x d) (- y d)). split.
  - simpl in Hd. destruct Hd as [<-|[<-|[<-|[<-|[]]]]]; simpl; auto.
  - destruct a as [ax ay], d as [dx dy]. unfold addCoord. simpl. f_equal; lia.
Qed.

Lemma adjacent_neq (a b : Coord) : adjacent a b -> a <> b.
Proof.
  intros (d & Hd & ->) Heq. unfold directions in Hd. simpl in Hd.
  destruct a as [ax ay]. unfold addCoord in Heq.
  destruct Hd as [<-|[<-|[<-|[<-|[]]]]]; simpl in Heq; injection Heq; lia.
Qed.

(** [count] of the loop body, when every passage lies on the grid. *)
Lemma count_around (g : list (list bool)) (c : Coord) :
  wfGrid width height g ->
  length (List.filter (cell g) (getCells width height c)) = around g c.
Proof.
  intros Hwf. unfold getCells, around, directions. simpl.
  repeat match goal with
  | |- context [inGrid width height ?d] =>
      let Hi := fresh "Hi" in
      let Hc := fresh "Hc" in
      destruct (inGrid width height d) eqn:Hi; simpl;
      destruct (cell g d) eqn:Hc; simpl;
      try (rewrite (wfGrid_cell_inGrid g d Hwf Hc) in Hi; discriminate Hi)
  end; reflexivity.
Qed.

(** A cell that gains its first passage neighbour when [rw] is opened
    is one of the cells around [rw]. *)
Lemma around_gain (g g1 : list (list bool)) (rw c : Coord) :
  (forall c', cell g1 c' = cell g c' || sameCoord c' rw) ->
  inGrid width height c = true ->
  around g c = 0%nat -> (1 <= around g1 c)%nat ->
  In c (getCells width height rw).
Proof.
  intros Hg1 Hin H0 H1. apply getCells_spec. split; [exact Hin|].
  apply adjacent_sym. unfold around in *. rewrite !Hg1 in H1.
  unfold adjacent, directions.
  repeat match type of H0 with
  | context [cell g ?d] => destruct (cell g d); simpl in H0; try lia
  end.
  simpl in H1.
  repeat match type of H1 with
  | context [sameCoord ?d rw] =>
      let Hs := fresh "Hs" in
      destruct (sameCoord d rw) eqn:Hs;
      [apply sameCoord_eq in Hs; eexists; split; [|symmetry; exact Hs];
       simpl; tauto|]
  end.
  simpl in H1. lia.
Qed.

Lemma around_mono (g g1 : list (list bool)) (rw c : Coord) :
  (forall c', cell g1 c' = cell g c' || sameCoord c' rw) ->
  (around g c <= around g1 c)%nat.
Proof.
  intros Hg1. unfold around. rewrite !Hg1.
  repeat match goal with
  | |- context [cell g ?d] => destruct (cell g d); simpl
  end;
  repeat match goal with
  | |- context [sameCoord ?d rw] => destruct (sameCoord d rw); simpl
  end; lia.
Qed.

(** A cell with exactly one passage around it has a passage neighbour. *)
Lemma around_one_neighbor (g : list (list bool)) (c : Coord) :
  (1 <= around g c)%nat -> exists p, adjacent c p /\ cell g p = true.
Proof.
  unfold around, adjacent, directions. intros H.
  repeat match type of H with
  | context [cell g ?d] =>
      let Hc := fresh "Hc" in
      destruct (cell g d) eqn:Hc;
      [exists d; split; [eexists; split; [|reflexivity]; simpl; tauto|exact Hc]|]
  end.
  simpl in H. lia.
Qed.

Lemma In_delete_ne {A} (l : list A) (k : nat) (a c : A) :
  l !! k = Some a -> c <> a -> In c l -> In c (delete k l).
Proof.
  revert k. induction l as [|b l IH]; intros [|k] Hk Hne Hin; simpl in *;
    try discriminate.
  - injection Hk as ->. destruct Hin as [->|Hin]; [contradiction|exact Hin].
  - destruct Hin as [Hin|Hin]; [left; exact Hin|right; eauto].
Qed.

Lemma In_delete {A} (l : list A) (k : nat) (c : A) :
  In c (delete k l) -> In c l.
Proof.
  revert k. induction l as [|b l IH]; intros [|k] Hin; simpl in *; try tauto.
  destruct Hin as [Hin|Hin]; [left; exact Hin|right; eauto].
Qed.

Lemma delete_app_l {A} (l l' : list A) (k : nat) :
  (k < length l)%nat -> delete k (l ++ l') = delete k l ++ l'.
Proof.
  revert k. induction l as [|b l IH]; intros [|k] Hk; simpl in *; try lia;
    [reflexivity|].
  f_equal. apply IH. lia.
Qed.

(** *** One iteration of the generation loop *)

Lemma stillWall_filter (g : list (list bool)) (rw : Coord) :
  wfGrid width height g -> inGrid width height rw = true ->
  List.filter (fun c => negb (cell (setPassage g rw) c)) (getCells width height rw)
  = List.filter (fun c => negb (cell g c)) (getCells width height rw).
Proof.
  intros Hwf Hin. apply filter_ext_in. intros c Hc.
  rewrite (cell_setPassage g rw c Hwf Hin).
  apply getCells_spec in Hc as [_ Hadj]. apply adjacent_neq in Hadj.
  assert (Hs : sameCoord c rw = false) by (apply sameCoord_neq; congruence).
  rewrite Hs, orb_false_r. reflexivity.
Qed.

Lemma loopBody_opened (s : LoopState) (k : nat) (rw : Coord) :
  wfGrid width height (grid s) -> inGrid width height rw = true ->
  wallList s !! k = Some rw ->
  around (grid s) rw = 1%nat ->
  loopBody width height s k rw =
  {| grid := setPassage (grid s) rw;
     wallList :=
       delete k (wallList s) ++
       List.filter (fun c => negb (cell (grid s) c)) (getCells width height rw) |}.
Proof.
  intros Hwf Hin Hk Hone. unfold loopBody.
  rewrite (count_around (grid s) rw Hwf), Hone. simpl.
  rewrite (stillWall_filter (grid s) rw Hwf Hin).
  rewrite delete_app_l by (eapply lookup_lt_Some; exact Hk). reflexivity.
Qed.

Lemma loopBody_kept (s : LoopState) (k : nat) (rw : Coord) :
  wfGrid width height (grid s) ->
  around (grid s) rw <> 1%nat ->
  loopBody width height s k rw =
  {| grid := grid s; wallList := delete k (wallList s) |}.
Proof.
  intros Hwf Hne. unfold loopBody.
  rewrite (count_around (grid s) rw Hwf).
  destruct (Nat.eqb_spec (around (grid s) rw) 1); [contradiction|reflexivity].
Qed.

Lemma generationLoop_done (draws : list nat) (s : LoopState) :
  wallList s = [] -> generationLoop width height draws s = Some s.
Proof. intros H. destruct draws; simpl; rewrite H; reflexivity. Qed.

Lemma generationLoop_empty (draws : list nat) :
  forall s s' : LoopState,
    generationLoop width height draws s = Some s' -> wallList s' = [].
Proof.
  induction draws as [|k draws IH]; intros s s' H; simpl in H.
  - destruct (wallList s) eqn:Hw; [|discriminate]. injection H as <-. exact Hw.
  - destruct (wallList s) as [|c l] eqn:Hw.
    + injection H as <-. exact Hw.
    + destruct ((c :: l) !! k); [|discriminate]. eapply IH. exact H.
Qed.

(** *** Invariants of the generation loop *)

Lemma connected_mono (p q : Coord -> bool) (seed c : Coord) :
  (forall c', p c' = true -> q c' = true) ->
  connected p seed c -> connected q seed c.
Proof.
  intros Hpq H. induction H as [Hs|c c' _ IH Hadj Hc'].
  - apply connected_seed. auto.
  - eapply connected_move; eauto.
Qed.

Lemma cell_blank (c : Coord) :
  cell (replicate (Z.to_nat width) (replicate (Z.to_nat height) false)) c = false.
Proof.
  apply not_true_iff_false. intros H.
  apply cell_lookup in H as (_ & _ & col & Hg & Hc).
  apply lookup_replicate in Hg as [-> _].
  apply lookup_replicate in Hc as [Hc _]. discriminate.
Qed.

Lemma blank_wf :
  wfGrid width height (replicate (Z.to_nat width) (replicate (Z.to_nat height) false)).
Proof.
  split; [apply length_replicate|].
  apply Forall_replicate. apply length_replicate.
Qed.

Lemma around_blank (g : list (list bool)) (c : Coord) :
  (forall c', cell g c' = false) -> around g c = 0%nat.
Proof. intros H. unfold around. rewrite !H. reflexivity. Qed.

Variable firstCell : Coord.

Lemma mazeInv_init :
  inGrid width height firstCell = true ->
  mazeInv width height firstCell (initialState width height
             (replicate (Z.to_nat width) (replicate (Z.to_nat height) false))
             firstCell).
Proof.
  intros Hin. set (g0 := replicate _ _).
  assert (Hcell : forall c, cell (setPassage g0 firstCell) c
                            = cell g0 c || sameCoord c firstCell).
  { intros c. apply cell_setPassage; [apply blank_wf|exact Hin]. }
  split; simpl.
  - apply setPassage_wf; [apply blank_wf|exact Hin].
  - rewrite Hcell, sameCoord_refl. apply orb_true_r.
  - intros c Hc. apply getCells_spec in Hc. tauto.
  - intros c Hc. rewrite Hcell in Hc. unfold g0 in Hc. rewrite cell_blank in Hc.
    simpl in Hc. apply sameCoord_eq in Hc. subst c.
    apply connected_seed. rewrite Hcell, sameCoord_refl. apply orb_true_r.
  - intros c Hc _ H1. left.
    apply (around_gain g0 (setPassage g0 firstCell) firstCell c Hcell Hc);
      [|exact H1].
    apply around_blank. intros c'. apply cell_blank.
Qed.

Lemma mazeInv_step (s : LoopState) (k : nat) (rw : Coord) :
  mazeInv width height firstCell s -> wallList s !! k = Some rw ->
  mazeInv width height firstCell (loopBody width height s k rw).
Proof.
  intros [Hwf Hseed Hfr Hconn Hpend] Hk.
  assert (Hrw : In rw (wallList s)).
  { apply list_elem_of_In. eapply list_elem_of_lookup_2. exact Hk. }
  assert (Hin : inGrid width height rw = true) by auto.
  destruct (Nat.eq_dec (around (grid s) rw) 1%nat) as [Hone|Hne].
  - rewrite loopBody_opened by assumption.
    pose proof (cell_setPassage (grid s) rw) as Hcell.
    specialize (fun c' => Hcell c' Hwf Hin).
    split; simpl.
    + apply setPassage_wf; assumption.
    + rewrite Hcell, Hseed. reflexivity.
    + intros c Hc. apply in_app_or in Hc as [Hc|Hc].
      * apply Hfr. eapply In_delete. exact Hc.
      * apply filter_In in Hc as [Hc _]. apply getCells_spec in Hc. tauto.
    + assert (Hmono : forall c', cell (grid s) c' = true ->
                                 cell (setPassage (grid s) rw) c' = true).
      { intros c' Hc'. rewrite Hcell, Hc'. reflexivity. }
      intros c Hc. rewrite Hcell in Hc. apply orb_true_iff in Hc as [Hc|Hc].
      * eapply connected_mono; [exact Hmono|]. auto.
      * apply sameCoord_eq in Hc. subst c.
        destruct (around_one_neighbor (grid s) rw) as (p & Hadj & Hp); [lia|].
        apply connected_move with (c := p).
        -- eapply connected_mono; [exact Hmono|]. auto.
        -- apply adjacent_sym. exact Hadj.
        -- rewrite Hcell, sameCoord_refl. apply orb_true_r.
    + intros c Hc Hwall H1.
      rewrite Hcell in Hwall. apply orb_false_iff in Hwall as [Hwall Hsame].
      apply sameCoord_neq in Hsame.
      pose proof (around_mono (grid s) _ rw c Hcell) as Hm.
      destruct (Nat.eq_dec (around (grid s) c) 0%nat) as [H0|H0].
      * left. apply in_or_app. right. apply filter_In. split.
        -- eapply around_gain; eauto.
        -- rewrite Hwall. reflexivity.
      * destruct (Hpend c Hc Hwall) as [Hl|Hl]; [lia| |right; lia].
        left. apply in_or_app. left. eapply In_delete_ne; eauto.
  - rewrite loopBody_kept by assumption.
    split; simpl.
    + exact Hwf.
    + exact Hseed.
    + intros c Hc. apply Hfr. eapply In_delete. exact Hc.
    + exact Hconn.
    + intros c Hc Hwall H1.
      destruct (Hpend c Hc Hwall H1) as [Hl|Hl]; [|right; exact Hl].
      destruct (decide (c = rw)) as [->|Hneq]; [right; lia|].
      left. eapply In_delete_ne; eauto.
Qed.

Lemma mazeInv_reachable (s : LoopState) :
  inGrid width height firstCell = true ->
  reachable width height
            (replicate (Z.to_nat width) (replicate (Z.to_nat height) false))
            firstCell s ->
  mazeInv width height firstCell s.
Proof.
  intros Hin H. induction H as [|s k c _ IH Hk].
  - apply mazeInv_init. exact Hin.
  - eapply mazeInv_step; eauto.
Qed.

Lemma generationLoop_reachable g0 (draws : list nat) :
  forall s s' : LoopState,
    reachable width height g0 firstCell s ->
    generationLoop width height draws s = Some s' ->
    reachable width height g0 firstCell s'.
Proof.
  induction draws as [|k draws IH]; intros s s' Hr H; simpl in H.
  - destruct (wallList s); [|discriminate]. injection H as <-. exact Hr.
  - destruct (wallList s) as [|c l] eqn:Hw.
    + injection H as <-. exact Hr.
    + destruct ((c :: l) !! k) as [rw|] eqn:Hk; [|discriminate].
      eapply IH; [|exact H]. eapply reachable_step; [exact Hr|].
      rewrite Hw. exact Hk.
Qed.

End Grid.

(** *** One iteration of the generation loop *)

(** C7: an iteration of the loop that draws the index [k], where the
    frontier list holds [w], goes on from the state [loopBody] gives for
    [k] and [w]; in it [w] is made a passage exactly when one of its
    bounds-clipped 4-neighbours is a passage (no other cell changes);
    when that happens the bounds-clipped neighbours of [w] that are
    still walls, and only those, are appended to the frontier list;
    the entry at index [k] is removed in both cases.  The loop returns
    when the frontier list is empty, draws again when it is not, and
    whatever it returns has an empty frontier list.  In a call of the
    generator every iteration is of this kind: the grid stays
    rectangular and the frontier list holds cells of the grid. *)
Theorem C7_generation_step width height (s : LoopState) (k : nat) (w : Coord) :
  wfGrid width height (grid s) ->
  inGrid width height w = true ->
  wallList s !! k = Some w ->
  let count := length (List.filter (cell (grid s)) (getCells width height w)) in
  let s' := loopBody width height s k w in
  (forall draws,
      generationLoop width height (k :: draws) s
      = generationLoop width height draws s') /\
  (forall c, cell (grid s') c
             = cell (grid s) c || (sameCoord c w && (count =? 1)%nat)) /\
  (count = 1%nat ->
   wallList s' =
   (take k (wallList s) ++ drop (S k) (wallList s)) ++
   List.filter (fun c => negb (cell (grid s) c)) (getCells width height w)) /\
  (count <> 1%nat ->
   grid s' = grid s /\
   wallList s' = take k (wallList s) ++ drop (S k) (wallList s)) /\
  (forall draws s0, wallList s0 = [] ->
                    generationLoop width height draws s0 = Some s0) /\
  (forall s0, wallList s0 <> [] -> generationLoop width height [] s0 = None) /\
  (forall draws s0 s1, generationLoop width height draws s0 = Some s1 ->
                       wallList s1 = []) /\
  (forall firstCell s0 k0 w0,
      inGrid width height firstCell = true ->
      reachable width height
                (replicate (Z.to_nat width) (replicate (Z.to_nat height) false))
                firstCell s0 ->
      wallList s0 !! k0 = Some w0 ->
      wfGrid width height (grid s0) /\ inGrid width height w0 = true).
Proof.
  intros Hwf Hin Hk count s'.
  assert (Hcount : count = around (grid s) w) by apply (count_around _ _ _ _ Hwf).
  assert (Hdel : delete k (wallList s) = take k (wallList s) ++ drop (S k) (wallList s)).
  { clear. revert k. induction (wallList s) as [|b l IH]; intros [|k]; simpl;
      try reflexivity. f_equal. apply IH. }
  split; [|split; [|split; [|split; [|split; [|split; [|split]]]]]].
  - intros draws. simpl. destruct (wallList s) as [|c l] eqn:Hl.
    + destruct k; discriminate Hk.
    + rewrite Hk. reflexivity.
  - intros c. destruct (Nat.eqb_spec count 1) as [H1|H1].
    + unfold s'. rewrite (loopBody_opened width height) by congruence. simpl.
      rewrite andb_true_r. apply (cell_setPassage width height); assumption.
    + unfold s'. rewrite (loopBody_kept width height) by congruence. simpl.
      rewrite andb_false_r, orb_false_r. reflexivity.
  - intros H1. unfold s'. rewrite (loopBody_opened width height) by congruence.
    simpl. rewrite Hdel. reflexivity.
  - intros H1. unfold s'. rewrite (loopBody_kept width height) by congruence.
    simpl. rewrite Hdel. auto.
  - intros draws s0. apply generationLoop_done.
  - intros s0 Hne. simpl. destruct (wallList s0); [contradiction|reflexivity].
  - intros draws s0 s1. apply generationLoop_empty.
  - intros firstCell s0 k0 w0 Hfc Hreach Hk0.
    pose proof (mazeInv_reachable width height firstCell s0 Hfc Hreach) as Hinv.
    split; [exact (inv_wf _ _ _ _ Hinv)|].
    apply (inv_frontier _ _ _ _ Hinv). apply list_elem_of_In.
    eapply list_elem_of_lookup_2. exact Hk0.
Qed.

(** On the 3x3 grid seeded at the centre, the first frontier entry
    (0,1) has the seed as its only passage neighbour and is opened;
    drawing the first entry each time, the loop leaves the four
    corners as walls. *)
Lemma C7_generation_step_witness :
  let s0 := initialState 3 3 (replicate 3 (replicate 3 false)) (mkCoord 1 1) in
  wallList s0 !! 0%nat = Some (mkCoord 0 1) /\
  cell (grid (loopBody 3 3 s0 0 (mkCoord 0 1))) (mkCoord 0 1) = true /\
  wallList (loopBody 3 3 s0 0 (mkCoord 0 1))
  = [mkCoord 1 2; mkCoord 2 1; mkCoord 1 0; mkCoord 0 2; mkCoord 0 0] /\
  generationLoop 3 3 (0%nat :: repeat 0%nat 11) s0
  = Some {| grid := [[false; true; false]; [true; true; true];
                     [false; true; false]];
            wallList := [] |}.
Proof.
  intros s0.
  assert (Hwf : wfGrid 3 3 (grid s0)) by (split; [reflexivity|repeat constructor]).
  pose proof (C7_generation_step 3 3 s0 0 (mkCoord 0 1) Hwf eq_refl eq_refl)
    as (Hrun & Hcell & Hopen & _).
  split; [reflexivity|]. split; [|split].
  - rewrite Hcell. reflexivity.
  - rewrite Hopen by reflexivity. reflexivity.
  - rewrite Hrun. vm_compute. reflexivity.
Defined.

(** *** The returned maze *)

Lemma In_collectWalls width height (g : list (list bool)) (c : Coord) :
  0 < width -> wfGrid width height g ->
  In c (collectWalls g) <-> inGrid width height c = true /\ cell g c = false.
Proof.
  intros Hw [Hlen Hcols]. unfold collectWalls.
  destruct (lookup_lt_is_Some_2 g 0%nat) as [col Hg]; [lia|].
  assert (Hcol : length col = Z.to_nat height).
  { rewrite List.Forall_forall in Hcols. apply Hcols.
    apply list_elem_of_In. eapply list_elem_of_lookup_2. exact Hg. }
  rewrite Hg. simpl. rewrite in_flat_map. rewrite inGrid_spec. split.
  - intros (cx & Hcx & Hc). apply in_flat_map in Hc as (cy & Hcy & Hc).
    apply In_seqZ in Hcx, Hcy.
    destruct (cell g (mkCoord cx cy)) eqn:Hcell; [destruct Hc|].
    destruct Hc as [<-|[]]. simpl. split; [lia|exact Hcell].
  - intros [Hb Hcell]. exists (x c). split; [apply In_seqZ; lia|].
    apply in_flat_map. exists (y c). split; [apply In_seqZ; lia|].
    rewrite coord_eta, Hcell. left. reflexivity.
Qed.

Lemma isPassage_collectWalls width height (g : list (list bool)) (c : Coord) :
  0 < width -> wfGrid width height g ->
  isPassage width height (collectWalls g) c = cell g c.
Proof.
  intros Hw Hwf. unfold isPassage.
  destruct (existsb (sameCoord c) (collectWalls g)) eqn:Hex.
  - apply existsb_exists in Hex as (c' & Hin & Heq).
    apply sameCoord_eq in Heq. subst c'.
    apply (In_collectWalls width height g c Hw Hwf) in Hin as [_ ->].
    apply andb_false_r.
  - rewrite andb_true_r. destruct (cell g c) eqn:Hcell.
    + eapply wfGrid_cell_inGrid; eauto.
    + destruct (inGrid width height c) eqn:Hin; [|reflexivity].
      assert (Hc : In c (collectWalls g))
        by (apply (In_collectWalls width height g c Hw Hwf); auto).
      assert (existsb (sameCoord c) (collectWalls g) = true) as Hex'.
      { apply existsb_exists. exists c. split; [exact Hc|apply sameCoord_refl]. }
      congruence.
Qed.

(** For positive dimensions and a seed on the grid the function returns
    what the loop leaves, without raising. *)
Lemma mazePrimsAlgorithm_returned width height firstCell draws r :
  0 < width -> 0 < height ->
  drawn width (x firstCell) -> drawn height (y firstCell) ->
  mazePrimsAlgorithm width height firstCell draws = Some (Returned r) ->
  exists s,
    reachable width height
              (replicate (Z.to_nat width) (replicate (Z.to_nat height) false))
              firstCell s /\
    wallList s = [] /\
    inGrid width height firstCell = true /\
    r = {| finalWallList := collectWalls (grid s);
           start := fst (findEndpoints height (grid s));
           end_ := snd (findEndpoints height (grid s)) |}.
Proof.
  intros Hw Hh [Hx _] [Hy _] H. specialize (Hx Hw). specialize (Hy Hh).
  unfold mazePrimsAlgorithm, newGrid in H.
  destruct (Z.leb_spec width 0); [lia|].
  destruct (arrayLimit <=? width); [discriminate|].
  destruct ((height <? 0) || (arrayLimit <=? height)); [discriminate|].
  rewrite length_replicate in H.
  destruct (Z.ltb_spec (x firstCell) 0); [lia|].
  destruct (Z.leb_spec (Z.of_nat (Z.to_nat width)) (x firstCell)); [lia|].
  simpl in H.
  destruct (generationLoop _ _ _ _) as [s|] eqn:Hrun; [|discriminate].
  exists s. split; [|split; [|split]].
  - eapply generationLoop_reachable; [apply reachable_init|exact Hrun].
  - eapply generationLoop_empty. exact Hrun.
  - apply inGrid_spec. lia.
  - destruct (findEndpoints height (grid s)) as [st en].
    injection H as <-. reflexivity.
Qed.

Lemma getCells_no_rows width height (c : Coord) :
  height <= 0 -> getCells width height c = [].
Proof.
  intros Hh. unfold getCells, directions. simpl.
  repeat match goal with
  | |- context [inGrid width height ?d] =>
      let Hi := fresh "Hi" in
      destruct (inGrid width height d) eqn:Hi;
      [apply inGrid_spec in Hi; lia|]
  end.
  reflexivity.
Qed.

Lemma scanLoop_origin height (g : list (list bool)) (n : nat) :
  (forall i, cell g (mkCoord 0 i) = true -> i = 0) ->
  (forall cx, cell g (mkCoord cx (height - 1)) = false) ->
  forall i startFound,
    scanLoop height g n i (mkCoord 0 0) (mkCoord 0 0) startFound false
    = (mkCoord 0 0, mkCoord 0 0).
Proof.
  intros Hs He. induction n as [|n IH]; intros i sf; simpl; [reflexivity|].
  rewrite andb_false_r. simpl. rewrite He. simpl.
  destruct (cell g (mkCoord 0 i)) eqn:Hc; simpl.
  - apply Hs in Hc. subst i. destruct sf; simpl; apply IH.
  - apply IH.
Qed.

(** With no rows the loop is not entered and the scan finds nothing. *)
Lemma mazePrimsAlgorithm_no_rows width height firstCell draws :
  0 < width < arrayLimit -> height = 0 ->
  drawn width (x firstCell) -> drawn height (y firstCell) ->
  exists wallsL,
    mazePrimsAlgorithm width height firstCell draws
    = Some (Returned {| finalWallList := wallsL;
                        start := mkCoord 0 0; end_ := mkCoord 0 0 |}).
Proof.
  unfold mazePrimsAlgorithm, newGrid.
  intros [Hw Hlim] Hh [Hx _] [_ [Hy _]]. specialize (Hx Hw). specialize (Hy Hh).
  subst height. destruct (Z.leb_spec width 0); [lia|].
  destruct (Z.leb_spec arrayLimit width); [lia|]. simpl.
  rewrite length_replicate.
  destruct (Z.ltb_spec (x firstCell) 0); [lia|].
  destruct (Z.leb_spec (Z.of_nat (Z.to_nat width)) (x firstCell)); [lia|].
  simpl.
  rewrite generationLoop_done
    by (simpl; apply getCells_no_rows; lia).
  unfold findEndpoints. rewrite scanLoop_origin.
  - eexists. reflexivity.
  - simpl. intros i Hc. apply cell_lookup in Hc as (_ & Hi & col & Hg & Hc).
    simpl in *. unfold setPassage in Hg.
    destruct (replicate (Z.to_nat width) [] !! Z.to_nat (x firstCell))
      as [col0|] eqn:Hg0; [|apply lookup_replicate in Hg as [-> _];
                             destruct (Z.to_nat i); discriminate].
    apply lookup_replicate in Hg0 as [-> _].
    rewrite Hy in Hg. simpl in Hg.
    destruct (decide (Z.to_nat (x firstCell) = 0%nat)) as [He|He].
    + rewrite He in Hg. rewrite list_lookup_insert_eq in Hg
        by (rewrite length_replicate; lia).
      injection Hg as <-. unfold arraySet in Hc. simpl in Hc.
      destruct (Z.to_nat i) as [|k] eqn:Hk; [lia|discriminate].
    + rewrite list_lookup_insert_ne in Hg by exact He.
      apply lookup_replicate in Hg as [-> _].
      destruct (Z.to_nat i); discriminate.
  - intros cx. unfold cell. simpl. rewrite andb_false_r. reflexivity.
Qed.

(** A call that returns had a positive width and a height of at least
    0, both below the limit of array lengths. *)
Lemma returned_bounds width height firstCell draws r :
  mazePrimsAlgorithm width height firstCell draws = Some (Returned r) ->
  0 < width < arrayLimit /\ 0 <= height < arrayLimit.
Proof.
  unfold mazePrimsAlgorithm, newGrid. intros H.
  destruct (Z.leb_spec width 0).
  - exfalso. change (Z.of_nat (length (@nil (list bool)))) with 0 in H.
    destruct (Z.ltb_spec (x firstCell) 0); [discriminate|].
    destruct (Z.leb_spec 0 (x firstCell)); [discriminate|lia].
  - destruct (Z.leb_spec arrayLimit width); [discriminate|].
    destruct (Z.ltb_spec height 0); [discriminate|].
    destruct (Z.leb_spec arrayLimit height); [discriminate|]. lia.
Qed.

Lemma returned_dimensions width height firstCell draws r :
  mazePrimsAlgorithm width height firstCell draws = Some (Returned r) ->
  0 < width /\ 0 <= height.
Proof. intros H. apply returned_bounds in H. lia. Qed.

(** C8: in every maze the generator returns, each passage (each cell
    of the grid that is not in the returned wall list) is reached from
    the seed cell by 4-directional moves over passages only; the seed
    is itself a passage as soon as the grid has a row. *)
Theorem C8_passages_connected width height firstCell draws r :
  drawn width (x firstCell) -> drawn height (y firstCell) ->
  mazePrimsAlgorithm width height firstCell draws = Some (Returned r) ->
  (0 < height -> isPassage width height (finalWallList r) firstCell = true) /\
  forall c : Coord,
    isPassage width height (finalWallList r) c = true ->
    connected (isPassage width height (finalWallList r)) firstCell c.
Proof.
  intros Hx Hy H.
  destruct (returned_dimensions _ _ _ _ _ H) as [Hw Hh0].
  destruct (decide (height = 0)) as [Hz|Hnz].
  { split; [lia|]. intros c Hc. unfold isPassage in Hc.
    destruct (inGrid width height c) eqn:Hin; [|discriminate].
    apply inGrid_spec in Hin. lia. }
  assert (Hh : 0 < height) by lia.
  destruct (mazePrimsAlgorithm_returned _ _ _ _ _ Hw Hh Hx Hy H)
    as (s & Hreach & _ & Hin & ->).
  pose proof (mazeInv_reachable width height firstCell s Hin Hreach)
    as [Hwf Hseed _ Hconn _].
  simpl.
  assert (Hpass : forall c, cell (grid s) c = true ->
                            connected (isPassage width height (collectWalls (grid s)))
                                      firstCell c).
  { intros c Hc. eapply connected_mono; [|apply Hconn; exact Hc].
    intros c' Hc'. rewrite isPassage_collectWalls by assumption. exact Hc'. }
  split.
  - intros _. rewrite isPassage_collectWalls by assumption. exact Hseed.
  - intros c Hc. apply Hpass.
    rewrite isPassage_collectWalls in Hc by assumption. exact Hc.
Qed.

(** A 2x2 maze: seed (0,0), always the first frontier entry drawn. *)
Lemma C8_passages_connected_witness :
  (0 < 2 -> isPassage 2 2 [mkCoord 1 1] (mkCoord 0 0) = true) /\
  forall c : Coord,
    isPassage 2 2 [mkCoord 1 1] c = true ->
    connected (isPassage 2 2 [mkCoord 1 1]) (mkCoord 0 0) c.
Proof.
  apply (C8_passages_connected 2 2 (mkCoord 0 0) [0; 0; 0; 0; 0; 0]%nat
           {| finalWallList := [mkCoord 1 1];
              start := mkCoord 0 0; end_ := mkCoord 0 1 |}).
  - unfold drawn. simpl. lia.
  - unfold drawn. simpl. lia.
  - vm_compute. reflexivity.
Defined.

(** *** Non-positive dimensions *)

(** With [height <= 0] and [width > 0] nothing stops a call, and there
    is no InvalidDimensions outcome: C9, as stated, fails. *)
Lemma C9_zero_height_not_rejected :
  drawn 1 0 /\ drawn 0 0 /\
  mazePrimsAlgorithm 1 0 (mkCoord 0 0) []
  = Some (Returned {| finalWallList := [];
                      start := mkCoord 0 0; end_ := mkCoord 0 0 |}) /\
  ~ (exists e, mazePrimsAlgorithm 1 0 (mkCoord 0 0) [] = Some (Threw e)).
Proof.
  split; [unfold drawn; lia|]. split; [unfold drawn; lia|].
  split; [reflexivity|]. intros [e He]. discriminate He.
Qed.

(** C9, amended: the generator does not check its dimensions; what
    stops a call is the allocation of the grid or the write of the seed
    cell.  With [width <= 0] the call aborts with a TypeError at the
    write of the seed cell; with [width > 0] and [height < 0] it aborts
    with a RangeError while the grid is allocated; with [width > 0]
    below the limit 2^32 of array lengths and [height = 0] it returns,
    with start and end both (0,0).  The only other dimensions refused
    are those no array can have: a width of 2^32 or more, or a height
    of 2^32 or more with [width > 0], are a RangeError as well. *)
Theorem C9_non_positive_dimensions width height firstCell draws :
  (width <= 0 ->
   mazePrimsAlgorithm width height firstCell draws = Some (Threw TypeError)) /\
  (0 < width -> height < 0 ->
   mazePrimsAlgorithm width height firstCell draws = Some (Threw RangeError)) /\
  (0 < width < 2 ^ 32 -> height = 0 ->
   drawn width (x firstCell) -> drawn height (y firstCell) ->
   exists wallsL,
     mazePrimsAlgorithm width height firstCell draws
     = Some (Returned {| finalWallList := wallsL;
                         start := mkCoord 0 0; end_ := mkCoord 0 0 |})) /\
  (2 ^ 32 <= width ->
   mazePrimsAlgorithm width height firstCell draws = Some (Threw RangeError)) /\
  (0 < width -> 2 ^ 32 <= height ->
   mazePrimsAlgorithm width height firstCell draws = Some (Threw RangeError)).
Proof.
  change (2 ^ 32) with arrayLimit.
  split; [|split; [|split; [|split]]].
  - unfold mazePrimsAlgorithm, newGrid.
    intros Hw. destruct (Z.leb_spec width 0); [|lia]. simpl.
    destruct (Z.ltb_spec (x firstCell) 0); simpl; [reflexivity|].
    destruct (Z.leb_spec (Z.of_nat 0) (x firstCell)); [reflexivity|lia].
  - unfold mazePrimsAlgorithm, newGrid.
    intros Hw Hh. destruct (Z.leb_spec width 0); [lia|].
    destruct (arrayLimit <=? width); [reflexivity|].
    destruct (Z.ltb_spec height 0); [reflexivity|lia].
  - intros Hw Hh Hx Hy.
    exact (mazePrimsAlgorithm_no_rows width height firstCell draws Hw Hh Hx Hy).
  - unfold mazePrimsAlgorithm, newGrid.
    intros Hw. assert (0 < arrayLimit) by reflexivity.
    destruct (Z.leb_spec width 0); [lia|].
    destruct (Z.leb_spec arrayLimit width); [reflexivity|lia].
  - unfold mazePrimsAlgorithm, newGrid.
    intros Hw Hh. destruct (Z.leb_spec width 0); [lia|].
    destruct (arrayLimit <=? width); [reflexivity|].
    destruct (Z.leb_spec arrayLimit height); [|lia].
    rewrite orb_true_r. reflexivity.
Qed.

Lemma C9_non_positive_dimensions_witness :
  exists wallsL,
    mazePrimsAlgorithm 3 0 (mkCoord 0 0) []
    = Some (Returned {| finalWallList := wallsL;
                        start := mkCoord 0 0; end_ := mkCoord 0 0 |}).
Proof.
  apply (proj1 (proj2 (proj2 (C9_non_positive_dimensions 3 0 (mkCoord 0 0) [])))).
  - change (2 ^ 32) with 4294967296. lia.
  - reflexivity.
  - unfold drawn. simpl. lia.
  - unfold drawn. simpl. lia.
Defined.

(** *** Walls with no single passage around them *)

Section Sweep.

(** [p a b]: the cell in column [a], row [b] of a [W] x [H] grid is a
    passage.  No wall of the grid has exactly one passage around it. *)
Variables (p : Z -> Z -> bool) (W H : Z).
Hypothesis p_inside : forall a b, p a b = true -> 0 <= a < W /\ 0 <= b < H.
Hypothesis p_not_one :
  forall a b a1 a2 b1 b2,
    a1 = a - 1 -> a2 = a + 1 -> b1 = b - 1 -> b2 = b + 1 ->
    0 <= a < W -> 0 <= b < H -> p a b = false ->
    (Nat.b2n (p a1 b) + Nat.b2n (p a b2) + Nat.b2n (p a2 b) + Nat.b2n (p a b1)
     <> 1)%nat.

Lemma p_outside a b : ~ (0 <= a < W /\ 0 <= b < H) -> p a b = false.
Proof.
  intros Hn. destruct (p a b) eqn:Hp; [|reflexivity].
  apply p_inside in Hp. contradiction.
Qed.

Lemma push_down a b :
  0 <= b -> p a b = false ->
  p (a - 1) b = false -> p (a + 1) b = false -> p a (b - 1) = false ->
  p a (b + 1) = false.
Proof.
  intros Hb Hc Hl Hr Hu.
  destruct (decide (0 <= a < W /\ 0 <= b < H)) as [[Ha Hb']|Hout].
  - pose proof (p_not_one a b (a - 1) (a + 1) (b - 1) (b + 1)
                           eq_refl eq_refl eq_refl eq_refl Ha Hb' Hc) as Hn.
    rewrite Hl, Hr, Hu in Hn. destruct (p a (b + 1)); [|reflexivity].
    simpl in Hn. lia.
  - apply p_outside. lia.
Qed.

Lemma push_right a b :
  0 <= a -> p a b = false ->
  p a (b - 1) = false -> p a (b + 1) = false -> p (a - 1) b = false ->
  p (a + 1) b = false.
Proof.
  intros Ha Hc Hu Hd Hl.
  destruct (decide (0 <= a < W /\ 0 <= b < H)) as [[Ha' Hb]|Hout].
  - pose proof (p_not_one a b (a - 1) (a + 1) (b - 1) (b + 1)
                           eq_refl eq_refl eq_refl eq_refl Ha' Hb Hc) as Hn.
    rewrite Hl, Hd, Hu in Hn. destruct (p (a + 1) b); [|reflexivity].
    simpl in Hn. lia.
  - apply p_outside. lia.
Qed.

(** If the top row holds no passage, no row does. *)
Lemma sweep_rows : (forall a, p a 0 = false) -> forall a b, p a b = false.
Proof.
  intros Htop.
  assert (Hrows : forall n : nat, forall b, 0 <= b <= Z.of_nat n ->
                                            forall a, p a b = false).
  { induction n as [|n IH]; intros b Hb a.
    - assert (b = 0) as -> by lia. apply Htop.
    - destruct (decide (b <= Z.of_nat n)) as [Hle|Hgt]; [apply IH; lia|].
      assert (b = Z.of_nat n + 1) as -> by lia.
      apply push_down; try lia; try (apply IH; lia).
      destruct n as [|n]; [apply p_outside; lia|apply IH; lia]. }
  intros a b. destruct (decide (0 <= b)) as [Hb|Hb].
  - apply (Hrows (Z.to_nat b)). lia.
  - apply p_outside. lia.
Qed.

(** If the left column holds no passage, no column does. *)
Lemma sweep_columns : (forall b, p 0 b = false) -> forall a b, p a b = false.
Proof.
  intros Hleft.
  assert (Hcols : forall n : nat, forall a, 0 <= a <= Z.of_nat n ->
                                            forall b, p a b = false).
  { induction n as [|n IH]; intros a Ha b.
    - assert (a = 0) as -> by lia. apply Hleft.
    - destruct (decide (a <= Z.of_nat n)) as [Hle|Hgt]; [apply IH; lia|].
      assert (a = Z.of_nat n + 1) as -> by lia.
      apply push_right; try lia; try (apply IH; lia).
      destruct n as [|n]; [apply p_outside; lia|apply IH; lia]. }
  intros a b. destruct (decide (0 <= a)) as [Ha|Ha].
  - apply (Hcols (Z.to_nat a)). lia.
  - apply p_outside. lia.
Qed.

(** If the first [W] cells of the left column are walls, the walls
    spread over the triangle below the anti-diagonal, which holds the
    whole top row. *)
Lemma corner_triangle :
  (forall j, 0 <= j < W -> p 0 j = false) ->
  forall a, p a 0 = false.
Proof.
  intros Hleft.
  assert (Htri : forall n : nat, forall a, 0 <= a <= Z.of_nat n ->
                                           forall j, a + j <= W - 1 ->
                                                     p a j = false).
  { induction n as [|n IH]; intros a Ha j Hj.
    - assert (a = 0) as -> by lia.
      destruct (decide (0 <= j)); [apply Hleft; lia|apply p_outside; lia].
    - destruct (decide (a <= Z.of_nat n)) as [Hle|Hgt]; [apply IH; lia|].
      assert (a = Z.of_nat n + 1) as -> by lia.
      apply push_right; try lia; try (apply IH; lia).
      destruct n as [|n]; [apply p_outside; lia|apply IH; lia]. }
  intros a. destruct (decide (0 <= a < W)) as [Ha|Ha].
  - apply (Htri (Z.to_nat a)); lia.
  - apply p_outside. lia.
Qed.

(** A grid with a passage has one among the first [min W H] cells of
    its left column. *)
Lemma left_column_prefix :
  (forall j, 0 <= j < Z.min W H -> p 0 j = false) ->
  forall a b, p a b = false.
Proof.
  intros Hpre. destruct (decide (W <= H)) as [Hle|Hgt].
  - apply sweep_rows. apply corner_triangle.
    intros j Hj. apply Hpre. lia.
  - apply sweep_columns. intros b.
    destruct (decide (0 <= b < H)); [apply Hpre; lia|apply p_outside; lia].
Qed.

End Sweep.

(** The least index below [m] at which [f] holds, if there is one. *)
Lemma first_true (f : Z -> bool) (m : nat) :
  (exists i, 0 <= i < Z.of_nat m /\ f i = true /\
             forall k, 0 <= k < i -> f k = false) \/
  (forall i, 0 <= i < Z.of_nat m -> f i = false).
Proof.
  induction m as [|m IH]; [right; intros i Hi; lia|].
  destruct IH as [(i & Hi & Hf & Hmin)|Hnone].
  - left. exists i. split; [lia|auto].
  - destruct (f (Z.of_nat m)) eqn:Hm.
    + left. exists (Z.of_nat m). split; [lia|]. split; [exact Hm|exact Hnone].
    + right. intros i Hi.
      destruct (decide (i = Z.of_nat m)) as [->|Hne]; [exact Hm|].
      apply Hnone. lia.
Qed.

(** *** The two end-point scans *)

Section Scans.

Variables (height : Z) (g : list (list bool)).
Variables (iS iE : Z).

Let L := Z.of_nat (length g).

Hypothesis iS_first :
  0 <= iS /\ cell g (mkCoord 0 iS) = true /\
  forall k, 0 <= k < iS -> cell g (mkCoord 0 k) = false.
Hypothesis iE_first :
  0 <= iE /\ cell g (mkCoord (L - 1 - iE) (height - 1)) = true /\
  forall k, 0 <= k < iE -> cell g (mkCoord (L - 1 - k) (height - 1)) = false.

(** The loop of the code finds both first passages when its bound lies
    beyond them. *)
Lemma scanLoop_found (n : nat) :
  forall i st en sf ef,
    0 <= i -> iS < i + Z.of_nat n -> iE < i + Z.of_nat n ->
    (sf = true -> st = mkCoord 0 iS) -> (sf = false -> i <= iS) ->
    (ef = true -> en = mkCoord (L - 1 - iE) (height - 1)) ->
    (ef = false -> i <= iE) ->
    scanLoop height g n i st en sf ef
    = (mkCoord 0 iS, mkCoord (L - 1 - iE) (height - 1)).
Proof.
  destruct iS_first as (HS0 & HSt & HSmin).
  destruct iE_first as (HE0 & HEt & HEmin).
  induction n as [|n IH]; intros i st en sf ef Hi HnS HnE Hst Hsf Hen Hef.
  - simpl. destruct sf; [|specialize (Hsf eq_refl); lia].
    destruct ef; [|specialize (Hef eq_refl); lia].
    rewrite Hst, Hen; reflexivity.
  - simpl. destruct (sf && ef) eqn:Hboth; simpl.
    + apply andb_true_iff in Hboth as [-> ->]. rewrite Hst, Hen; reflexivity.
    + fold L.
      assert (HS' : exists st' sf',
                 (if cell g (mkCoord 0 i) && negb sf
                  then (mkCoord 0 i, true) else (st, sf)) = (st', sf') /\
                 (sf' = true -> st' = mkCoord 0 iS) /\
                 (sf' = false -> i + 1 <= iS)).
      { destruct sf; simpl.
        - rewrite andb_false_r. exists st, true. repeat split; auto; discriminate.
        - rewrite andb_true_r.
          destruct (decide (i = iS)) as [->|Hne].
          + rewrite HSt. exists (mkCoord 0 iS), true. repeat split; auto; discriminate.
          + rewrite HSmin by (specialize (Hsf eq_refl); lia).
            exists st, false. split; [reflexivity|].
            split; [discriminate|]. intros _. specialize (Hsf eq_refl). lia. }
      assert (HE' : exists en' ef',
                 (if cell g (mkCoord (L - 1 - i) (height - 1)) && negb ef
                  then (mkCoord (L - 1 - i) (height - 1), true) else (en, ef))
                 = (en', ef') /\
                 (ef' = true -> en' = mkCoord (L - 1 - iE) (height - 1)) /\
                 (ef' = false -> i + 1 <= iE)).
      { destruct ef; simpl.
        - rewrite andb_false_r. exists en, true. repeat split; auto; discriminate.
        - rewrite andb_true_r.
          destruct (decide (i = iE)) as [->|Hne].
          + rewrite HEt. exists (mkCoord (L - 1 - iE) (height - 1)), true.
            repeat split; auto; discriminate.
          + rewrite HEmin by (specialize (Hef eq_refl); lia).
            exists en, false. split; [reflexivity|].
            split; [discriminate|]. intros _. specialize (Hef eq_refl). lia. }
      destruct HS' as (st' & sf' & -> & Hst' & Hsf').
      destruct HE' as (en' & ef' & -> & Hen' & Hef').
      apply IH; auto; lia.
Qed.

End Scans.

Section SpecScan.

Variables (passage : Coord -> bool) (width height : Z).
Variables (iS iE : Z).

Hypothesis iS_first :
  0 <= iS /\ passage (mkCoord 0 iS) = true /\
  forall k, 0 <= k < iS -> passage (mkCoord 0 k) = false.
Hypothesis iE_first :
  0 <= iE /\ passage (mkCoord (width - 1 - iE) (height - 1)) = true /\
  forall k, 0 <= k < iE ->
            passage (mkCoord (width - 1 - k) (height - 1)) = false.

(** So does the scan of the specification. *)
Lemma lockstepScan_found (n : nat) :
  forall i st en,
    0 <= i -> iS < i + Z.of_nat n -> iE < i + Z.of_nat n ->
    (forall c, st = Some c -> c = mkCoord 0 iS) -> (st = None -> i <= iS) ->
    (forall c, en = Some c -> c = mkCoord (width - 1 - iE) (height - 1)) ->
    (en = None -> i <= iE) ->
    lockstepScan passage width height n i st en
    = (Some (mkCoord 0 iS), Some (mkCoord (width - 1 - iE) (height - 1))).
Proof.
  destruct iS_first as (HS0 & HSt & HSmin).
  destruct iE_first as (HE0 & HEt & HEmin).
  induction n as [|n IH]; intros i st en Hi HnS HnE Hst Hsn Hen Hnn.
  - simpl. destruct st as [c|]; [|specialize (Hsn eq_refl); lia].
    destruct en as [e|]; [|specialize (Hnn eq_refl); lia].
    rewrite (Hst c eq_refl), (Hen e eq_refl). reflexivity.
  - simpl.
    set (st' := match st with
                | Some s0 => Some s0
                | None => if passage (mkCoord 0 i) then Some (mkCoord 0 i) else None
                end).
    set (en' := match en with
                | Some e => Some e
                | None =>
                    if passage (mkCoord (width - 1 - i) (height - 1))
                    then Some (mkCoord (width - 1 - i) (height - 1)) else None
                end).
    assert (HS' : (forall c, st' = Some c -> c = mkCoord 0 iS) /\
                  (st' = None -> i + 1 <= iS)).
    { unfold st'. destruct st as [c0|]; [split; [auto|discriminate]|].
      specialize (Hsn eq_refl).
      destruct (decide (i = iS)) as [->|Hne].
      - rewrite HSt. split; [intros c Hc; congruence|discriminate].
      - rewrite HSmin by lia. split; [discriminate|intros _; lia]. }
    assert (HE' : (forall c, en' = Some c ->
                             c = mkCoord (width - 1 - iE) (height - 1)) /\
                  (en' = None -> i + 1 <= iE)).
    { unfold en'. destruct en as [e0|]; [split; [auto|discriminate]|].
      specialize (Hnn eq_refl).
      destruct (decide (i = iE)) as [->|Hne].
      - rewrite HEt. split; [intros c Hc; congruence|discriminate].
      - rewrite HEmin by lia. split; [discriminate|intros _; lia]. }
    destruct HS' as [HS1 HS2]. destruct HE' as [HE1 HE2].
    assert (Hrec : lockstepScan passage width height n (i + 1) st' en'
                   = (Some (mkCoord 0 iS),
                      Some (mkCoord (width - 1 - iE) (height - 1))))
      by (apply IH; auto; lia).
    destruct st as [c|]; [|exact Hrec].
    destruct en as [e|]; [|exact Hrec].
    rewrite (Hst c eq_refl), (Hen e eq_refl). reflexivity.
Qed.

End SpecScan.

(** *** End points of a generated maze *)

Lemma around_cells (g : list (list bool)) (a b : Z) :
  around g (mkCoord a b) =
  (Nat.b2n (cell g (mkCoord (a - 1) b)) + Nat.b2n (cell g (mkCoord a (b + 1))) +
   Nat.b2n (cell g (mkCoord (a + 1) b)) + Nat.b2n (cell g (mkCoord a (b - 1))))%nat.
Proof.
  unfold around, addCoord. simpl.
  replace (-1 + a) with (a - 1) by lia.
  replace (1 + a) with (a + 1) by lia.
  replace (1 + b) with (b + 1) by lia.
  replace (-1 + b) with (b - 1) by lia.
  destruct a, b; reflexivity.
Qed.

(** When the loop has ended, no wall has exactly one passage around it. *)
Lemma final_not_one width height firstCell (s : LoopState) :
  mazeInv width height firstCell s -> wallList s = [] ->
  forall a b a1 a2 b1 b2,
    a1 = a - 1 -> a2 = a + 1 -> b1 = b - 1 -> b2 = b + 1 ->
    0 <= a < width -> 0 <= b < height -> cell (grid s) (mkCoord a b) = false ->
    (Nat.b2n (cell (grid s) (mkCoord a1 b)) + Nat.b2n (cell (grid s) (mkCoord a b2)) +
     Nat.b2n (cell (grid s) (mkCoord a2 b)) + Nat.b2n (cell (grid s) (mkCoord a b1))
     <> 1)%nat.
Proof.
  intros [_ _ _ _ Hpend] Hempty a b a1 a2 b1 b2 -> -> -> -> Ha Hb Hwall Hone.
  rewrite <- around_cells in Hone.
  destruct (Hpend (mkCoord a b)) as [Hin|Htwo]; try assumption.
  - apply inGrid_spec. simpl. lia.
  - lia.
  - rewrite Hempty in Hin. destruct Hin.
  - lia.
Qed.

Lemma final_first_start width height firstCell (s : LoopState) :
  mazeInv width height firstCell s -> wallList s = [] ->
  exists iS,
    iS < Z.min width height /\
    0 <= iS /\ cell (grid s) (mkCoord 0 iS) = true /\
    forall k, 0 <= k < iS -> cell (grid s) (mkCoord 0 k) = false.
Proof.
  intros Hinv Hempty.
  destruct (first_true (fun i => cell (grid s) (mkCoord 0 i))
                       (Z.to_nat (Z.min width height)))
    as [(i & Hi & Ht & Hmin)|Hnone].
  - exists i. repeat split; auto; lia.
  - exfalso.
    pose proof (inv_seed _ _ _ _ Hinv) as Hseed.
    pose proof (left_column_prefix
                  (fun a b => cell (grid s) (mkCoord a b)) width height) as Hall.
    simpl in Hall.
    rewrite <- (coord_eta firstCell), Hall in Hseed; [discriminate| | |].
    + intros a b Hc.
      apply (wfGrid_cell_inGrid width height) in Hc; [|apply (inv_wf _ _ _ _ Hinv)].
      apply inGrid_spec in Hc. exact Hc.
    + apply (final_not_one width height firstCell s Hinv Hempty).
    + intros j Hj. apply Hnone. lia.
Qed.

Lemma final_first_end width height firstCell (s : LoopState) :
  mazeInv width height firstCell s -> wallList s = [] ->
  exists iE,
    iE < Z.min width height /\
    0 <= iE /\ cell (grid s) (mkCoord (width - 1 - iE) (height - 1)) = true /\
    forall k, 0 <= k < iE ->
              cell (grid s) (mkCoord (width - 1 - k) (height - 1)) = false.
Proof.
  intros Hinv Hempty.
  destruct (first_true
              (fun i => cell (grid s) (mkCoord (width - 1 - i) (height - 1)))
              (Z.to_nat (Z.min width height)))
    as [(i & Hi & Ht & Hmin)|Hnone].
  - exists i. repeat split; auto; lia.
  - exfalso.
    pose proof (inv_seed _ _ _ _ Hinv) as Hseed.
    pose proof (left_column_prefix
                  (fun a b => cell (grid s)
                                   (mkCoord (width - 1 - b) (height - 1 - a)))
                  height width) as Hall.
    simpl in Hall.
    specialize (fun H1 H2 H3 =>
                  Hall H1 H2 H3 (height - 1 - y firstCell) (width - 1 - x firstCell)).
    replace (width - 1 - (width - 1 - x firstCell)) with (x firstCell) in Hall by lia.
    replace (height - 1 - (height - 1 - y firstCell)) with (y firstCell) in Hall by lia.
    rewrite coord_eta in Hall. rewrite Hall in Hseed; [discriminate| | |].
    + intros a b Hc.
      apply (wfGrid_cell_inGrid width height) in Hc; [|apply (inv_wf _ _ _ _ Hinv)].
      apply inGrid_spec in Hc. simpl in Hc. lia.
    + intros a b a1 a2 b1 b2 -> -> -> -> Ha Hb Hwall.
      pose proof (final_not_one width height firstCell s Hinv Hempty
                    (width - 1 - b) (height - 1 - a)
                    (width - 1 - (b + 1)) (width - 1 - (b - 1))
                    (height - 1 - (a + 1)) (height - 1 - (a - 1))) as Hn.
      specialize (Hn ltac:(lia) ltac:(lia) ltac:(lia) ltac:(lia)
                     ltac:(lia) ltac:(lia) Hwall).
      lia.
    + intros j Hj. replace (height - 1 - 0) with (height - 1) by lia.
      apply Hnone. lia.
Qed.

(** On any grid, an end point that the scan does not find stays (0,0). *)
Lemma scanLoop_start_default height (g : list (list bool)) (n : nat) :
  (forall i, cell g (mkCoord 0 i) = false) ->
  forall i st en ef, fst (scanLoop height g n i st en false ef) = st.
Proof.
  intros Hnone. induction n as [|n IH]; intros i st en ef; simpl; [reflexivity|].
  rewrite Hnone. simpl.
  destruct (cell g _ && negb ef); apply IH.
Qed.

Lemma scanLoop_end_default height (g : list (list bool)) (n : nat) :
  (forall cx, cell g (mkCoord cx (height - 1)) = false) ->
  forall i st en sf, snd (scanLoop height g n i st en sf false) = en.
Proof.
  intros Hnone. induction n as [|n IH]; intros i st en sf; simpl; [reflexivity|].
  rewrite andb_false_r. simpl. rewrite Hnone. simpl.
  destruct (cell g _ && negb sf); apply IH.
Qed.

(** C2: the start and end of every generated maze are those of the
    lockstep scan of the specification (test (0,i) and
    (width-1-i, height-1) for i = 0, 1, ..., stop when both are found or
    i has run through the height, (0,0) for an end point not found); in
    particular start is the passage of column 0 with the least row.
    The loop of the code runs to [grid.length], the width, instead of
    the height: in a generated maze both end points are found before
    either bound, so the two scans return the same pair.  On any grid,
    the code leaves (0,0) for an end point whose line holds no passage. *)
Theorem C2_endpoints_lockstep_scan width height firstCell draws r :
  drawn width (x firstCell) -> drawn height (y firstCell) ->
  mazePrimsAlgorithm width height firstCell draws = Some (Returned r) ->
  let passage := isPassage width height (finalWallList r) in
  (start r, end_ r) = specEndpoints passage width height /\
  (forall y0, passage (mkCoord 0 y0) = true ->
              x (start r) = 0 /\ passage (start r) = true /\ y (start r) <= y0) /\
  (forall g, (forall i, cell g (mkCoord 0 i) = false) ->
             fst (findEndpoints height g) = mkCoord 0 0) /\
  (forall g, (forall cx, cell g (mkCoord cx (height - 1)) = false) ->
             snd (findEndpoints height g) = mkCoord 0 0).
Proof.
  intros Hx Hy H passage.
  destruct (returned_dimensions _ _ _ _ _ H) as [Hw Hh0].
  destruct (decide (height = 0)) as [Hz|Hnz].
  { destruct (mazePrimsAlgorithm_no_rows width height firstCell draws
                ltac:(apply returned_bounds in H; lia) Hz Hx Hy)
      as (wallsL & Hrun).
    rewrite Hrun in H. injection H as <-. subst height.
    split; [reflexivity|]. split.
    - intros y0 Hy0. unfold passage, isPassage in Hy0.
      destruct (inGrid width 0 (mkCoord 0 y0)) eqn:Hin; [|discriminate].
      apply inGrid_spec in Hin. lia.
    - split; intros g Hnone;
        [apply scanLoop_start_default|apply scanLoop_end_default]; exact Hnone. }
  assert (Hh : 0 < height) by lia.
  destruct (mazePrimsAlgorithm_returned _ _ _ _ _ Hw Hh Hx Hy H)
    as (s & Hreach & Hempty & Hin & Hr).
  pose proof (mazeInv_reachable width height firstCell s Hin Hreach) as Hinv.
  pose proof (inv_wf _ _ _ _ Hinv) as Hwf.
  assert (Hpass : forall c, passage c = cell (grid s) c).
  { intros c. unfold passage. rewrite Hr. simpl.
    apply isPassage_collectWalls; assumption. }
  destruct (final_first_start _ _ _ _ Hinv Hempty) as (iS & HSb & HS0 & HSt & HSmin).
  destruct (final_first_end _ _ _ _ Hinv Hempty) as (iE & HEb & HE0 & HEt & HEmin).
  assert (HL : Z.of_nat (length (grid s)) = width) by (destruct Hwf as [-> _]; lia).
  assert (Hcode : findEndpoints height (grid s)
                  = (mkCoord 0 iS, mkCoord (width - 1 - iE) (height - 1))).
  { unfold findEndpoints.
    rewrite (scanLoop_found height (grid s) iS iE); rewrite ?HL; auto; try lia;
      try discriminate. }
  assert (Hspec : specEndpoints passage width height
                  = (mkCoord 0 iS, mkCoord (width - 1 - iE) (height - 1))).
  { unfold specEndpoints.
    rewrite (lockstepScan_found passage width height iS iE); try reflexivity;
      try lia; try discriminate.
    - rewrite Hpass. repeat split; auto. intros k Hk. rewrite Hpass. auto.
    - rewrite Hpass. repeat split; auto. intros k Hk. rewrite Hpass. auto. }
  assert (Hstart : start r = mkCoord 0 iS) by (rewrite Hr, Hcode; reflexivity).
  assert (Hend : end_ r = mkCoord (width - 1 - iE) (height - 1))
    by (rewrite Hr, Hcode; reflexivity).
  split; [|split; [|split]].
  - rewrite Hspec, Hstart, Hend. reflexivity.
  - intros y0 Hy0. rewrite Hstart. simpl. split; [reflexivity|].
    split; [rewrite Hpass; exact HSt|].
    destruct (decide (iS <= y0)) as [Hle|Hgt]; [exact Hle|].
    rewrite Hpass in Hy0.
    assert (H0 : 0 <= y0).
    { apply (wfGrid_cell_inGrid width height _ _ Hwf) in Hy0.
      apply inGrid_spec in Hy0. simpl in Hy0. lia. }
    rewrite HSmin in Hy0 by lia. discriminate.
  - intros g Hnone. apply scanLoop_start_default. exact Hnone.
  - intros g Hnone. apply scanLoop_end_default. exact Hnone.
Qed.

(** The 3x3 maze grown from the centre with the first entry drawn each
    time: start (0,1), end (1,2). *)
Lemma C2_endpoints_lockstep_scan_witness :
  (mkCoord 0 1, mkCoord 1 2)
  = specEndpoints
      (isPassage 3 3 [mkCoord 0 0; mkCoord 0 2; mkCoord 2 0; mkCoord 2 2]) 3 3.
Proof.
  exact (proj1 (C2_endpoints_lockstep_scan 3 3 (mkCoord 1 1) (repeat 0%nat 12)
                  {| finalWallList :=
                       [mkCoord 0 0; mkCoord 0 2; mkCoord 2 0; mkCoord 2 2];
                     start := mkCoord 0 1; end_ := mkCoord 1 2 |}
                  ltac:(unfold drawn; simpl; lia) ltac:(unfold drawn; simpl; lia)
                  ltac:(vm_compute; reflexivity))).
Defined.

(** *** The generation loop ends *)

Lemma frontierWeight_app g l l' :
  frontierWeight g (l ++ l') = (frontierWeight g l + frontierWeight g l')%nat.
Proof. unfold frontierWeight. rewrite map_app, list_sum_app. reflexivity. Qed.

Lemma frontierWeight_delete g l k rw :
  l !! k = Some rw ->
  (frontierWeight g (delete k l) + (if cell g rw then 4 else 1))%nat
  = frontierWeight g l.
Proof.
  revert k. induction l as [|b l IH]; intros [|k] Hk; simpl in *; try discriminate.
  - injection Hk as ->. unfold frontierWeight. simpl. lia.
  - specialize (IH k Hk). unfold frontierWeight in *. simpl. lia.
Qed.

Lemma frontierWeight_walls g l :
  (forall c, In c l -> cell g c = false) -> frontierWeight g l = length l.
Proof.
  induction l as [|b l IH]; intros Hl; [reflexivity|].
  unfold frontierWeight in *. simpl. rewrite (Hl b) by (left; reflexivity).
  rewrite IH; [reflexivity|]. intros c Hc. apply Hl. right. exact Hc.
Qed.

Lemma frontierWeight_ext g g1 l :
  (forall c, cell g1 c = cell g c) -> frontierWeight g1 l = frontierWeight g l.
Proof.
  intros Hext. unfold frontierWeight. f_equal. apply map_ext.
  intros c. rewrite Hext. reflexivity.
Qed.

Lemma filter_length_lt {A} (f f' : A -> bool) (l : list A) (a : A) :
  (forall c, f' c = true -> f c = true) ->
  In a l -> f a = true -> f' a = false ->
  (length (List.filter f' l) < length (List.filter f l))%nat.
Proof.
  intros Himp Hin Hfa Hf'a.
  assert (Hle : forall l0, (length (List.filter f' l0) <= length (List.filter f l0))%nat).
  { induction l0 as [|b l0 IH]; simpl; [lia|].
    destruct (f' b) eqn:Hb; [rewrite (Himp b Hb); simpl; lia|].
    destruct (f b); simpl; lia. }
  induction l as [|b l IH]; [destruct Hin|]. simpl.
  destruct Hin as [->|Hin].
  - rewrite Hfa, Hf'a. simpl. specialize (Hle l). lia.
  - specialize (IH Hin). destruct (f' b) eqn:Hb; [rewrite (Himp b Hb); simpl; lia|].
    destruct (f b); simpl; lia.
Qed.

Lemma still_walls_at_most_three width height (g : list (list bool)) (rw : Coord) :
  wfGrid width height g -> around g rw = 1%nat ->
  (length (List.filter (fun c => negb (cell g c)) (getCells width height rw)) <= 3)%nat.
Proof.
  intros Hwf Hone.
  pose proof (filter_length (cell g) (getCells width height rw)) as Hsum.
  rewrite (count_around width height g rw Hwf), Hone in Hsum.
  assert (Hfour : (length (getCells width height rw) <= 4)%nat).
  { unfold getCells. etransitivity; [apply filter_length_le|].
    rewrite length_map. reflexivity. }
  lia.
Qed.

(** Every iteration lowers the pair (walls on the grid, weight of the
    frontier) in the lexicographic order. *)
Lemma loopStep_decreases width height firstCell (s s' : LoopState) :
  mazeInv width height firstCell s -> loopStep width height s s' ->
  (wallCells width height (grid s') < wallCells width height (grid s))%nat \/
  (wallCells width height (grid s') = wallCells width height (grid s) /\
   (frontierWeight (grid s') (wallList s') < frontierWeight (grid s) (wallList s))%nat).
Proof.
  intros Hinv (k & rw & Hk & ->).
  pose proof (inv_wf _ _ _ _ Hinv) as Hwf.
  assert (Hin : inGrid width height rw = true).
  { apply (inv_frontier _ _ _ _ Hinv). apply list_elem_of_In.
    eapply list_elem_of_lookup_2. exact Hk. }
  pose proof (frontierWeight_delete (grid s) _ _ _ Hk) as Hdel.
  destruct (Nat.eq_dec (around (grid s) rw) 1%nat) as [Hone|Hne].
  - rewrite loopBody_opened by assumption. simpl.
    pose proof (cell_setPassage width height (grid s) rw) as Hcell.
    specialize (fun c' => Hcell c' Hwf Hin).
    destruct (cell (grid s) rw) eqn:Hrw.
    + right.
      assert (Hext : forall c, cell (setPassage (grid s) rw) c = cell (grid s) c).
      { intros c. rewrite Hcell. destruct (sameCoord c rw) eqn:Hs.
        - apply sameCoord_eq in Hs. subst c. rewrite Hrw. reflexivity.
        - apply orb_false_r. }
      split.
      * unfold wallCells. f_equal. apply filter_ext. intros c. rewrite Hext.
        reflexivity.
      * rewrite (frontierWeight_ext _ _ _ Hext), frontierWeight_app.
        rewrite (frontierWeight_walls (grid s) (List.filter _ _)).
        -- pose proof (still_walls_at_most_three width height _ rw Hwf Hone). lia.
        -- intros c Hc. apply filter_In in Hc as [_ Hc].
           apply negb_true_iff in Hc. exact Hc.
    + left. unfold wallCells.
      apply filter_length_lt with (a := rw).
      * intros c Hc. rewrite Hcell in Hc. apply negb_true_iff in Hc.
        apply orb_false_iff in Hc as [-> _]. reflexivity.
      * apply allCells_In. apply inGrid_spec in Hin. exact Hin.
      * rewrite Hrw. reflexivity.
      * rewrite Hcell, sameCoord_refl, orb_true_r. reflexivity.
  - rewrite loopBody_kept by assumption. simpl. right. split; [reflexivity|].
    destruct (cell (grid s) rw); lia.
Qed.

(** No infinite sequence of iterations starts in a state of the loop. *)
Lemma loopStep_Acc width height firstCell :
  forall (n m : nat) (s : LoopState),
    mazeInv width height firstCell s ->
    (wallCells width height (grid s) <= n)%nat ->
    (frontierWeight (grid s) (wallList s) <= m)%nat ->
    Acc (fun s' s0 => loopStep width height s0 s') s.
Proof.
  induction n as [n IHn] using lt_wf_ind.
  induction m as [m IHm] using lt_wf_ind.
  intros s Hinv Hn Hm. constructor. intros s' Hstep.
  assert (Hinv' : mazeInv width height firstCell s').
  { destruct Hstep as (k & rw & Hk & ->). apply mazeInv_step; assumption. }
  destruct (loopStep_decreases _ _ _ _ _ Hinv Hstep) as [Hlt|[Heq Hlt]].
  - apply (IHn (wallCells width height (grid s')) ltac:(lia)
               (frontierWeight (grid s') (wallList s'))); auto.
  - apply (IHm (frontierWeight (grid s') (wallList s')) ltac:(lia)); auto. lia.
Qed.

(** From every state of the loop some sequence of draws takes the loop
    to its exit, and the generator returns a maze for every pair of
    positive dimensions and every seed on the grid. *)
Lemma generationLoop_returns width height firstCell (s : LoopState) :
  mazeInv width height firstCell s ->
  exists draws s', generationLoop width height draws s = Some s'.
Proof.
  intros Hinv.
  pose proof (loopStep_Acc width height firstCell _ _ s Hinv (le_n _) (le_n _))
    as Hacc.
  induction Hacc as [s _ IH].
  destruct (wallList s) as [|c l] eqn:Hw.
  - exists [], s. simpl. rewrite Hw. reflexivity.
  - destruct (IH (loopBody width height s 0 c)) as (draws & s' & Hrun).
    + exists 0%nat, c. rewrite Hw. auto.
    + apply mazeInv_step; [exact Hinv|]. rewrite Hw. reflexivity.
    + exists (0%nat :: draws), s'. simpl. rewrite Hw. simpl. exact Hrun.
Qed.

Lemma mazePrimsAlgorithm_returns width height firstCell :
  0 < width < arrayLimit -> 0 < height < arrayLimit ->
  drawn width (x firstCell) -> drawn height (y firstCell) ->
  exists draws r,
    mazePrimsAlgorithm width height firstCell draws = Some (Returned r).
Proof.
  intros [Hw Hwl] [Hh Hhl] [Hx _] [Hy _]. specialize (Hx Hw). specialize (Hy Hh).
  assert (Hin : inGrid width height firstCell = true) by (apply inGrid_spec; lia).
  destruct (generationLoop_returns width height firstCell _
              (mazeInv_init width height firstCell Hin)) as (draws & s & Hrun).
  exists draws. unfold mazePrimsAlgorithm, newGrid.
  destruct (Z.leb_spec width 0); [lia|].
  destruct (Z.leb_spec arrayLimit width); [lia|].
  destruct (Z.ltb_spec height 0); [lia|].
  destruct (Z.leb_spec arrayLimit height); [lia|]. simpl orb. cbv iota.
  rewrite length_replicate.
  destruct (Z.ltb_spec (x firstCell) 0); [lia|].
  destruct (Z.leb_spec (Z.of_nat (Z.to_nat width)) (x firstCell)); [lia|].
  simpl. rewrite Hrun.
  destruct (findEndpoints height (grid s)) as [st en]. eexists. reflexivity.
Qed.

End MazeProofs.

(** * Further properties of the search *)

Module SearchProperties.
Import PathFinder.
Import Routes.
Import PathFinderProofs.

(** *** Routes *)

Lemma validPath_snoc w h wallsL diag (l : list Coord) (b : Coord) :
  validPath w h wallsL diag (l ++ [b]) =
  validPath w h wallsL diag l &&
  match last l with
  | Some a => validStep w h wallsL diag a b
  | None => true
  end.
Proof.
  induction l as [|a l IH]; [reflexivity|].
  destruct l as [|a' l].
  - simpl. rewrite andb_true_r. reflexivity.
  - change (validPath w h wallsL diag ((a :: a' :: l) ++ [b]))
      with (validStep w h wallsL diag a a' &&
            validPath w h wallsL diag ((a' :: l) ++ [b])).
    rewrite IH. change (last (a :: a' :: l)) with (last (a' :: l)).
    simpl. rewrite andb_assoc. reflexivity.
Qed.

Lemma pathCost_snoc (l : list Coord) (b : Coord) :
  pathCost (l ++ [b]) =
  pathCost l + match last l with
               | Some a => moveCost a b
               | None => 0
               end.
Proof.
  induction l as [|a l IH]; [reflexivity|].
  destruct l as [|a' l].
  - simpl. lia.
  - change (pathCost ((a :: a' :: l) ++ [b]))
      with (moveCost a a' + pathCost ((a' :: l) ++ [b])).
    rewrite IH. change (last (a :: a' :: l)) with (last (a' :: l)).
    simpl. lia.
Qed.

Lemma tracePath_head (n : Node) : head (tracePath n) = Some (coord n).
Proof. destruct n as [c g hc p]. simpl. rewrite coord_eta. reflexivity. Qed.

Lemma last_rev {A} (l : list A) : last (rev l) = head l.
Proof.
  destruct l as [|a l]; [reflexivity|]. simpl. apply last_snoc.
Qed.

Lemma head_rev {A} (l : list A) : head (rev l) = last l.
Proof. rewrite <- (rev_involutive l) at 2. rewrite last_rev. reflexivity. Qed.

Lemma tracePath_updated endC diag (cur : Node) (nb : Coord) :
  tracePath (updatedNeighbor endC diag cur nb) = nb :: tracePath cur.
Proof. simpl. rewrite coord_eta. reflexivity. Qed.

Lemma validStep_spec w h wallsL diag (a b : Coord) :
  validStep w h wallsL diag a b = true <->
  (exists d, In d (directions diag) /\ b = addCoord d a) /\
  (0 <= x b < w /\ 0 <= y b < h) /\ ~ In b wallsL.
Proof.
  unfold validStep. rewrite !andb_true_iff, negb_true_iff, existsb_exists.
  rewrite withinBounds_spec, <- not_true_iff_false, isWallTile_spec.
  split.
  - intros [[(d & Hd & Hs) Hb] Hw]. apply sameCoord_eq in Hs.
    repeat split; try tauto; try lia. exists d. auto.
  - intros [(d & Hd & ->) [Hb Hw]]. repeat split; try tauto; try lia.
    exists d. split; [exact Hd|apply sameCoord_refl].
Qed.

Lemma validStep_neighbor w h wallsL diag (cur : Node) closedL (nb : Coord) :
  In nb (getValidNeighbors w h wallsL diag cur closedL) ->
  validStep w h wallsL diag cur nb = true.
Proof.
  intros H. apply getValidNeighbors_spec in H as (Hd & Hb & Hw & _).
  apply validStep_spec. auto.
Qed.

Lemma rooted_seed w h wallsL (st : MapState) :
  rooted w h wallsL (diagonalMovement st) (start st) (seedNode st).
Proof.
  split; simpl; try reflexivity. rewrite coord_eta. reflexivity.
Qed.

Lemma rooted_updated w h wallsL endC diag startC (cur : Node) closedL (nb : Coord) :
  rooted w h wallsL diag startC cur ->
  In nb (getValidNeighbors w h wallsL diag cur closedL) ->
  rooted w h wallsL diag startC (updatedNeighbor endC diag cur nb).
Proof.
  intros [Hs Hr Hc] Hnb.
  assert (Hlast : last (rev (tracePath cur)) = Some (coord cur))
    by (rewrite last_rev; apply tracePath_head).
  split; rewrite tracePath_updated.
  - destruct (tracePath cur) eqn:Ht; [discriminate Hs|]. exact Hs.
  - simpl. rewrite validPath_snoc, Hr, Hlast. simpl.
    eapply validStep_neighbor; eauto.
  - simpl. rewrite pathCost_snoc, Hlast, <- Hc. reflexivity.
Qed.

(** *** The loop as a sequence of iterations *)

Lemma runsTo_front w h wallsL endC diag (c c1 c2 : Config) :
  iteration w h wallsL endC diag c = Some c1 ->
  runsTo w h wallsL endC diag c1 c2 ->
  runsTo w h wallsL endC diag c c2.
Proof.
  intros Hit Hrun. induction Hrun as [|c2 c3 _ IH Hstep].
  - eapply runs_on; [apply runs_here|exact Hit].
  - eapply runs_on; [exact IH|exact Hstep].
Qed.

(** The loop returns from a configuration it has reached: either the
    open set is empty there, or the node to expand is [end]. *)
Lemma searchLoop_exit w h wallsL endC diag (fuel : nat) :
  forall openL closedL count shown closedL' count' shown',
    searchLoop w h wallsL endC diag fuel openL closedL count shown
    = Some (closedL', count', shown') ->
    exists c,
      runsTo w h wallsL endC diag (mkConfig openL closedL count) c /\
      cfgCount c = count' /\
      ((cfgOpen c = [] /\ closedL' = cfgClosed c) \/
       (exists cur, nextNode c = Some cur /\ sameCoord cur endC = true /\
                    closedL' = cfgClosed c ++ [cur])).
Proof.
  induction fuel as [|fuel IH]; intros openL closedL count shown
    closedL' count' shown' Hrun.
  - destruct openL; simpl in Hrun; [|discriminate].
    injection Hrun as <- <- <-.
    exists (mkConfig [] closedL count). split; [apply runs_here|]. auto.
  - destruct openL as [|first rest].
    { rewrite searchLoop_nil in Hrun. injection Hrun as <- <- <-.
      exists (mkConfig [] closedL count). split; [apply runs_here|]. auto. }
    rewrite searchLoop_cons in Hrun. cbv zeta in Hrun.
    destruct (sameCoord (leastFCost first rest) endC) eqn:Hend.
    + injection Hrun as <- <- <-.
      exists (mkConfig (first :: rest) closedL count).
      split; [apply runs_here|]. split; [reflexivity|].
      right. exists (leastFCost first rest). auto.
    + apply IH in Hrun as (c & Hc & Hcount & Hexit).
      exists c. split; [|auto].
      eapply runsTo_front; [|exact Hc].
      unfold iteration. simpl. rewrite Hend. reflexivity.
Qed.

(** *** What the iterations keep *)

Lemma find_filter_keep {A} (p q : A -> bool) (l : list A) :
  (forall a, p a = true -> q a = true) ->
  List.find p (List.filter q l) = List.find p l.
Proof.
  intros Himp. induction l as [|a l IH]; [reflexivity|]. simpl.
  destruct (p a) eqn:Hp.
  - rewrite (Himp a Hp). simpl. rewrite Hp. reflexivity.
  - destruct (q a); simpl; [rewrite Hp|]; exact IH.
Qed.

Lemma entry_popped (cur : Node) (b : Coord) (l : list Node) :
  b <> coord cur -> entry b (popped cur l) = entry b l.
Proof.
  intros Hne. unfold entry, popped. apply find_filter_keep.
  intros a Ha. apply sameCoord_eq in Ha. apply negb_true_iff.
  apply sameCoord_neq. congruence.
Qed.

Lemma isClosedNode_app (b : Coord) (l l' : list Node) :
  isClosedNode b (l ++ l') = isClosedNode b l || isClosedNode b l'.
Proof. unfold isClosedNode. apply existsb_app. Qed.

Lemma isClosedNode_self (n : Node) : isClosedNode n [n] = true.
Proof. apply isClosedNode_spec. exists n. split; [left|]; reflexivity. Qed.

Lemma entry_In (b : Coord) (l : list Node) :
  entry b l <> None <-> exists n : Node, In n l /\ coord n = b.
Proof.
  unfold entry. split.
  - destruct (List.find _ l) as [n|] eqn:Hf; [intros _|congruence].
    apply find_some in Hf as [Hin Hs]. apply sameCoord_eq in Hs. eauto.
  - intros (n & Hin & <-) Hnone.
    pose proof (find_none _ _ Hnone n Hin) as Hs. simpl in Hs.
    rewrite (sameCoord_refl (coord n)) in Hs. discriminate.
Qed.

(** *** The heuristic stored with the nodes *)

(** A coordinate that is closed or open when an iteration begins is
    closed or open when the loop is left, and the count only grows. *)
Lemma searchLoop_keeps w h wallsL endC diag (fuel : nat) :
  forall openL closedL count closedL' count' shown',
    searchLoop w h wallsL endC diag fuel openL closedL count openL
    = Some (closedL', count', shown') ->
    (count <= count')%nat /\
    forall b : Coord,
      isClosedNode b closedL = true \/ entry b openL <> None ->
      isClosedNode b closedL' = true \/ entry b shown' <> None.
Proof.
  induction fuel as [|fuel IH]; intros openL closedL count closedL' count' shown' Hrun.
  - destruct openL; simpl in Hrun; [|discriminate].
    injection Hrun as <- <- <-. auto.
  - destruct openL as [|first rest].
    { rewrite searchLoop_nil in Hrun. injection Hrun as <- <- <-. auto. }
    rewrite searchLoop_cons in Hrun. cbv zeta in Hrun.
    set (cur := leastFCost first rest) in *.
    destruct (sameCoord cur endC).
    + injection Hrun as <- <- <-. split; [lia|].
      intros b [Hb|Hb]; [left|right; exact Hb].
      rewrite isClosedNode_app, Hb. reflexivity.
    + apply IH in Hrun as [Hcount Hkeep]. split; [lia|].
      intros b Hb. apply Hkeep. clear Hkeep.
      destruct Hb as [Hb|Hb].
      { left. rewrite isClosedNode_app, Hb. reflexivity. }
      destruct (decide (b = coord cur)) as [->|Hne].
      { left. rewrite isClosedNode_app, isClosedNode_self. apply orb_true_r. }
      right.
      destruct (in_dec Coord_eq_dec b
                  (getValidNeighbors w h wallsL diag cur (closedL ++ [cur])))
        as [Hin|Hout].
      * rewrite (relaxAll_entry_neighbor _ _ _ _
                   (getValidNeighbors_NoDup _ _ _ _ _ _) _ _ Hin).
        discriminate.
      * rewrite relaxAll_entry_other by exact Hout.
        rewrite entry_popped by exact Hne. exact Hb.
Qed.

(** C5: D = 10 and D2 = round (sqrt (10^2 + 10^2)) = 14; the heuristic
    is the Diagonal formula when diagonal movement is on and the
    Manhattan formula when it is off (the search takes no separate
    heuristic setting); every node the search leaves in the closed or
    in the open set carries that value as its hCost; the node the loop
    stores for a neighbour, when the neighbour is not open yet or is
    open at a cost not below the new one, has that value as its hCost,
    and otherwise the open node is kept; and a search whose start is
    not its end stores such a node for every neighbour of start: it is
    found, with that hCost, among the closed or the open nodes the
    search leaves. *)
Theorem C5_heuristic_follows_diagonal_flag :
  D = 10 /\
  (D2 = roundSqrt (10 ^ 2 + 10 ^ 2) /\ D2 = 14 /\
   (2 * D2 - 1) ^ 2 < 4 * (10 ^ 2 + 10 ^ 2) < (2 * D2 + 1) ^ 2) /\
  (forall (endC : Coord) (diag : bool) (c : Coord),
      let dx := Z.abs (x c - x endC) in
      let dy := Z.abs (y c - y endC) in
      heuristic endC diag c =
      if diag then D * (dx + dy) + (D2 - 2 * D) * Z.min dx dy
      else D * (dx + dy)) /\
  (forall st : MapState,
      exists st',
        startPathFind st = Some st' /\
        forall n : Node,
          In n (closedNodes st') \/ In n (openNodes st') ->
          hCost n = heuristic (end_ st) (diagonalMovement st) n) /\
  (forall w h wallsL (endC : Coord) (diag : bool) (cur : Node)
          (closedL openL : list Node) (nb : Coord),
      In nb (getValidNeighbors w h wallsL diag cur closedL) ->
      let dx := Z.abs (x nb - x endC) in
      let dy := Z.abs (y nb - y endC) in
      let stored :=
        entry nb (relaxAll endC diag cur
                           (getValidNeighbors w h wallsL diag cur closedL) openL) in
      (forall old, entry nb openL = Some old ->
                   gCost old < gCost cur + stepCost cur nb ->
                   stored = Some old) /\
      (entry nb openL = None \/
       (exists old, entry nb openL = Some old /\
                    gCost cur + stepCost cur nb <= gCost old) ->
       exists n : Node,
         stored = Some n /\ coord n = nb /\ parent n = Some cur /\
         hCost n = if diag then D * (dx + dy) + (D2 - 2 * D) * Z.min dx dy
                   else D * (dx + dy))) /\
  (forall st : MapState,
      start st <> end_ st ->
      exists st',
        startPathFind st = Some st' /\
        (1 <= iterations st')%nat /\
        forall nb : Coord,
          In nb (getValidNeighbors (width st) (height st) (walls st)
                                   (diagonalMovement st) (seedNode st)
                                   [seedNode st]) ->
          let dx := Z.abs (x nb - x (end_ st)) in
          let dy := Z.abs (y nb - y (end_ st)) in
          exists n : Node,
            (In n (closedNodes st') \/ In n (openNodes st')) /\
            coord n = nb /\
            hCost n = if diagonalMovement st
                      then D * (dx + dy) + (D2 - 2 * D) * Z.min dx dy
                      else D * (dx + dy)).
Proof.
  split; [reflexivity|]. split; [repeat split; reflexivity|].
  split; [intros endC [] c; reflexivity|].
  assert (Hleft : forall st st',
             startPathFind st = Some st' ->
             forall n : Node,
               In n (closedNodes st') \/ In n (openNodes st') ->
               hCost n = heuristic (end_ st) (diagonalMovement st) n).
  { intros st st' Hst'. unfold startPathFind, startPathFindWith in Hst'.
    destruct (searchLoop _ _ _ _ _ _ _ _ _ _) as [[[closedL count] shown]|] eqn:Hrun;
      [|discriminate].
    apply (searchLoop_Forall _ _ _ _ _ _ (heuristic_new_node _ _ _ _ _)) in Hrun
      as [Hc Hs].
    - injection Hst' as <-. simpl.
      rewrite List.Forall_forall in Hc, Hs.
      intros n [Hn|Hn]; [|auto].
      destruct count; [destruct Hn|auto].
    - constructor; [|constructor]. simpl. rewrite coord_eta. reflexivity.
    - constructor.
    - constructor. }
  split; [|split].
  - intros st. destruct (startPathFind_total st) as [st' Hst'].
    exists st'. split; [exact Hst'|]. exact (Hleft st st' Hst').
  - intros w h wallsL endC diag cur closedL openL nb Hnb dx dy stored.
    unfold stored.
    rewrite (relaxAll_entry_neighbor _ _ _ _
               (getValidNeighbors_NoDup _ _ _ _ _ _) _ _ Hnb).
    assert (Hnew : coord (updatedNeighbor endC diag cur nb) = nb /\
                   parent (updatedNeighbor endC diag cur nb) = Some cur /\
                   hCost (updatedNeighbor endC diag cur nb)
                   = if diag then D * (dx + dy) + (D2 - 2 * D) * Z.min dx dy
                     else D * (dx + dy)).
    { simpl. rewrite coord_eta. split; [reflexivity|]. split; [reflexivity|].
      destruct diag; reflexivity. }
    split.
    + intros old -> Hlt.
      destruct (Z.leb_spec (gCost cur + stepCost cur nb) (gCost old)); [lia|].
      reflexivity.
    + intros [->|(old & -> & Hle)]; [eauto|].
      destruct (Z.leb_spec (gCost cur + stepCost cur nb) (gCost old)); [eauto|lia].
  - intros st Hne. destruct (startPathFind_total st) as [st' Hst'].
    exists st'. split; [exact Hst'|].
    pose proof (Hleft st st' Hst') as Hh.
    unfold startPathFind, startPathFindWith in Hst'. cbv zeta in Hst'.
    fold (seedNode st) in Hst'.
    unfold searchFuel in Hst'. rewrite searchLoop_cons in Hst'. cbv zeta in Hst'.
    change (leastFCost (seedNode st) []) with (seedNode st) in Hst'.
    assert (Hs : sameCoord (seedNode st) (end_ st) = false).
    { apply sameCoord_neq. simpl. rewrite coord_eta. exact Hne. }
    rewrite Hs in Hst'.
    destruct (searchLoop _ _ _ _ _ _ _ _ _ _) as [[[closedL count] shown]|] eqn:Hrun;
      [|discriminate].
    apply searchLoop_keeps in Hrun as [Hcount Hkeep].
    injection Hst' as <-. simpl in *.
    split; [exact Hcount|].
    intros nb Hnb.
    destruct (Hkeep nb) as [Hc|Ho].
    { right. rewrite (relaxAll_entry_neighbor _ _ _ _
                        (getValidNeighbors_NoDup _ _ _ _ _ _) _ _ Hnb).
      discriminate. }
    + apply isClosedNode_spec in Hc as (n & Hn & Hxy).
      destruct count as [|count]; [lia|].
      exists n. split; [left; exact Hn|]. split; [exact Hxy|].
      rewrite (Hh n (or_introl Hn)), Hxy.
      destruct (diagonalMovement st); reflexivity.
    + apply entry_In in Ho as (n & Hn & Hxy).
      exists n. split; [right; exact Hn|]. split; [exact Hxy|].
      rewrite (Hh n (or_intror Hn)), Hxy.
      destruct (diagonalMovement st); reflexivity.
Qed.

(** On the empty 5x5 grid from (0,0) to (4,4): the neighbour (1,1) of
    start is stored with hCost 42 when diagonal movement is on. *)
Lemma C5_heuristic_follows_diagonal_flag_witness :
  let st := {| width := 5; height := 5;
               start := mkCoord 0 0; end_ := mkCoord 4 4;
               walls := []; openNodes := []; closedNodes := []; nodePath := [];
               diagonalMovement := true; iterations := 0; distance := 0 |} in
  start st <> end_ st /\
  exists st' (n : Node),
    startPathFind st = Some st' /\
    (In n (closedNodes st') \/ In n (openNodes st')) /\
    coord n = mkCoord 1 1 /\ hCost n = 42.
Proof.
  intros st. split; [discriminate|].
  destruct C5_heuristic_follows_diagonal_flag as (_ & _ & _ & _ & _ & H).
  destruct (H st ltac:(discriminate)) as (st' & Hrun & _ & Hnb).
  destruct (Hnb (mkCoord 1 1)) as (n & Hin & Hc & Hh).
  - vm_compute. tauto.
  - exists st', n. auto.
Defined.

Section Iterations.

Variables (w h : Z) (wallsL : list Coord) (endC : Coord) (diag : bool).
Variable startC : Coord.

Lemma iteration_inv (c1 c2 : Config) :
  iteration w h wallsL endC diag c1 = Some c2 ->
  exists first rest,
    cfgOpen c1 = first :: rest /\
    sameCoord (leastFCost first rest) endC = false /\
    c2 = {| cfgOpen :=
              relaxAll endC diag (leastFCost first rest)
                (getValidNeighbors w h wallsL diag (leastFCost first rest)
                                   (cfgClosed c1 ++ [leastFCost first rest]))
                (popped (leastFCost first rest) (first :: rest));
            cfgClosed := cfgClosed c1 ++ [leastFCost first rest];
            cfgCount := S (cfgCount c1) |}.
Proof.
  unfold iteration, nextNode. intros H.
  destruct (cfgOpen c1) as [|first rest]; [discriminate|].
  destruct (sameCoord (leastFCost first rest) endC) eqn:He; [discriminate|].
  injection H as <-. exists first, rest. auto.
Qed.

Lemma iteration_searchInv (c1 c2 : Config) :
  iteration w h wallsL endC diag c1 = Some c2 ->
  searchInv w h startC (cfgOpen c1) (cfgClosed c1) ->
  searchInv w h startC (cfgOpen c2) (cfgClosed c2).
Proof.
  intros Hit Hinv. apply iteration_inv in Hit as (first & rest & Ho & _ & ->).
  simpl. rewrite Ho in Hinv. apply searchInv_step. exact Hinv.
Qed.

Lemma iteration_count (c1 c2 : Config) :
  iteration w h wallsL endC diag c1 = Some c2 ->
  cfgCount c1 = length (cfgClosed c1) ->
  cfgCount c2 = length (cfgClosed c2).
Proof.
  intros Hit Hc. apply iteration_inv in Hit as (first & rest & _ & _ & ->).
  simpl. rewrite length_app. simpl. lia.
Qed.

Lemma iteration_Forall (P : Node -> Prop) (c1 c2 : Config) :
  (forall (cur : Node) closedL nb,
      P cur -> In nb (getValidNeighbors w h wallsL diag cur closedL) ->
      P (updatedNeighbor endC diag cur nb)) ->
  iteration w h wallsL endC diag c1 = Some c2 ->
  Forall P (cfgOpen c1) /\ Forall P (cfgClosed c1) ->
  Forall P (cfgOpen c2) /\ Forall P (cfgClosed c2).
Proof.
  intros Hnew Hit [Ho Hc].
  apply iteration_inv in Hit as (first & rest & Hopen & _ & ->).
  cbn [cfgOpen cfgClosed].
  rewrite Hopen in Ho.
  assert (Hcur : P (leastFCost first rest)).
  { rewrite List.Forall_forall in Ho. apply Ho. apply leastFCost_In. }
  split.
  - rewrite List.Forall_forall. intros n Hn.
    apply relaxAll_In in Hn as [Hn|(nb & Hnb & ->)].
    + apply filter_In in Hn as [Hn _].
      rewrite List.Forall_forall in Ho. apply Ho. exact Hn.
    + eapply Hnew; eauto.
  - apply Forall_app. split; [exact Hc|]. constructor; [exact Hcur|constructor].
Qed.

Lemma iteration_frontierInv (c1 c2 : Config) :
  iteration w h wallsL endC diag c1 = Some c2 ->
  frontierInv w h wallsL diag startC c1 ->
  frontierInv w h wallsL diag startC c2.
Proof.
  intros Hit [Hstart Hmoves].
  apply iteration_inv in Hit as (first & rest & Hopen & _ & ->).
  set (cur := leastFCost first rest) in *.
  set (closed2 := cfgClosed c1 ++ [cur]).
  set (nbs := getValidNeighbors w h wallsL diag cur closed2).
  assert (Hnd : List.NoDup nbs) by apply getValidNeighbors_NoDup.
  assert (Hclosed : forall b, isClosedNode b (cfgClosed c1) = true ->
                              isClosedNode b closed2 = true).
  { intros b Hb. unfold closed2. rewrite isClosedNode_app, Hb. reflexivity. }
  assert (Hkeep : forall b, entry b (popped cur (first :: rest)) <> None ->
                            entry b (relaxAll endC diag cur nbs
                                              (popped cur (first :: rest)))
                            <> None).
  { intros b Hb. destruct (in_dec Coord_eq_dec b nbs) as [Hin|Hnin].
    - rewrite (relaxAll_entry_neighbor endC diag cur nbs Hnd _ b Hin). discriminate.
    - rewrite relaxAll_entry_other by exact Hnin. exact Hb. }
  assert (Hopen2 : forall b, entry b (cfgOpen c1) <> None ->
                             isClosedNode b closed2 = true \/
                             entry b (relaxAll endC diag cur nbs
                                               (popped cur (first :: rest)))
                             <> None).
  { intros b Hb. destruct (decide (b = coord cur)) as [->|Hne].
    - left. unfold closed2. rewrite isClosedNode_app, isClosedNode_self.
      apply orb_true_r.
    - right. apply Hkeep. rewrite entry_popped by exact Hne.
      rewrite <- Hopen. exact Hb. }
  split; cbn [cfgOpen cfgClosed]; fold cur; fold closed2; fold nbs.
  - destruct Hstart as [Hs|Hs]; [left; auto|auto].
  - intros a b Ha Hstep. apply in_app_or in Ha as [Ha|[<-|[]]].
    + destruct (Hmoves a b Ha Hstep) as [Hb|Hb]; [left; auto|auto].
    + destruct (isClosedNode b closed2) eqn:Hcl; [left; reflexivity|right].
      assert (Hin : In b nbs).
      { apply getValidNeighbors_spec. apply validStep_spec in Hstep.
        destruct Hstep as (Hd & Hb & Hw). repeat split; try tauto.
        intros Hex. apply isClosedNode_spec in Hex. congruence. }
      rewrite (relaxAll_entry_neighbor endC diag cur nbs Hnd _ b Hin).
      discriminate.
Qed.

End Iterations.

(** The invariants hold in every configuration the search reaches. *)
Lemma search_invariants (st : MapState) (c : Config) :
  runsTo (width st) (height st) (walls st) (end_ st) (diagonalMovement st)
         (mkConfig [seedNode st] [] 0) c ->
  searchInv (width st) (height st) (start st) (cfgOpen c) (cfgClosed c) /\
  cfgCount c = length (cfgClosed c) /\
  (Forall (rooted (width st) (height st) (walls st) (diagonalMovement st) (start st))
          (cfgOpen c) /\
   Forall (rooted (width st) (height st) (walls st) (diagonalMovement st) (start st))
          (cfgClosed c)) /\
  frontierInv (width st) (height st) (walls st) (diagonalMovement st) (start st) c.
Proof.
  intros Hrun. induction Hrun as [|c1 c2 _ IH Hit].
  - split; [|split; [|split]].
    + split; simpl.
      * intros n m _ [].
      * constructor.
      * intros n [<-|[]]. left. simpl. apply coord_eta.
      * intros n [].
    + reflexivity.
    + split; [|constructor]. constructor; [apply rooted_seed|constructor].
    + split; simpl.
      * right. unfold entry. simpl. rewrite coord_eta, sameCoord_refl. discriminate.
      * intros a b [].
  - destruct IH as (H1 & H2 & H3 & H4). split; [|split; [|split]].
    + eapply iteration_searchInv; eauto.
    + eapply iteration_count; eauto.
    + eapply iteration_Forall; eauto. intros cur closedL nb.
      apply rooted_updated.
    + eapply iteration_frontierInv; eauto.
Qed.

(** What a run of [startPathFind] leaves, in terms of the configuration
    the loop was left from. *)
Lemma startPathFind_outcome (st : MapState) :
  exists st' closedL c,
    startPathFind st = Some st' /\
    runsTo (width st) (height st) (walls st) (end_ st) (diagonalMovement st)
           (mkConfig [seedNode st] [] 0) c /\
    ((cfgOpen c = [] /\ closedL = cfgClosed c) \/
     (exists cur, nextNode c = Some cur /\ sameCoord cur (end_ st) = true /\
                  closedL = cfgClosed c ++ [cur])) /\
    iterations st' = cfgCount c /\
    closedNodes st' = match cfgCount c with O => [] | S _ => closedL end /\
    nodePath st' =
      rev (match List.find (fun node : Node => sameCoord node (end_ st)) closedL with
           | Some n => tracePath n
           | None => []
           end) /\
    distance st' =
      match List.find (fun node : Node => sameCoord node (end_ st)) closedL with
      | Some n => gCost n
      | None => distance st
      end.
Proof.
  pose proof (startPathFind_total st) as Htot.
  unfold startPathFind, startPathFindWith in *. cbv zeta in *.
  fold (seedNode st) in *.
  destruct (searchLoop _ _ _ _ _ _ _ _ _ _) as [[[closedL count] shown]|] eqn:Hrun;
    [|destruct Htot as [? Hn]; discriminate Hn].
  apply searchLoop_exit in Hrun as (c & Hc & Hcount & Hexit).
  eexists _, closedL, c. split; [reflexivity|]. simpl.
  rewrite Hcount. repeat split; auto.
Qed.

(** The nodes closed when the loop is left: each has a route back to
    [start], no coordinate occurs twice, and there are at most as many
    as the grid has cells, plus one for [start]. *)
Lemma exit_closed (st : MapState) (c : Config) (closedL : list Node) :
  runsTo (width st) (height st) (walls st) (end_ st) (diagonalMovement st)
         (mkConfig [seedNode st] [] 0) c ->
  ((cfgOpen c = [] /\ closedL = cfgClosed c) \/
   (exists cur, nextNode c = Some cur /\ sameCoord cur (end_ st) = true /\
                closedL = cfgClosed c ++ [cur])) ->
  Forall (rooted (width st) (height st) (walls st) (diagonalMovement st) (start st))
         closedL /\
  List.NoDup (List.map coord closedL) /\
  (length closedL <= S (Z.to_nat (width st) * Z.to_nat (height st)))%nat /\
  (cfgCount c <= length closedL)%nat.
Proof.
  intros Hrun Hexit.
  destruct (search_invariants st c Hrun) as (Hinv & Hcount & [Hro Hrc] & _).
  destruct Hexit as [[Hnil ->]|(cur & Hnext & _ & ->)].
  - split; [exact Hrc|]. split; [apply (inv_nodup _ _ _ _ _ Hinv)|].
    split; [eapply searchInv_closed_length; exact Hinv|lia].
  - unfold nextNode in Hnext.
    destruct (cfgOpen c) as [|first rest] eqn:Ho; [discriminate|].
    injection Hnext as <-.
    pose proof (leastFCost_In first rest) as Hcur.
    assert (Hinv2 : searchInv (width st) (height st) (start st) []
                              (cfgClosed c ++ [leastFCost first rest])).
    { destruct Hinv as [Hd Hnd Hoc Hcc]. split.
      - intros n m [].
      - rewrite map_app. simpl. apply NoDup_snoc; [|exact Hnd].
        intros Hin. apply in_map_iff in Hin as (m & Heq & Hm).
        exact (Hd _ m Hcur Hm (eq_sym Heq)).
      - intros n [].
      - intros n Hn. apply in_app_or in Hn as [Hn|[<-|[]]]; auto. }
    split.
    + apply Forall_app. split; [exact Hrc|].
      constructor; [|constructor].
      rewrite List.Forall_forall in Hro. apply Hro. exact Hcur.
    + split; [apply (inv_nodup _ _ _ _ _ Hinv2)|].
      split; [eapply searchInv_closed_length; exact Hinv2|].
      rewrite length_app. simpl. lia.
Qed.

Lemma rooted_end w h wallsL diag startC (n : Node) :
  rooted w h wallsL diag startC n ->
  coord n = startC \/
  ((0 <= x n < w /\ 0 <= y n < h) /\ ~ In (coord n) wallsL).
Proof.
  intros [Hs Hr _]. destruct n as [c g hc [p|]]; simpl in *.
  - right. rewrite coord_eta in Hr.
    rewrite validPath_snoc, last_rev, tracePath_head in Hr.
    apply andb_true_iff in Hr as [_ Hr].
    apply validStep_spec in Hr. tauto.
  - left. rewrite coord_eta in Hs. congruence.
Qed.

(** X1: a path the search returns runs from [start] to [end], and each
    of its coordinates is one enabled move (straight, or diagonal when
    diagonal movement is on) away from the one before, on the grid and
    not on a wall. *)
Theorem returned_path_is_a_route (st : MapState) :
  exists st',
    startPathFind st = Some st' /\
    (nodePath st' <> [] ->
     head (nodePath st') = Some (start st) /\
     last (nodePath st') = Some (end_ st) /\
     validPath (width st) (height st) (walls st) (diagonalMovement st)
               (nodePath st') = true).
Proof.
  destruct (startPathFind_outcome st)
    as (st' & closedL & c & Hst' & Hrun & Hexit & _ & _ & Hpath & _).
  exists st'. split; [exact Hst'|]. intros Hne. rewrite Hpath in *.
  destruct (exit_closed st c closedL Hrun Hexit) as (Hrooted & _).
  destruct (List.find _ closedL) as [n|] eqn:Hf; [|contradiction Hne; reflexivity].
  apply find_some in Hf as [Hin Hend]. apply sameCoord_eq in Hend.
  rewrite List.Forall_forall in Hrooted.
  destruct (Hrooted n Hin) as [Hs Hr _].
  rewrite head_rev, last_rev, tracePath_head. rewrite Hend. auto.
Qed.

Lemma pathCost_bounds (l : list Coord) :
  l <> [] ->
  10 * (Z.of_nat (length l) - 1) <= pathCost l <= 14 * (Z.of_nat (length l) - 1).
Proof.
  destruct l as [|a l]; [congruence|]. intros _.
  revert a. induction l as [|b l IH]; intros a; [simpl; lia|].
  change (pathCost (a :: b :: l)) with (moveCost a b + pathCost (b :: l)).
  assert (Hm : 10 <= moveCost a b <= 14).
  { unfold moveCost. change D2 with 14. change D with 10.
    destruct (_ && _); lia. }
  specialize (IH b). simpl length in *. lia.
Qed.

(** X2: the distance left by a search that found a path is the cost of
    that path, 10 for each straight move and 14 for each diagonal one;
    a path of [k] coordinates costs between 10 (k-1) and 14 (k-1). *)
Theorem distance_is_path_cost (st : MapState) :
  exists st',
    startPathFind st = Some st' /\
    (nodePath st' <> [] ->
     distance st' = pathCost (nodePath st') /\
     10 * (Z.of_nat (length (nodePath st')) - 1) <= distance st'
     <= 14 * (Z.of_nat (length (nodePath st')) - 1)).
Proof.
  destruct (startPathFind_outcome st)
    as (st' & closedL & c & Hst' & Hrun & Hexit & _ & _ & Hpath & Hdist).
  exists st'. split; [exact Hst'|]. intros Hne. rewrite Hpath in *.
  destruct (exit_closed st c closedL Hrun Hexit) as (Hrooted & _).
  destruct (List.find _ closedL) as [n|] eqn:Hf; [|contradiction Hne; reflexivity].
  apply find_some in Hf as [Hin _].
  rewrite List.Forall_forall in Hrooted.
  destruct (Hrooted n Hin) as [_ _ Hc]. rewrite Hdist, Hc.
  split; [reflexivity|].
  apply pathCost_bounds. exact Hne.
Qed.

(** *** Completeness *)

Lemma reachable_front w h wallsL diag (a b c : Coord) :
  validStep w h wallsL diag a b = true ->
  reachableFrom w h wallsL diag b c ->
  reachableFrom w h wallsL diag a c.
Proof.
  intros Hab Hbc. induction Hbc as [|c d _ IH Hcd].
  - eapply reachable_move; [apply reachable_here|exact Hab].
  - eapply reachable_move; [exact IH|exact Hcd].
Qed.

Lemma validPath_reachable w h wallsL diag (l : list Coord) :
  forall a b,
    validPath w h wallsL diag l = true ->
    head l = Some a -> last l = Some b ->
    reachableFrom w h wallsL diag a b.
Proof.
  induction l as [|a0 l IH]; intros a b Hv Hh Hl; [discriminate|].
  simpl in Hh. injection Hh as ->.
  destruct l as [|a1 l].
  - simpl in Hl. injection Hl as ->. apply reachable_here.
  - simpl in Hv. apply andb_true_iff in Hv as [Hstep Hv].
    eapply reachable_front; [exact Hstep|].
    apply IH; [exact Hv|reflexivity|exact Hl].
Qed.

(** When the loop is left, [end] is among the closed nodes as soon as
    moves lead from [start] to it. *)
Lemma exit_reaches_end (st : MapState) (c : Config) (closedL : list Node) :
  runsTo (width st) (height st) (walls st) (end_ st) (diagonalMovement st)
         (mkConfig [seedNode st] [] 0) c ->
  ((cfgOpen c = [] /\ closedL = cfgClosed c) \/
   (exists cur, nextNode c = Some cur /\ sameCoord cur (end_ st) = true /\
                closedL = cfgClosed c ++ [cur])) ->
  reachableFrom (width st) (height st) (walls st) (diagonalMovement st)
                (start st) (end_ st) ->
  isClosedNode (end_ st) closedL = true.
Proof.
  intros Hrun Hexit Hreach.
  destruct (search_invariants st c Hrun) as (_ & _ & _ & [Hstart Hmoves]).
  destruct Hexit as [[Hnil ->]|(cur & _ & Hend & ->)].
  - rewrite Hnil in *.
    assert (Hall : forall e,
               reachableFrom (width st) (height st) (walls st)
                             (diagonalMovement st) (start st) e ->
               isClosedNode e (cfgClosed c) = true); [|auto].
    intros e He. induction He as [|b d _ IH Hstep].
    + destruct Hstart as [Hs|Hs]; [exact Hs|]. exfalso. apply Hs. reflexivity.
    + apply isClosedNode_spec in IH as (n & Hn & Hb).
      rewrite <- Hb in Hstep.
      destruct (Hmoves n d Hn Hstep) as [Hd|Hd]; [exact Hd|].
      exfalso. apply Hd. reflexivity.
  - apply sameCoord_eq in Hend. rewrite isClosedNode_app, <- Hend.
    rewrite isClosedNode_self. apply orb_true_r.
Qed.

(** X3: the search returns a path exactly when moves lead from [start]
    to [end] over cells of the grid that are not walls. *)
Theorem path_found_iff_reachable (st : MapState) :
  exists st',
    startPathFind st = Some st' /\
    (nodePath st' <> [] <->
     reachableFrom (width st) (height st) (walls st) (diagonalMovement st)
                   (start st) (end_ st)).
Proof.
  destruct (startPathFind_outcome st)
    as (st' & closedL & c & Hst' & Hrun & Hexit & _ & _ & Hpath & _).
  exists st'. split; [exact Hst'|]. rewrite Hpath.
  destruct (exit_closed st c closedL Hrun Hexit) as (Hrooted & _).
  split.
  - intros Hne.
    destruct (List.find _ closedL) as [n|] eqn:Hf; [|contradiction Hne; reflexivity].
    apply find_some in Hf as [Hin Hend]. apply sameCoord_eq in Hend.
    rewrite List.Forall_forall in Hrooted.
    destruct (Hrooted n Hin) as [Hs Hr _].
    apply (validPath_reachable _ _ _ _ (rev (tracePath n))); [exact Hr| |].
    + rewrite head_rev. exact Hs.
    + rewrite last_rev, tracePath_head, Hend. reflexivity.
  - intros Hreach.
    pose proof (exit_reaches_end st c closedL Hrun Hexit Hreach) as Hcl.
    apply isClosedNode_spec in Hcl as (n & Hn & Hend).
    destruct (List.find _ closedL) as [m|] eqn:Hf.
    + destruct (tracePath m) eqn:Ht; [destruct m; discriminate Ht|].
      simpl. intros Hnil. apply app_eq_nil in Hnil as [_ Hnil]. discriminate.
    + pose proof (find_none _ _ Hf n Hn) as Hs. simpl in Hs.
      rewrite Hend, sameCoord_refl in Hs. discriminate.
Qed.

(** *** Bounds and edge cases *)

(** X4: the loop expands at most one node per cell of the grid, plus
    one for [start]: the iteration count never exceeds
    width * height + 1, no coordinate is closed twice, and every closed
    node other than [start] lies on the grid and is not a wall. *)
Theorem search_closes_each_cell_once (st : MapState) :
  exists st',
    startPathFind st = Some st' /\
    (iterations st' <= S (Z.to_nat (width st) * Z.to_nat (height st)))%nat /\
    List.NoDup (List.map coord (closedNodes st')) /\
    forall n : Node,
      In n (closedNodes st') ->
      coord n = start st \/
      ((0 <= x n < width st /\ 0 <= y n < height st) /\ ~ In (coord n) (walls st)).
Proof.
  destruct (startPathFind_outcome st)
    as (st' & closedL & c & Hst' & Hrun & Hexit & Hit & Hcl & _).
  exists st'. split; [exact Hst'|].
  destruct (exit_closed st c closedL Hrun Hexit) as (Hrooted & Hnd & Hlen & Hcount).
  rewrite Hit, Hcl. split; [lia|].
  destruct (cfgCount c) as [|k]; [split; [constructor|intros n []]|].
  split; [exact Hnd|]. intros n Hn.
  rewrite List.Forall_forall in Hrooted.
  eapply rooted_end. apply Hrooted. exact Hn.
Qed.

(** X5: when [end] is [start] the search stops in its first iteration:
    the path is [start] alone, at distance 0 with 0 iterations,
    whatever the walls and even when [start] is a wall or off the grid. *)
Theorem search_from_end (st : MapState) :
  end_ st = start st ->
  exists st',
    startPathFind st = Some st' /\
    nodePath st' = [start st] /\ distance st' = 0 /\ iterations st' = 0%nat /\
    closedNodes st' = [] /\ openNodes st' = [].
Proof.
  intros Heq. unfold startPathFind, startPathFindWith, searchFuel.
  cbv zeta. rewrite searchLoop_cons. cbv zeta.
  assert (Hend : sameCoord
                   (leastFCost
                      {| coord := {| x := x (start st); y := y (start st) |};
                         gCost := 0;
                         hCost := heuristic (end_ st) (diagonalMovement st) (start st);
                         parent := None |} []) (end_ st) = true).
  { apply sameCoord_eq. simpl. rewrite coord_eta. congruence. }
  rewrite Hend. eexists. split; [reflexivity|]. simpl.
  unfold leastFCost in *. simpl in *. rewrite Hend. simpl.
  rewrite coord_eta. auto.
Qed.

Lemma search_from_end_witness :
  exists st',
    startPathFind
      {| width := 3; height := 3; start := mkCoord 1 1; end_ := mkCoord 1 1;
         walls := [mkCoord 1 1]; openNodes := []; closedNodes := [];
         nodePath := []; diagonalMovement := true;
         iterations := 7; distance := 40 |} = Some st' /\
    nodePath st' = [mkCoord 1 1] /\ distance st' = 0 /\ iterations st' = 0%nat /\
    closedNodes st' = [] /\ openNodes st' = [].
Proof. apply search_from_end. reflexivity. Defined.

(** X6: an [end] that is a wall or lies off the grid is never reached
    unless it is [start] itself: the path comes back empty and the
    distance keeps the value it had. *)
Theorem end_on_wall_or_off_grid (st : MapState) :
  end_ st <> start st ->
  In (end_ st) (walls st) \/
  withinBounds (width st) (height st) (end_ st) = false ->
  exists st',
    startPathFind st = Some st' /\
    nodePath st' = [] /\ distance st' = distance st.
Proof.
  intros Hne Hbad.
  destruct (startPathFind_outcome st)
    as (st' & closedL & c & Hst' & Hrun & Hexit & _ & _ & Hpath & Hdist).
  exists st'. split; [exact Hst'|]. rewrite Hpath, Hdist.
  destruct (exit_closed st c closedL Hrun Hexit) as (Hrooted & _).
  destruct (List.find _ closedL) as [n|] eqn:Hf; [|auto].
  exfalso. apply find_some in Hf as [Hin Hend]. apply sameCoord_eq in Hend.
  rewrite List.Forall_forall in Hrooted.
  destruct (rooted_end _ _ _ _ _ n (Hrooted n Hin)) as [Hs|[Hb Hw]].
  - congruence.
  - rewrite Hend in *. destruct Hbad as [Hwall|Hout]; [contradiction|].
    apply not_true_iff_false in Hout. apply Hout.
    apply withinBounds_spec. exact Hb.
Qed.

Lemma end_on_wall_or_off_grid_witness :
  exists st',
    startPathFind
      {| width := 3; height := 3; start := mkCoord 0 0; end_ := mkCoord 1 1;
         walls := [mkCoord 1 1]; openNodes := []; closedNodes := [];
         nodePath := []; diagonalMovement := true;
         iterations := 2; distance := 28 |} = Some st' /\
    nodePath st' = [] /\ distance st' = 28.
Proof.
  apply end_on_wall_or_off_grid; simpl.
  - discriminate.
  - left. left. reflexivity.
Defined.

(** *** The heuristic *)

Lemma heuristic_step endC diag (a d : Coord) :
  In d (directions diag) ->
  heuristic endC diag a
  <= moveCost a (addCoord d a) + heuristic endC diag (addCoord d a).
Proof.
  intros Hd. unfold heuristic, getDiagonalDistance, getManhattanDistance,
               moveCost, addCoord, directions, straight, diagonal in *.
  change D2 with 14. change D with 10.
  destruct a as [ax ay], endC as [ex ey]. simpl.
  destruct diag; simpl in Hd;
    repeat (destruct Hd as [<-|Hd]; [simpl;
      repeat match goal with
             | |- context [?u =? ?v] => destruct (Z.eqb_spec u v); try lia
             end; simpl; lia|]); destruct Hd.
Qed.

(** X7: the estimate used by the search is 0 at [end], never negative,
    never drops by more than the cost of a move along that move, and so
    never exceeds the cost of a route to [end] made of the moves the
    search can make (Manhattan without diagonal moves, the diagonal
    formula with them). *)
Theorem heuristic_admissible w h wallsL endC diag :
  heuristic endC diag endC = 0 /\
  (forall a, 0 <= heuristic endC diag a) /\
  (forall a b, validStep w h wallsL diag a b = true ->
               heuristic endC diag a <= moveCost a b + heuristic endC diag b) /\
  (forall l a, validPath w h wallsL diag l = true ->
               head l = Some a -> last l = Some endC ->
               heuristic endC diag a <= pathCost l).
Proof.
  assert (Hzero : heuristic endC diag endC = 0).
  { unfold heuristic, getDiagonalDistance, getManhattanDistance.
    change D2 with 14. change D with 10. destruct diag; lia. }
  assert (Hstep : forall a b, validStep w h wallsL diag a b = true ->
                              heuristic endC diag a
                              <= moveCost a b + heuristic endC diag b).
  { intros a b Hv. apply validStep_spec in Hv as ((d & Hd & ->) & _).
    apply heuristic_step. exact Hd. }
  split; [exact Hzero|]. split; [|split; [exact Hstep|]].
  - intros a. unfold heuristic, getDiagonalDistance, getManhattanDistance.
    change D2 with 14. change D with 10. destruct diag; lia.
  - induction l as [|a0 l IH]; intros a Hv Hh Hl; [discriminate|].
    simpl in Hh. injection Hh as ->.
    destruct l as [|a1 l].
    + simpl in Hl. injection Hl as ->. rewrite Hzero. simpl. lia.
    + change (pathCost (a :: a1 :: l)) with (moveCost a a1 + pathCost (a1 :: l)).
      simpl in Hv. apply andb_true_iff in Hv as [Hs Hv].
      specialize (IH a1 Hv eq_refl Hl). specialize (Hstep a a1 Hs). lia.
Qed.

(** *** The returned path is a shortest one *)

Lemma heuristic_along w h wallsL endC diag (l : list Coord) :
  forall a b,
    validPath w h wallsL diag l = true ->
    head l = Some a -> last l = Some b ->
    heuristic endC diag a <= pathCost l + heuristic endC diag b.
Proof.
  induction l as [|a0 l IH]; intros a b Hv Hh Hl; [discriminate|].
  simpl in Hh. injection Hh as ->.
  destruct l as [|a1 l].
  - simpl in Hl. injection Hl as ->. simpl. lia.
  - change (pathCost (a :: a1 :: l)) with (moveCost a a1 + pathCost (a1 :: l)).
    simpl in Hv. apply andb_true_iff in Hv as [Hs Hv].
    specialize (IH a1 b Hv eq_refl Hl).
    apply validStep_spec in Hs as ((d & Hd & ->) & _).
    pose proof (heuristic_step endC diag a d Hd). lia.
Qed.

Lemma leastFCost_le first rest (n : Node) :
  In n (first :: rest) -> fCost (leastFCost first rest) <= fCost n.
Proof.
  induction rest as [|z rest IH] using rev_ind.
  - intros [<-|[]]. reflexivity.
  - rewrite leastFCost_snoc. unfold pickMin.
    change (first :: rest ++ [z]) with ((first :: rest) ++ [z]).
    intros Hin. apply in_app_or in Hin as [Hin|[<-|[]]];
      destruct (Z.leb_spec (fCost z) (fCost (leastFCost first rest)));
      try specialize (IH Hin); lia.
Qed.

Lemma entry_Some_In (b : Coord) (l : list Node) (m : Node) :
  entry b l = Some m -> In m l /\ coord m = b.
Proof.
  unfold entry. intros H. apply find_some in H as [Hin Hs].
  apply sameCoord_eq in Hs. auto.
Qed.

Section Shortest.

Variables (w h : Z) (wallsL : list Coord) (endC : Coord) (diag : bool).
Variable startC : Coord.

(** A route from [startC] to a coordinate that is not closed passes
    through an open entry whose gCost is at most the cost of the route
    up to there. *)
Lemma route_meets_open (c : Config) :
  shortestInv w h wallsL diag startC c ->
  forall (l p : list Coord) (a v : Coord),
    validPath w h wallsL diag p = true ->
    head p = Some startC -> last p = Some a ->
    (isClosedNode a (cfgClosed c) = true \/
     exists m, entry a (cfgOpen c) = Some m /\ gCost m <= pathCost p) ->
    validPath w h wallsL diag l = true ->
    head l = Some a -> last l = Some v ->
    isClosedNode v (cfgClosed c) = false ->
    exists (u : Coord) (m : Node) (l' : list Coord),
      entry u (cfgOpen c) = Some m /\
      validPath w h wallsL diag l' = true /\
      head l' = Some u /\ last l' = Some v /\
      gCost m + pathCost l' <= pathCost p + pathCost l.
Proof.
  intros [Hclosed _ Hmoves].
  induction l as [|a0 l IH]; intros p a v Hp Hph Hpl Hknown Hl Hlh Hll Hv;
    [discriminate|].
  simpl in Hlh. injection Hlh as ->.
  destruct Hknown as [Hcl|(m & Hm & Hg)].
  - destruct l as [|b rest].
    + simpl in Hll. injection Hll as ->. congruence.
    + simpl in Hl. apply andb_true_iff in Hl as [Hstep Hl].
      apply isClosedNode_spec in Hcl as (na & Hna & Ha).
      assert (Hgna : gCost na <= pathCost p).
      { apply Hclosed; auto. rewrite Ha. exact Hpl. }
      assert (Hp' : validPath w h wallsL diag (p ++ [b]) = true)
        by (rewrite validPath_snoc, Hp, Hpl; exact Hstep).
      assert (Hcost : pathCost (p ++ [b]) = pathCost p + moveCost a b)
        by (rewrite pathCost_snoc, Hpl; reflexivity).
      destruct (IH (p ++ [b]) b v) as (u & m & l' & Hu & Hl' & Hh' & Hlast & Hle);
        auto.
      * destruct p; [discriminate|]. exact Hph.
      * apply last_snoc.
      * rewrite <- Ha in Hstep.
        destruct (Hmoves na b Hna Hstep) as [Hb|(m & Hm & Hg)]; [left; exact Hb|].
        right. exists m. split; [exact Hm|]. rewrite Hcost, <- Ha.
        rewrite Ha in Hg |- *. lia.
      * exists u, m, l'. repeat split; auto.
        change (pathCost (a :: b :: rest))
          with (moveCost a b + pathCost (b :: rest)). lia.
  - exists a, m, (a :: l). repeat split; auto. lia.
Qed.

(** The node of least fCost is closed at the cost of a shortest route. *)
Lemma expanded_is_shortest (c : Config) (first : Node) (rest : list Node) :
  shortestInv w h wallsL diag startC c ->
  searchInv w h startC (cfgOpen c) (cfgClosed c) ->
  Forall (fun n : Node => hCost n = heuristic endC diag n) (cfgOpen c) ->
  cfgOpen c = first :: rest ->
  forall l,
    validPath w h wallsL diag l = true ->
    head l = Some startC -> last l = Some (coord (leastFCost first rest)) ->
    gCost (leastFCost first rest) <= pathCost l.
Proof.
  intros Hs Hinv Hh Hopen l Hl Hlh Hll.
  set (cur := leastFCost first rest) in *.
  assert (Hcur : In cur (cfgOpen c)) by (rewrite Hopen; apply leastFCost_In).
  assert (Hncl : isClosedNode cur (cfgClosed c) = false).
  { apply not_true_iff_false. intros Hcl.
    apply isClosedNode_spec in Hcl as (m & Hm & Heq).
    exact (inv_disjoint _ _ _ _ _ Hinv cur m Hcur Hm (eq_sym Heq)). }
  destruct (route_meets_open c Hs l [startC] startC cur)
    as (u & m & l' & Hu & Hl' & Hh' & Hlast & Hle); auto.
  { destruct (short_start _ _ _ _ _ _ Hs) as [H0|(m & Hm & Hg)]; [left; exact H0|].
    right. exists m. split; [exact Hm|]. simpl. exact Hg. }
  apply entry_Some_In in Hu as [Hmin Hmu].
  rewrite List.Forall_forall in Hh.
  pose proof (Hh m Hmin) as Hhm. pose proof (Hh cur Hcur) as Hhc.
  assert (Hf : fCost cur <= fCost m).
  { apply leastFCost_le. rewrite <- Hopen. exact Hmin. }
  unfold fCost in Hf. rewrite Hhm, Hhc, Hmu in Hf.
  pose proof (heuristic_along w h wallsL endC diag l' u cur Hl' Hh' Hlast).
  simpl in Hle. lia.
Qed.

Lemma iteration_shortestInv (c1 c2 : Config) :
  iteration w h wallsL endC diag c1 = Some c2 ->
  searchInv w h startC (cfgOpen c1) (cfgClosed c1) ->
  Forall (fun n : Node => hCost n = heuristic endC diag n) (cfgOpen c1) ->
  shortestInv w h wallsL diag startC c1 ->
  shortestInv w h wallsL diag startC c2.
Proof.
  intros Hit Hinv Hh Hs.
  pose proof Hit as Hit'.
  apply iteration_inv in Hit' as (first & rest & Hopen & _ & ->).
  pose proof (expanded_is_shortest c1 first rest Hs Hinv Hh Hopen) as Hcur.
  destruct Hs as [Hclosed Hstart Hmoves].
  set (cur := leastFCost first rest) in *.
  set (closed2 := cfgClosed c1 ++ [cur]).
  set (nbs := getValidNeighbors w h wallsL diag cur closed2).
  assert (Hnd : List.NoDup nbs) by apply getValidNeighbors_NoDup.
  assert (Hup : forall b, isClosedNode b (cfgClosed c1) = true ->
                          isClosedNode b closed2 = true).
  { intros b Hb. unfold closed2. rewrite isClosedNode_app, Hb. reflexivity. }
  assert (Hopen2 : forall b m bound,
             entry b (cfgOpen c1) = Some m -> gCost m <= bound ->
             isClosedNode b closed2 = true \/
             exists m', entry b (relaxAll endC diag cur nbs
                                          (popped cur (first :: rest))) = Some m' /\
                        gCost m' <= bound).
  { intros b m bound Hb Hg. destruct (decide (b = coord cur)) as [->|Hne].
    - left. unfold closed2. rewrite isClosedNode_app, isClosedNode_self.
      apply orb_true_r.
    - right. rewrite Hopen in Hb. rewrite <- (entry_popped cur b) in Hb by exact Hne.
      destruct (in_dec Coord_eq_dec b nbs) as [Hin|Hnin].
      + rewrite (relaxAll_entry_neighbor endC diag cur nbs Hnd _ b Hin), Hb.
        eexists. split; [reflexivity|].
        destruct (Z.leb_spec (gCost cur + stepCost cur b) (gCost m)); simpl; lia.
      + rewrite relaxAll_entry_other by exact Hnin. eauto. }
  split; cbn [cfgOpen cfgClosed]; fold cur; fold closed2; fold nbs.
  - intros n l Hn. apply in_app_or in Hn as [Hn|[<-|[]]]; [eauto|apply Hcur].
  - destruct Hstart as [H0|(m & Hm & Hg)]; [left; auto|].
    eapply Hopen2; eauto.
  - intros a b Ha Hstep. apply in_app_or in Ha as [Ha|[<-|[]]].
    + destruct (Hmoves a b Ha Hstep) as [Hb|(m & Hm & Hg)]; [left; auto|].
      eapply Hopen2; eauto.
    + destruct (isClosedNode b closed2) eqn:Hcl; [left; reflexivity|right].
      assert (Hin : In b nbs).
      { apply getValidNeighbors_spec. apply validStep_spec in Hstep.
        destruct Hstep as (Hd & Hb & Hw). repeat split; try tauto.
        intros Hex. apply isClosedNode_spec in Hex. congruence. }
      rewrite (relaxAll_entry_neighbor endC diag cur nbs Hnd _ b Hin).
      eexists. split; [reflexivity|].
      change (moveCost cur b) with (stepCost cur b).
      destruct (entry b (popped cur (first :: rest))) as [old|]; simpl; [|lia].
      destruct (Z.leb_spec (gCost cur + stepCost cur b) (gCost old)); simpl; lia.
Qed.

End Shortest.

Lemma search_shortest (st : MapState) (c : Config) :
  runsTo (width st) (height st) (walls st) (end_ st) (diagonalMovement st)
         (mkConfig [seedNode st] [] 0) c ->
  Forall (fun n : Node => hCost n = heuristic (end_ st) (diagonalMovement st) n)
         (cfgOpen c) /\
  Forall (fun n : Node => hCost n = heuristic (end_ st) (diagonalMovement st) n)
         (cfgClosed c) /\
  shortestInv (width st) (height st) (walls st) (diagonalMovement st) (start st) c.
Proof.
  intros Hrun. induction Hrun as [|c1 c2 Hrun1 IH Hit].
  - split; [|split].
    + constructor; [|constructor]. simpl. rewrite coord_eta. reflexivity.
    + constructor.
    + split; simpl.
      * intros n l [].
      * right. exists (seedNode st). split; [|simpl; lia].
        unfold entry. simpl. rewrite coord_eta, sameCoord_refl. reflexivity.
      * intros a b [].
  - destruct IH as (Ho & Hc & Hs).
    destruct (search_invariants st c1 Hrun1) as (Hinv & _).
    destruct (iteration_Forall _ _ _ _ _ _ c1 c2
                (heuristic_new_node _ _ _ _ _) Hit (conj Ho Hc)) as [Ho2 Hc2].
    split; [exact Ho2|]. split; [exact Hc2|].
    eapply iteration_shortestInv; eauto.
Qed.

(** X8: when a route leads from [start] to [end], the search returns a
    path, and no route from [start] to [end] costs less than the
    distance it reports, which is the cost of the returned path. *)
Theorem returned_path_is_shortest (st : MapState) :
  exists st',
    startPathFind st = Some st' /\
    forall l : list Coord,
      validPath (width st) (height st) (walls st) (diagonalMovement st) l = true ->
      head l = Some (start st) -> last l = Some (end_ st) ->
      nodePath st' <> [] /\
      distance st' = pathCost (nodePath st') /\
      distance st' <= pathCost l.
Proof.
  destruct (startPathFind_outcome st)
    as (st' & closedL & c & Hst' & Hrun & Hexit & _ & _ & Hpath & Hdist).
  exists st'. split; [exact Hst'|]. intros l Hl Hlh Hll.
  pose proof (validPath_reachable _ _ _ _ l _ _ Hl Hlh Hll) as Hreach.
  pose proof (exit_reaches_end st c closedL Hrun Hexit Hreach) as Hcl.
  destruct (exit_closed st c closedL Hrun Hexit) as (Hrooted & _).
  destruct (search_invariants st c Hrun) as (Hinv & _).
  destruct (search_shortest st c Hrun) as (Ho & _ & Hs).
  rewrite Hpath, Hdist.
  destruct (List.find _ closedL) as [n|] eqn:Hf.
  - apply find_some in Hf as [Hin Hend]. apply sameCoord_eq in Hend.
    rewrite List.Forall_forall in Hrooted.
    destruct (Hrooted n Hin) as [_ _ Hc].
    split; [|split; [exact Hc|]].
    + destruct (tracePath n) eqn:Ht; [destruct n; discriminate Ht|].
      simpl. intros Hnil. apply app_eq_nil in Hnil as [_ Hnil]. discriminate.
    + rewrite <- Hend in Hll.
      destruct Hexit as [[_ ->]|(cur & Hnext & _ & ->)].
      * eapply (short_closed _ _ _ _ _ _ Hs); eauto.
      * apply in_app_or in Hin as [Hin|[<-|[]]].
        -- eapply (short_closed _ _ _ _ _ _ Hs); eauto.
        -- unfold nextNode in Hnext.
           destruct (cfgOpen c) as [|first rest] eqn:Hopen; [discriminate|].
           injection Hnext as <-. rewrite <- Hopen in Hinv, Ho.
           exact (expanded_is_shortest _ _ _ _ _ _ c first rest Hs Hinv Ho Hopen
                                       l Hl Hlh Hll).
  - exfalso. apply isClosedNode_spec in Hcl as (n & Hn & Hend).
    pose proof (find_none _ _ Hf n Hn) as Hsame. simpl in Hsame.
    rewrite Hend, sameCoord_refl in Hsame. discriminate.
Qed.

(** *** Lemmas for the editor *)

Lemma startPathFind_keeps (st st' : MapState) :
  startPathFind st = Some st' ->
  width st' = width st /\ height st' = height st /\
  start st' = start st /\ end_ st' = end_ st /\ walls st' = walls st /\
  diagonalMovement st' = diagonalMovement st.
Proof.
  unfold startPathFind, startPathFindWith. cbv zeta.
  destruct (searchLoop _ _ _ _ _ _ _ _ _ _) as [[[closedL count] shown]|];
    [|discriminate].
  intros H. injection H as <-. simpl. repeat split; reflexivity.
Qed.

Lemma reachable_gives_path (st : MapState) :
  reachableFrom (width st) (height st) (walls st) (diagonalMovement st)
                (start st) (end_ st) ->
  exists st',
    startPathFind st = Some st' /\
    nodePath st' <> [] /\
    head (nodePath st') = Some (start st) /\
    last (nodePath st') = Some (end_ st).
Proof.
  intros Hreach.
  destruct (startPathFind_outcome st)
    as (st' & closedL & c & Hst' & Hrun & Hexit & _ & _ & Hpath & _).
  exists st'. split; [exact Hst'|]. rewrite Hpath.
  pose proof (exit_reaches_end st c closedL Hrun Hexit Hreach) as Hcl.
  destruct (exit_closed st c closedL Hrun Hexit) as (Hrooted & _).
  apply isClosedNode_spec in Hcl as (n & Hn & Hend).
  destruct (List.find _ closedL) as [m|] eqn:Hf.
  - apply find_some in Hf as [Hin Hm]. apply sameCoord_eq in Hm.
    rewrite List.Forall_forall in Hrooted.
    destruct (Hrooted m Hin) as [Hs _ _].
    rewrite head_rev, last_rev, tracePath_head, Hm.
    split; [|auto].
    destruct (tracePath m) eqn:Ht; [destruct m; discriminate Ht|].
    simpl. intros Hnil. apply app_eq_nil in Hnil as [_ Hnil]. discriminate.
  - pose proof (find_none _ _ Hf n Hn) as Hs. simpl in Hs.
    rewrite Hend, sameCoord_refl in Hs. discriminate.
Qed.

End SearchProperties.

(** * Further properties of the maze generator *)

Module MazeProperties.
Import Maze.
Import PathFinderProofs.
Import MazeProofs.

Lemma NoDup_flat_map {A B} (f : A -> list B) (l : list A) :
  List.NoDup l ->
  (forall a, In a l -> List.NoDup (f a)) ->
  (forall a a' b, In a l -> In a' l -> In b (f a) -> In b (f a') -> a = a') ->
  List.NoDup (flat_map f l).
Proof.
  intros Hl. induction Hl as [|a l Ha Hl IH]; intros Hf Hdis; simpl;
    [constructor|].
  apply List.NoDup_app.
  - apply Hf. left. reflexivity.
  - apply IH.
    + intros a' Ha'. apply Hf. right. exact Ha'.
    + intros a1 a2 b H1 H2. apply Hdis; right; assumption.
  - intros b Hb Hin. apply in_flat_map in Hin as (a' & Ha' & Hb').
    assert (a = a') by (eapply Hdis; eauto; [left; reflexivity|right; exact Ha']).
    subst a'. contradiction.
Qed.

Lemma seqZ_NoDup (m n : Z) : List.NoDup (seqZ m n).
Proof. apply NoDup_ListNoDup. apply NoDup_seqZ. Qed.

Lemma allCells_NoDup (w h : Z) : List.NoDup (allCells w h).
Proof.
  unfold allCells. apply NoDup_flat_map.
  - apply seqZ_NoDup.
  - intros cx _. apply Injective_map_NoDup; [|apply seqZ_NoDup].
    intros a b H. injection H. auto.
  - intros cx cx' b _ _ H1 H2.
    apply in_map_iff in H1 as (cy & <- & _).
    apply in_map_iff in H2 as (cy' & H2 & _). injection H2. auto.
Qed.

Lemma collectWalls_filter width height (g : list (list bool)) :
  0 < width -> 0 <= height -> wfGrid width height g ->
  collectWalls g = List.filter (fun c => negb (cell g c)) (allCells width height).
Proof.
  intros Hw Hh [Hlen Hcols]. unfold collectWalls, allCells.
  destruct (lookup_lt_is_Some_2 g 0%nat) as [col Hg]; [lia|].
  assert (Hcol : length col = Z.to_nat height).
  { rewrite List.Forall_forall in Hcols. apply Hcols.
    apply list_elem_of_In. eapply list_elem_of_lookup_2. exact Hg. }
  rewrite Hg. simpl. rewrite Hlen, Hcol, !Z2Nat.id by lia.
  induction (seqZ 0 width) as [|cx l IH]; [reflexivity|].
  simpl. rewrite List.filter_app, IH. f_equal.
  clear. induction (seqZ 0 height) as [|cy l IH]; [reflexivity|].
  simpl. rewrite IH. destruct (cell g (mkCoord cx cy)); reflexivity.
Qed.

(** The final state behind a returned maze with at least one row. *)
Lemma returned_state width height firstCell draws r :
  0 < height ->
  drawn width (x firstCell) -> drawn height (y firstCell) ->
  mazePrimsAlgorithm width height firstCell draws = Some (Returned r) ->
  exists s,
    0 < width /\
    mazeInv width height firstCell s /\ wallList s = [] /\
    finalWallList r = collectWalls (grid s) /\
    (start r, end_ r) = findEndpoints height (grid s) /\
    forall c, isPassage width height (finalWallList r) c = cell (grid s) c.
Proof.
  intros Hh Hx Hy H.
  destruct (returned_dimensions _ _ _ _ _ H) as [Hw _].
  destruct (mazePrimsAlgorithm_returned _ _ _ _ _ Hw Hh Hx Hy H)
    as (s & Hreach & Hempty & Hin & ->).
  pose proof (mazeInv_reachable width height firstCell s Hin Hreach) as Hinv.
  exists s. simpl.
  split; [exact Hw|]. split; [exact Hinv|]. split; [exact Hempty|].
  split; [reflexivity|]. split.
  - destruct (findEndpoints height (grid s)). reflexivity.
  - intros c. apply isPassage_collectWalls; [exact Hw|apply (inv_wf _ _ _ _ Hinv)].
Qed.

(** X9: the returned wall list holds every wall of the grid once: it
    has no duplicates, all its coordinates lie on the grid, every cell
    of the grid is either listed or a passage, and the seed cell is
    never listed. *)
Theorem wall_list_partitions_grid width height firstCell draws r :
  0 < height ->
  drawn width (x firstCell) -> drawn height (y firstCell) ->
  mazePrimsAlgorithm width height firstCell draws = Some (Returned r) ->
  List.NoDup (finalWallList r) /\
  (forall c, In c (finalWallList r) -> inGrid width height c = true) /\
  ~ In firstCell (finalWallList r) /\
  (length (finalWallList r) + passageCount width height
                                (isPassage width height (finalWallList r))
   = Z.to_nat width * Z.to_nat height)%nat /\
  (1 <= passageCount width height (isPassage width height (finalWallList r)))%nat.
Proof.
  intros Hh Hx Hy H.
  destruct (returned_state _ _ _ _ _ Hh Hx Hy H)
    as (s & Hw & Hinv & _ & Hwalls & _ & Hpass).
  pose proof (inv_wf _ _ _ _ Hinv) as Hwf.
  pose proof (inv_seed _ _ _ _ Hinv) as Hseed.
  assert (Hcount : passageCount width height (isPassage width height (finalWallList r))
                   = length (List.filter (cell (grid s)) (allCells width height))).
  { unfold passageCount. f_equal. apply filter_ext. exact Hpass. }
  rewrite Hcount, Hwalls, (collectWalls_filter width height _ Hw ltac:(lia) Hwf).
  split; [apply List.NoDup_filter; apply allCells_NoDup|].
  split; [|split; [|split]].
  - intros c Hc. apply filter_In in Hc as [Hc _].
    apply allCells_In in Hc. apply inGrid_spec. exact Hc.
  - intros Hc. apply filter_In in Hc as [_ Hc]. rewrite Hseed in Hc. discriminate.
  - rewrite <- allCells_length.
    rewrite <- (filter_length (cell (grid s)) (allCells width height)). lia.
  - assert (Hin : In firstCell (List.filter (cell (grid s)) (allCells width height))).
    { apply filter_In. split; [|exact Hseed].
      apply allCells_In. apply inGrid_spec.
      eapply wfGrid_cell_inGrid; eauto. }
    destruct (List.filter _ _); [destruct Hin|simpl; lia].
Qed.

Lemma wall_list_partitions_grid_witness :
  List.NoDup [mkCoord 1 1] /\
  (forall c, In c [mkCoord 1 1] -> inGrid 2 2 c = true) /\
  ~ In (mkCoord 0 0) [mkCoord 1 1] /\
  (length [mkCoord 1 1] + passageCount 2 2 (isPassage 2 2 [mkCoord 1 1])
   = Z.to_nat 2 * Z.to_nat 2)%nat /\
  (1 <= passageCount 2 2 (isPassage 2 2 [mkCoord 1 1]))%nat.
Proof.
  apply (wall_list_partitions_grid 2 2 (mkCoord 0 0) [0; 0; 0; 0; 0; 0]%nat
           {| finalWallList := [mkCoord 1 1];
              start := mkCoord 0 0; end_ := mkCoord 0 1 |}).
  - lia.
  - unfold drawn. simpl. lia.
  - unfold drawn. simpl. lia.
  - vm_compute. reflexivity.
Defined.

Lemma passagesAround_cells (passage : Coord -> bool) (g : list (list bool))
      (c : Coord) :
  (forall c', passage c' = cell g c') ->
  passagesAround passage c = around g c.
Proof.
  intros Hp. unfold passagesAround, around, directions. simpl.
  rewrite !Hp.
  repeat match goal with
         | |- context [cell g ?d] => destruct (cell g d); simpl
         end; reflexivity.
Qed.

(** X10: in a returned maze no wall has exactly one passage among the
    four cells around it: no wall is left that the loop would still
    open. *)
Theorem no_wall_with_one_passage_around width height firstCell draws r :
  0 < height ->
  drawn width (x firstCell) -> drawn height (y firstCell) ->
  mazePrimsAlgorithm width height firstCell draws = Some (Returned r) ->
  forall c,
    In c (finalWallList r) ->
    passagesAround (isPassage width height (finalWallList r)) c <> 1%nat.
Proof.
  intros Hh Hx Hy H c Hc.
  destruct (returned_state _ _ _ _ _ Hh Hx Hy H)
    as (s & Hw & Hinv & Hempty & Hwalls & _ & Hpass).
  pose proof (inv_wf _ _ _ _ Hinv) as Hwf.
  rewrite (passagesAround_cells _ (grid s) c Hpass).
  rewrite Hwalls in Hc. apply (In_collectWalls width height _ c Hw Hwf) in Hc
    as [Hin Hwall].
  intros Hone.
  destruct (inv_pending _ _ _ _ Hinv c Hin Hwall) as [Hl|Hl]; [lia| |lia].
  rewrite Hempty in Hl. destruct Hl.
Qed.

Lemma no_wall_with_one_passage_around_witness :
  In (mkCoord 1 1) [mkCoord 1 1] /\
  passagesAround (isPassage 2 2 [mkCoord 1 1]) (mkCoord 1 1) <> 1%nat.
Proof.
  split; [left; reflexivity|].
  apply (no_wall_with_one_passage_around 2 2 (mkCoord 0 0) [0; 0; 0; 0; 0; 0]%nat
           {| finalWallList := [mkCoord 1 1];
              start := mkCoord 0 0; end_ := mkCoord 0 1 |}).
  - lia.
  - unfold drawn. simpl. lia.
  - unfold drawn. simpl. lia.
  - vm_compute. reflexivity.
  - left; reflexivity.
Defined.

(** X11: in a returned maze both end points are passages found by the
    scan, never the (0,0) default: start lies in column 0, end in the
    bottom row, and end is the passage of the bottom row with the
    largest x. *)
Theorem endpoints_are_passages width height firstCell draws r :
  0 < height ->
  drawn width (x firstCell) -> drawn height (y firstCell) ->
  mazePrimsAlgorithm width height firstCell draws = Some (Returned r) ->
  let passage := isPassage width height (finalWallList r) in
  (passage (start r) = true /\ x (start r) = 0 /\ ~ In (start r) (finalWallList r)) /\
  (passage (end_ r) = true /\ y (end_ r) = height - 1 /\
   ~ In (end_ r) (finalWallList r)) /\
  (forall x0, passage (mkCoord x0 (height - 1)) = true -> x0 <= x (end_ r)).
Proof.
  intros Hh Hx Hy H passage.
  destruct (returned_state _ _ _ _ _ Hh Hx Hy H)
    as (s & Hw & Hinv & Hempty & Hwalls & Hends & Hpass).
  pose proof (inv_wf _ _ _ _ Hinv) as Hwf.
  destruct (final_first_start _ _ _ _ Hinv Hempty) as (iS & HSb & HS0 & HSt & HSmin).
  destruct (final_first_end _ _ _ _ Hinv Hempty) as (iE & HEb & HE0 & HEt & HEmin).
  assert (HL : Z.of_nat (length (grid s)) = width) by (destruct Hwf as [-> _]; lia).
  assert (Hcode : findEndpoints height (grid s)
                  = (mkCoord 0 iS, mkCoord (width - 1 - iE) (height - 1))).
  { unfold findEndpoints.
    rewrite (scanLoop_found height (grid s) iS iE); rewrite ?HL; auto; try lia;
      try discriminate. }
  rewrite Hcode in Hends. injection Hends as Hstart Hend.
  assert (Hnot : forall c, passage c = true -> ~ In c (finalWallList r)).
  { intros c Hc Hin. unfold passage, isPassage in Hc.
    apply andb_true_iff in Hc as [_ Hc]. apply negb_true_iff in Hc.
    apply not_true_iff_false in Hc. apply Hc. apply existsb_exists.
    exists c. split; [exact Hin|apply sameCoord_refl]. }
  assert (Hps : passage (start r) = true)
    by (unfold passage; rewrite Hpass, Hstart; exact HSt).
  assert (Hpe : passage (end_ r) = true)
    by (unfold passage; rewrite Hpass, Hend; exact HEt).
  split; [|split].
  - rewrite Hstart in *. auto.
  - rewrite Hend in *. auto.
  - intros x0 Hx0. rewrite Hend. simpl.
    destruct (decide (x0 <= width - 1 - iE)) as [Hle|Hgt]; [exact Hle|].
    unfold passage in Hx0. rewrite Hpass in Hx0.
    assert (Hx0b : x0 < width).
    { apply (wfGrid_cell_inGrid width height _ _ Hwf) in Hx0.
      apply inGrid_spec in Hx0. simpl in Hx0. lia. }
    specialize (HEmin (width - 1 - x0) ltac:(lia)).
    replace (width - 1 - (width - 1 - x0)) with x0 in HEmin by lia.
    congruence.
Qed.

Lemma endpoints_are_passages_witness :
  let passage :=
    isPassage 3 3 [mkCoord 0 0; mkCoord 0 2; mkCoord 2 0; mkCoord 2 2] in
  (passage (mkCoord 0 1) = true /\ 0 = 0 /\
   ~ In (mkCoord 0 1) [mkCoord 0 0; mkCoord 0 2; mkCoord 2 0; mkCoord 2 2]) /\
  (passage (mkCoord 1 2) = true /\ 2 = 3 - 1 /\
   ~ In (mkCoord 1 2) [mkCoord 0 0; mkCoord 0 2; mkCoord 2 0; mkCoord 2 2]) /\
  (forall x0, passage (mkCoord x0 (3 - 1)) = true -> x0 <= 1).
Proof.
  apply (endpoints_are_passages 3 3 (mkCoord 1 1) (repeat 0%nat 12)
           {| finalWallList :=
                [mkCoord 0 0; mkCoord 0 2; mkCoord 2 0; mkCoord 2 2];
              start := mkCoord 0 1; end_ := mkCoord 1 2 |}).
  - lia.
  - unfold drawn. simpl. lia.
  - unfold drawn. simpl. lia.
  - vm_compute. reflexivity.
Defined.

(** *** The loop always ends *)

(** Indices drawn after the loop has ended change nothing. *)
Lemma generationLoop_more width height (draws more : list nat) :
  forall s s' : LoopState,
    generationLoop width height draws s = Some s' ->
    generationLoop width height (draws ++ more) s = Some s'.
Proof.
  induction draws as [|k draws IH]; intros s s' H; simpl in H.
  - destruct (wallList s) eqn:Hw; [|discriminate].
    injection H as <-. apply generationLoop_done. exact Hw.
  - simpl. destruct (wallList s) as [|c l]; [exact H|].
    destruct ((c :: l) !! k); [|discriminate]. apply IH. exact H.
Qed.

(** Along an endless sequence of draws, each an index of the frontier
    list of its iteration, the loop is left after finitely many. *)
Lemma generationLoop_stream width height firstCell (s : LoopState) :
  mazeInv width height firstCell s ->
  forall pick : nat -> nat,
    (forall n, validDraws width height (List.map pick (seq 0 n)) s = true) ->
    exists n s', generationLoop width height (List.map pick (seq 0 n)) s = Some s'.
Proof.
  intros Hinv.
  pose proof (loopStep_Acc width height firstCell _ _ s Hinv (le_n _) (le_n _))
    as Hacc.
  induction Hacc as [s _ IH]. intros pick Hvalid.
  destruct (wallList s) as [|c l] eqn:Hw.
  - exists 0%nat, s. simpl. rewrite Hw. reflexivity.
  - pose proof (Hvalid 1%nat) as H1. simpl in H1. rewrite Hw in H1.
    destruct ((c :: l) !! pick 0%nat) as [rw|] eqn:Hk; [|discriminate]. clear H1.
    destruct (IH (loopBody width height s (pick 0%nat) rw))
      with (pick := fun i => pick (S i)) as (n & s' & Hrun).
    + exists (pick 0%nat), rw. rewrite Hw. auto.
    + apply mazeInv_step; [exact Hinv|]. rewrite Hw. exact Hk.
    + intros n. specialize (Hvalid (S n)). simpl in Hvalid.
      rewrite Hw, Hk, <- seq_shift, List.map_map in Hvalid. exact Hvalid.
    + exists (S n), s'. simpl. rewrite Hw, Hk, <- seq_shift, List.map_map.
      exact Hrun.
Qed.

(** The frontier list is never left empty by the first index. *)
Lemma validDraws_first width height (n a : nat) :
  forall s : LoopState,
    validDraws width height (List.map (fun _ => 0%nat) (seq a n)) s = true.
Proof.
  revert a. induction n as [|n IH]; intros a s; simpl; [reflexivity|].
  destruct (wallList s) as [|c l]; [reflexivity|]. simpl. apply IH.
Qed.

(** X12: with dimensions that are positive and below the limit 2^32 of
    array lengths, the generator returns whatever is drawn: along any
    endless sequence of draws, each an index of the frontier list of
    its iteration, the loop is left after finitely many draws and a
    maze is returned, which the draws that follow do not change. *)
Theorem generation_always_ends width height firstCell (pick : nat -> nat) :
  0 < width < 2 ^ 32 -> 0 < height < 2 ^ 32 ->
  drawn width (x firstCell) -> drawn height (y firstCell) ->
  (forall n,
      validDraws width height (List.map pick (seq 0 n))
        (initialState width height
           (replicate (Z.to_nat width) (replicate (Z.to_nat height) false))
           firstCell) = true) ->
  exists (n : nat) (r : MazeResult),
    forall m, (n <= m)%nat ->
              mazePrimsAlgorithm width height firstCell (List.map pick (seq 0 m))
              = Some (Returned r).
Proof.
  change (2 ^ 32) with arrayLimit.
  intros [Hw Hwl] [Hh Hhl] [Hx _] [Hy _] Hvalid.
  specialize (Hx Hw). specialize (Hy Hh).
  assert (Hin : inGrid width height firstCell = true) by (apply inGrid_spec; lia).
  destruct (generationLoop_stream width height firstCell _
              (mazeInv_init width height firstCell Hin) pick Hvalid)
    as (n & s & Hrun).
  destruct (findEndpoints height (grid s)) as [st en] eqn:Hends.
  exists n, {| finalWallList := collectWalls (grid s); start := st; end_ := en |}.
  intros m Hm.
  replace m with (n + (m - n))%nat by lia.
  rewrite seq_app, List.map_app.
  apply generationLoop_more with (more := List.map pick (seq (0 + n) (m - n)))
    in Hrun.
  unfold mazePrimsAlgorithm, newGrid.
  destruct (Z.leb_spec width 0); [lia|].
  destruct (Z.leb_spec arrayLimit width); [lia|].
  destruct (Z.ltb_spec height 0); [lia|].
  destruct (Z.leb_spec arrayLimit height); [lia|]. simpl orb. cbv iota.
  rewrite length_replicate.
  destruct (Z.ltb_spec (x firstCell) 0); [lia|].
  destruct (Z.leb_spec (Z.of_nat (Z.to_nat width)) (x firstCell)); [lia|].
  simpl orb. cbv iota. rewrite Hrun, Hends. reflexivity.
Qed.

Lemma generation_always_ends_witness :
  exists (n : nat) (r : MazeResult),
    forall m, (n <= m)%nat ->
              mazePrimsAlgorithm 4 3 (mkCoord 2 1)
                                 (List.map (fun _ => 0%nat) (seq 0 m))
              = Some (Returned r).
Proof.
  apply (generation_always_ends 4 3 (mkCoord 2 1) (fun _ => 0%nat)).
  - change (2 ^ 32) with 4294967296. lia.
  - change (2 ^ 32) with 4294967296. lia.
  - unfold drawn. simpl. lia.
  - unfold drawn. simpl. lia.
  - intros n. apply validDraws_first.
Defined.

(** *** The passages form a tree *)

Lemma list_sum_map_add {A} (f g : A -> nat) (l : list A) :
  list_sum (List.map (fun a => (f a + g a)%nat) l)
  = (list_sum (List.map f l) + list_sum (List.map g l))%nat.
Proof. induction l as [|a l IH]; simpl; lia. Qed.

(** Among the elements of a duplicate-free list that satisfy [f], at
    most one is [n]. *)
Lemma count_hits (f : Coord -> bool) (l : list Coord) (n : Coord) :
  List.NoDup l -> (f n = true -> In n l) ->
  list_sum (List.map (fun c => Nat.b2n (sameCoord c n)) (List.filter f l))
  = Nat.b2n (f n).
Proof.
  intros Hnd. induction Hnd as [|a l Ha Hnd IH]; intros Hin.
  - simpl. destruct (f n) eqn:Hf; [destruct (Hin eq_refl)|reflexivity].
  - simpl. destruct (sameCoord a n) eqn:Hs.
    + apply sameCoord_eq in Hs. subst a.
      assert (Hrest : list_sum (List.map (fun c => Nat.b2n (sameCoord c n))
                                         (List.filter f l)) = 0%nat).
      { clear -Ha. induction l as [|b l IH]; [reflexivity|]. simpl.
        assert (Hb : sameCoord b n = false).
        { apply sameCoord_neq. intros ->. apply Ha. left. reflexivity. }
        destruct (f b); simpl; [rewrite Hb|]; apply IH;
          intros H; apply Ha; right; exact H. }
      destruct (f n); simpl; [rewrite sameCoord_refl|]; rewrite Hrest; reflexivity.
    + assert (Hne : a <> n) by (apply sameCoord_neq; exact Hs).
      destruct (f a); simpl; [rewrite Hs|]; apply IH;
        intros Hf; destruct (Hin Hf) as [H|H]; (congruence || exact H).
Qed.

Lemma sameCoord_shift (d c n : Coord) :
  sameCoord (addCoord d c) n = sameCoord c (addCoord (mkCoord (- x d) (- y d)) n).
Proof.
  unfold sameCoord, addCoord. simpl.
  destruct (Z.eqb_spec (x d + x c) (x n)), (Z.eqb_spec (x c) (- x d + x n)),
    (Z.eqb_spec (y d + y c) (y n)), (Z.eqb_spec (y c) (- y d + y n));
    simpl; try reflexivity; lia.
Qed.

Section Opening.

Variables (width height : Z) (g g1 : list (list bool)) (rw : Coord).
Hypothesis g_wf : wfGrid width height g.
Hypothesis rw_in : inGrid width height rw = true.
Hypothesis rw_wall : cell g rw = false.
Hypothesis g1_cells : forall c, cell g1 c = cell g c || sameCoord c rw.

Lemma opening_filter :
  exists l1 l2,
    allCells width height = l1 ++ rw :: l2 /\
    List.filter (cell g1) (allCells width height)
    = List.filter (cell g) l1 ++ rw :: List.filter (cell g) l2 /\
    List.filter (cell g) (allCells width height)
    = List.filter (cell g) l1 ++ List.filter (cell g) l2.
Proof.
  assert (Hin : In rw (allCells width height)).
  { apply allCells_In. apply inGrid_spec. exact rw_in. }
  destruct (in_split _ _ Hin) as (l1 & l2 & Heq).
  pose proof (allCells_NoDup width height) as Hnd. rewrite Heq in Hnd.
  apply NoDup_remove_2 in Hnd.
  assert (Hsame : forall l, ~ In rw l ->
                            List.filter (cell g1) l = List.filter (cell g) l).
  { intros l Hl. apply filter_ext_in. intros c Hc. rewrite g1_cells.
    assert (Hs : sameCoord c rw = false) by (apply sameCoord_neq; congruence).
    rewrite Hs. apply orb_false_r. }
  exists l1, l2. split; [exact Heq|]. rewrite Heq, !List.filter_app. simpl.
  rewrite g1_cells, sameCoord_refl, orb_true_r, rw_wall.
  rewrite !Hsame; [auto| |]; intros H; apply Hnd; apply in_or_app; auto.
Qed.

Lemma b2n_opened (n : Coord) :
  Nat.b2n (cell g n || sameCoord n rw)
  = (Nat.b2n (cell g n) + Nat.b2n (sameCoord n rw))%nat.
Proof.
  destruct (sameCoord n rw) eqn:Hs.
  - apply sameCoord_eq in Hs. subst n. rewrite rw_wall. reflexivity.
  - rewrite orb_false_r. simpl. lia.
Qed.

Lemma around_opened (c : Coord) :
  around g1 c =
  (around g c +
   (Nat.b2n (sameCoord c (addCoord (mkCoord 1 0) rw)) +
    Nat.b2n (sameCoord c (addCoord (mkCoord 0 (-1)) rw)) +
    Nat.b2n (sameCoord c (addCoord (mkCoord (-1) 0) rw)) +
    Nat.b2n (sameCoord c (addCoord (mkCoord 0 1) rw))))%nat.
Proof.
  unfold around. rewrite !g1_cells, !b2n_opened, !sameCoord_shift.
  change (addCoord {| x := - x (mkCoord (-1) 0); y := - y (mkCoord (-1) 0) |} rw)
    with (addCoord (mkCoord 1 0) rw).
  change (addCoord {| x := - x (mkCoord 0 1); y := - y (mkCoord 0 1) |} rw)
    with (addCoord (mkCoord 0 (-1)) rw).
  change (addCoord {| x := - x (mkCoord 1 0); y := - y (mkCoord 1 0) |} rw)
    with (addCoord (mkCoord (-1) 0) rw).
  change (addCoord {| x := - x (mkCoord 0 (-1)); y := - y (mkCoord 0 (-1)) |} rw)
    with (addCoord (mkCoord 0 1) rw).
  lia.
Qed.

(** Opening a wall adds one passage and, to the sum of the passages
    around the passages, twice the number of passages around it. *)
Lemma opening_counts :
  length (List.filter (cell g1) (allCells width height))
  = S (length (List.filter (cell g) (allCells width height))) /\
  list_sum (List.map (around g1) (List.filter (cell g1) (allCells width height)))
  = (list_sum (List.map (around g) (List.filter (cell g) (allCells width height)))
     + 2 * around g rw)%nat.
Proof.
  destruct opening_filter as (l1 & l2 & Hall & H1 & H0).
  split.
  - rewrite H1, H0, !length_app. simpl. lia.
  - assert (Hhits : forall n,
               list_sum (List.map (fun c => Nat.b2n (sameCoord c n))
                                  (List.filter (cell g) (allCells width height)))
               = Nat.b2n (cell g n)).
    { intros n. apply count_hits; [apply allCells_NoDup|].
      intros Hn. apply allCells_In. apply inGrid_spec.
      eapply wfGrid_cell_inGrid; eauto. }
    assert (Hself : around g1 rw = around g rw).
    { rewrite around_opened. unfold sameCoord, addCoord. simpl.
      repeat match goal with
             | |- context [?u =? ?v] => destruct (Z.eqb_spec u v); try lia
             end; simpl; lia. }
    assert (Hsum : list_sum (List.map (around g1)
                                      (List.filter (cell g) (allCells width height)))
                   = (list_sum (List.map (around g)
                                         (List.filter (cell g) (allCells width height)))
                      + around g rw)%nat).
    { rewrite (map_ext _ _ around_opened).
      rewrite list_sum_map_add. f_equal.
      rewrite !list_sum_map_add, !Hhits. unfold around. lia. }
    rewrite H1, H0, !map_app, !list_sum_app. simpl. rewrite Hself.
    rewrite H0, !map_app, !list_sum_app in Hsum. lia.
Qed.

End Opening.

(** In every state of the loop the passages around the passages sum to
    twice the number of passages less one. *)
Lemma tree_invariant width height firstCell (s : LoopState) :
  inGrid width height firstCell = true ->
  reachable width height
            (replicate (Z.to_nat width) (replicate (Z.to_nat height) false))
            firstCell s ->
  (list_sum (List.map (around (grid s))
                      (List.filter (cell (grid s)) (allCells width height))) + 2
   = 2 * length (List.filter (cell (grid s)) (allCells width height)))%nat.
Proof.
  intros Hin Hreach. induction Hreach as [|s k rw Hreach IH Hk].
  - set (g0 := replicate (Z.to_nat width) (replicate (Z.to_nat height) false)).
    destruct (opening_counts width height g0 (setPassage g0 firstCell) firstCell)
      as [Hlen Hsum].
    + apply blank_wf.
    + exact Hin.
    + apply cell_blank.
    + intros c. apply (cell_setPassage width height);
        [apply blank_wf|exact Hin].
    + simpl. fold g0. rewrite Hlen, Hsum.
      rewrite (around_blank g0) by (intros c'; unfold g0; apply cell_blank).
      assert (Hnone : List.filter (cell g0) (allCells width height) = []).
      { clear. induction (allCells width height) as [|c l IH]; [reflexivity|].
        simpl. unfold g0 at 1. rewrite cell_blank. exact IH. }
      rewrite Hnone. reflexivity.
  - pose proof (mazeInv_reachable width height firstCell s Hin Hreach) as Hinv.
    pose proof (inv_wf _ _ _ _ Hinv) as Hwf.
    assert (Hrw : inGrid width height rw = true).
    { apply (inv_frontier _ _ _ _ Hinv). apply list_elem_of_In.
      eapply list_elem_of_lookup_2. exact Hk. }
    destruct (Nat.eq_dec (around (grid s) rw) 1%nat) as [Hone|Hne].
    + rewrite loopBody_opened by assumption. simpl.
      destruct (cell (grid s) rw) eqn:Hcell.
      * assert (Hext : forall c, cell (setPassage (grid s) rw) c = cell (grid s) c).
        { intros c. rewrite (cell_setPassage width height) by assumption.
          destruct (sameCoord c rw) eqn:Hs; [|apply orb_false_r].
          apply sameCoord_eq in Hs. subst c. rewrite Hcell. reflexivity. }
        rewrite (filter_ext _ _ Hext).
        assert (Har : forall c, around (setPassage (grid s) rw) c = around (grid s) c).
        { intros c. unfold around. rewrite !Hext. reflexivity. }
        rewrite (map_ext _ _ Har). exact IH.
      * destruct (opening_counts width height (grid s) (setPassage (grid s) rw) rw)
          as [Hlen Hsum]; auto.
        { intros c. apply (cell_setPassage width height); assumption. }
        rewrite Hlen, Hsum, Hone. lia.
    + rewrite loopBody_kept by assumption. simpl. exact IH.
Qed.

(** X13: the passages of a returned maze form a tree: summed over the
    passages, the passages around each come to twice the number of
    passages less one, so there are exactly (passages - 1) pairs of
    adjacent passages, as many as a connected maze needs at least:
    the maze has no loop. *)
Theorem passages_form_a_tree width height firstCell draws r :
  0 < height ->
  drawn width (x firstCell) -> drawn height (y firstCell) ->
  mazePrimsAlgorithm width height firstCell draws = Some (Returned r) ->
  (degreeSum width height (isPassage width height (finalWallList r)) + 2
   = 2 * passageCount width height (isPassage width height (finalWallList r)))%nat.
Proof.
  intros Hh Hx Hy H.
  destruct (returned_dimensions _ _ _ _ _ H) as [Hw _].
  destruct (mazePrimsAlgorithm_returned _ _ _ _ _ Hw Hh Hx Hy H)
    as (s & Hreach & _ & Hin & ->).
  pose proof (mazeInv_reachable width height firstCell s Hin Hreach) as Hinv.
  pose proof (inv_wf _ _ _ _ Hinv) as Hwf.
  simpl. unfold degreeSum, passageCount.
  assert (Hpass : forall c, isPassage width height (collectWalls (grid s)) c
                            = cell (grid s) c).
  { intros c. apply isPassage_collectWalls; assumption. }
  rewrite (filter_ext _ _ Hpass).
  rewrite (map_ext _ _ (fun c => passagesAround_cells _ (grid s) c Hpass)).
  apply (tree_invariant width height firstCell); assumption.
Qed.

Lemma passages_form_a_tree_witness :
  (degreeSum 3 3 (isPassage 3 3 [mkCoord 0 0; mkCoord 0 2; mkCoord 2 0; mkCoord 2 2])
   + 2
   = 2 * passageCount 3 3
           (isPassage 3 3 [mkCoord 0 0; mkCoord 0 2; mkCoord 2 0; mkCoord 2 2]))%nat.
Proof.
  apply (passages_form_a_tree 3 3 (mkCoord 1 1) (repeat 0%nat 12)
           {| finalWallList :=
                [mkCoord 0 0; mkCoord 0 2; mkCoord 2 0; mkCoord 2 2];
              start := mkCoord 0 1; end_ := mkCoord 1 2 |}).
  - lia.
  - unfold drawn. simpl. lia.
  - unfold drawn. simpl. lia.
  - vm_compute. reflexivity.
Defined.

(** *** Lemmas for the editor *)

Lemma connected_passage (P : Coord -> bool) (a b : Coord) :
  connected P a b -> P a = true /\ P b = true.
Proof.
  induction 1 as [Ha|c c' _ [IHa _] _ Hc']; auto.
Qed.

Lemma connected_trans (P : Coord -> bool) (a b c : Coord) :
  connected P a b -> connected P b c -> connected P a c.
Proof.
  intros Hab Hbc. induction Hbc as [_|c c' _ IH Hadj Hc']; [exact Hab|].
  eapply connected_move; eauto.
Qed.

Lemma connected_back (P : Coord -> bool) (a b : Coord) :
  connected P a b -> connected P b a.
Proof.
  induction 1 as [Ha|c c' Hac IH Hadj Hc'].
  - apply connected_seed. exact Ha.
  - apply connected_trans with (b := c); [|exact IH].
    eapply connected_move; [apply connected_seed; exact Hc'| |].
    + apply adjacent_sym. exact Hadj.
    + apply (connected_passage P _ _ Hac).
Qed.

(** What the editor takes from a maze returned for positive
    dimensions: walls without duplicates on the grid, and two end
    points that are passages with a chain of adjacent passages from
    one to the other. *)
Lemma returned_maze_for_editor width height firstCell draws r :
  0 < height ->
  drawn width (x firstCell) -> drawn height (y firstCell) ->
  mazePrimsAlgorithm width height firstCell draws = Some (Returned r) ->
  List.NoDup (finalWallList r) /\
  (forall c, In c (finalWallList r) -> inGrid width height c = true) /\
  inGrid width height (start r) = true /\
  inGrid width height (end_ r) = true /\
  connected (isPassage width height (finalWallList r)) (start r) (end_ r).
Proof.
  intros Hh Hx Hy H.
  destruct (returned_state _ _ _ _ _ Hh Hx Hy H)
    as (s & Hw & Hinv & Hempty & Hwalls & Hends & Hpass).
  pose proof (inv_wf _ _ _ _ Hinv) as Hwf.
  destruct (final_first_start _ _ _ _ Hinv Hempty) as (iS & HSb & HS0 & HSt & HSmin).
  destruct (final_first_end _ _ _ _ Hinv Hempty) as (iE & HEb & HE0 & HEt & HEmin).
  assert (HL : Z.of_nat (length (grid s)) = width) by (destruct Hwf as [-> _]; lia).
  assert (Hcode : findEndpoints height (grid s)
                  = (mkCoord 0 iS, mkCoord (width - 1 - iE) (height - 1))).
  { unfold findEndpoints.
    rewrite (scanLoop_found height (grid s) iS iE); rewrite ?HL; auto; try lia;
      try discriminate. }
  rewrite Hcode in Hends. injection Hends as Hstart Hend.
  rewrite Hstart, Hend.
  assert (Hconn : forall c, cell (grid s) c = true ->
                            connected (isPassage width height (finalWallList r))
                                      firstCell c).
  { intros c Hc. eapply connected_mono; [|apply (inv_connected _ _ _ _ Hinv); exact Hc].
    intros c' Hc'. rewrite Hpass. exact Hc'. }
  split; [|split; [|split; [|split]]].
  - rewrite Hwalls, (collectWalls_filter width height _ Hw ltac:(lia) Hwf).
    apply List.NoDup_filter. apply allCells_NoDup.
  - intros c Hc. rewrite Hwalls in Hc.
    apply (In_collectWalls width height _ c Hw Hwf) in Hc. tauto.
  - eapply wfGrid_cell_inGrid; eauto.
  - eapply wfGrid_cell_inGrid; eauto.
  - eapply connected_trans; [apply connected_back|]; apply Hconn; assumption.
Qed.

Lemma positive_dimensions_do_not_throw width height firstCell draws e :
  0 < width < arrayLimit -> 0 <= height < arrayLimit ->
  drawn width (x firstCell) ->
  mazePrimsAlgorithm width height firstCell draws <> Some (Threw e).
Proof.
  intros [Hw Hwl] [Hh Hhl] [Hx _]. specialize (Hx Hw).
  unfold mazePrimsAlgorithm, newGrid.
  destruct (Z.leb_spec width 0); [lia|].
  destruct (Z.leb_spec arrayLimit width); [lia|].
  destruct (Z.ltb_spec height 0); [lia|].
  destruct (Z.leb_spec arrayLimit height); [lia|]. simpl orb. cbv iota.
  rewrite length_replicate.
  destruct (Z.ltb_spec (x firstCell) 0); [lia|].
  destruct (Z.leb_spec (Z.of_nat (Z.to_nat width)) (x firstCell)); [lia|].
  simpl. destruct (generationLoop _ _ _ _); [|discriminate].
  destruct (findEndpoints _ _). discriminate.
Qed.

End MazeProperties.

(** * Properties of the editor *)

Module EditorProperties.
Import PathFinder.
Import Routes.
Import Editor.
Import PathFinderProofs.
Import SearchProperties.

(** *** Clicks on tiles *)

Lemma isWall_spec (row col : Z) (prev : list Coord) :
  existsb (fun node => (x node =? row) && (y node =? col)) prev = true
  <-> In (mkCoord row col) prev.
Proof. apply (isWallTile_spec prev (mkCoord row col)). Qed.

Lemma toggleWall_spec (toggle : bool) (row col : Z) (prev : list Coord) :
  List.NoDup prev ->
  List.NoDup (toggleWall toggle row col prev) /\
  (In (mkCoord row col) (toggleWall toggle row col prev) <-> toggle = true) /\
  (forall c, c <> mkCoord row col ->
             (In c (toggleWall toggle row col prev) <-> In c prev)).
Proof.
  intros Hnd. unfold toggleWall.
  destruct (existsb _ prev) eqn:Hw; destruct toggle; simpl.
  - apply isWall_spec in Hw. repeat split; tauto.
  - split; [apply List.NoDup_filter; exact Hnd|]. split.
    + split; [|discriminate]. intros H. apply filter_In in H as [_ H].
      simpl in H. rewrite !Z.eqb_refl in H. discriminate.
    + intros c Hc. rewrite filter_In. split; [tauto|]. intros H.
      split; [exact H|]. apply negb_true_iff.
      apply (sameCoord_neq c (mkCoord row col)). exact Hc.
  - apply not_true_iff_false in Hw. rewrite isWall_spec in Hw.
    split; [apply NoDup_snoc; assumption|]. split.
    + split; [reflexivity|]. intros _. apply in_or_app. right. left. reflexivity.
    + intros c Hc. split.
      * intros H. apply in_app_or in H as [H|[H|[]]]; [exact H|congruence].
      * intros H. apply in_or_app. left. exact H.
  - apply not_true_iff_false in Hw. rewrite isWall_spec in Hw.
    repeat split; try tauto. discriminate.
Qed.

Lemma wall_click (closure u : UiState) (row col : Z) :
  currentNode closure = WallMode ->
  List.NoDup (walls (map u)) ->
  List.NoDup (walls (map (handleNodeClick closure row col u))) /\
  (In (mkCoord row col) (walls (map (handleNodeClick closure row col u)))
   <-> toggleTile closure = true) /\
  (forall c, c <> mkCoord row col ->
             (In c (walls (map (handleNodeClick closure row col u)))
              <-> In c (walls (map u)))).
Proof.
  intros Hmode Hnd. unfold handleNodeClick. rewrite Hmode. simpl.
  apply toggleWall_spec. exact Hnd.
Qed.

(** X14: a click in wall mode leaves the clicked tile a wall exactly
    when the [toggleTile] flag of the handler is set (it adds the tile
    when it is missing and the flag is set, removes it when it is
    listed and the flag is clear), changes no other tile, and keeps the
    wall list free of duplicates; start and end stay as they are. *)
Theorem wall_click_sets_tile (closure u : UiState) (row col : Z) :
  currentNode closure = WallMode ->
  List.NoDup (walls (map u)) ->
  let u' := handleNodeClick closure row col u in
  List.NoDup (walls (map u')) /\
  (In (mkCoord row col) (walls (map u')) <-> toggleTile closure = true) /\
  (forall c, c <> mkCoord row col ->
             (In c (walls (map u')) <-> In c (walls (map u)))) /\
  start (map u') = start (map u) /\ end_ (map u') = end_ (map u).
Proof.
  intros Hmode Hnd u'. unfold u', handleNodeClick. rewrite Hmode. simpl.
  destruct (toggleWall_spec (toggleTile closure) row col _ Hnd) as (H1 & H2 & H3).
  auto.
Qed.

Lemma wall_click_sets_tile_witness :
  let closure := {| map := map initialUi; currentNode := WallMode;
                    mouseDown := true; toggleTile := true |} in
  let u' := handleNodeClick closure 2 3 closure in
  List.NoDup (walls (map u')) /\
  (In (mkCoord 2 3) (walls (map u')) <-> true = true) /\
  (forall c, c <> mkCoord 2 3 -> (In c (walls (map u')) <-> In c [])) /\
  start (map u') = mkCoord 0 0 /\ end_ (map u') = mkCoord 1 1.
Proof.
  intros closure.
  apply (wall_click_sets_tile closure closure 2 3); [reflexivity|constructor].
Defined.

(** X15: a press on a tile in wall mode records whether the tile was
    free ([toggleTile] becomes true for a free tile), but the pressed
    tile itself is set by the flag the previous press left; the tiles
    entered while the button is down follow the new flag: they become
    walls when the pressed tile was free and are cleared when it was a
    wall. *)
Theorem press_and_drag (u : UiState) (row col row' col' : Z) :
  currentNode u = WallMode ->
  List.NoDup (walls (map u)) ->
  let pressed := handleMouseDown row col u in
  let dragged := handleMouseEnter row' col' pressed in
  (toggleTile pressed = true <-> ~ In (mkCoord row col) (walls (map u))) /\
  mouseDown pressed = true /\
  (In (mkCoord row col) (walls (map pressed)) <-> toggleTile u = true) /\
  (In (mkCoord row' col') (walls (map dragged))
   <-> toggleTile pressed = true) /\
  List.NoDup (walls (map dragged)).
Proof.
  intros Hmode Hnd pressed dragged.
  assert (Hp : pressed
               = handleNodeClick u row col
                   {| map := map u; currentNode := currentNode u;
                      mouseDown := true;
                      toggleTile := negb (isWallTile (walls (map u)) row col) |})
    by reflexivity.
  destruct (wall_click u {| map := map u; currentNode := currentNode u;
                            mouseDown := true;
                            toggleTile := negb (isWallTile (walls (map u)) row col) |}
                       row col Hmode Hnd) as (H1 & H2 & _).
  rewrite <- Hp in H1, H2.
  assert (Hmode' : currentNode pressed = WallMode).
  { rewrite Hp. unfold handleNodeClick. rewrite Hmode. reflexivity. }
  assert (Hdown : mouseDown pressed = true).
  { rewrite Hp. unfold handleNodeClick. rewrite Hmode. reflexivity. }
  assert (Htog : toggleTile pressed = negb (isWallTile (walls (map u)) row col)).
  { rewrite Hp. unfold handleNodeClick. rewrite Hmode. reflexivity. }
  split; [|split; [exact Hdown|split; [exact H2|]]].
  - rewrite Htog, negb_true_iff, <- not_true_iff_false.
    rewrite (isWallTile_spec _ (mkCoord row col)). tauto.
  - unfold dragged, handleMouseEnter. rewrite Hdown, Hmode'.
    destruct (wall_click pressed pressed row' col' Hmode' H1) as (H3 & H4 & _).
    auto.
Qed.

(** From the mounted state in wall mode, the first press on a free tile
    adds no wall; a tile entered with the button down becomes one. *)
Lemma press_and_drag_witness :
  let u := {| map := map initialUi; currentNode := WallMode;
              mouseDown := false; toggleTile := false |} in
  (toggleTile (handleMouseDown 2 3 u) = true <-> ~ In (mkCoord 2 3) []) /\
  mouseDown (handleMouseDown 2 3 u) = true /\
  (In (mkCoord 2 3) (walls (map (handleMouseDown 2 3 u))) <-> false = true) /\
  (In (mkCoord 2 4) (walls (map (handleMouseEnter 2 4 (handleMouseDown 2 3 u))))
   <-> toggleTile (handleMouseDown 2 3 u) = true) /\
  List.NoDup (walls (map (handleMouseEnter 2 4 (handleMouseDown 2 3 u)))).
Proof.
  intros u. apply (press_and_drag u 2 3 2 4); [reflexivity|constructor].
Defined.

(** *** The grid stays consistent *)

Lemma gridInv_same (m m' : MapState) :
  width m' = width m -> height m' = height m ->
  start m' = start m -> end_ m' = end_ m -> walls m' = walls m ->
  gridInv m -> gridInv m'.
Proof.
  intros Hw Hh Hs He Hwl [H1 H2 H3 H4 H5 H6].
  split; rewrite ?Hw, ?Hh, ?Hs, ?He, ?Hwl; assumption.
Qed.

Lemma inGrid_withinBounds w h (c : Coord) :
  Maze.inGrid w h c = withinBounds w h c.
Proof.
  unfold Maze.inGrid, withinBounds.
  destruct (0 <=? x c), (0 <=? y c), (x c <? w), (y c <? h); reflexivity.
Qed.

Lemma gridInv_click (closure u : UiState) (row col : Z) :
  0 <= row < width (map u) -> 0 <= col < height (map u) ->
  gridInv (map u) -> gridInv (map (handleNodeClick closure row col u)).
Proof.
  intros Hr Hc Hinv.
  assert (Hpos : withinBounds (width (map u)) (height (map u)) (mkCoord row col)
                 = true) by (apply withinBounds_spec; simpl; lia).
  destruct Hinv as [H1 H2 H3 H4 H5 H6].
  unfold handleNodeClick. destruct (currentNode closure); simpl.
  - split; simpl; assumption.
  - split; simpl; assumption.
  - destruct (toggleWall_spec (toggleTile closure) row col _ H6) as (Hnd & _ & Hoth).
    split; simpl; try assumption.
    intros c Hin. destruct (decide (c = mkCoord row col)) as [->|Hne];
      [exact Hpos|].
    apply H5. apply (Hoth c Hne). exact Hin.
Qed.

Lemma gridInv_dimensionEffect (m : MapState) :
  5 <= width m <= WIDTH -> 5 <= height m <= HEIGHT ->
  gridInv (dimensionEffect m).
Proof.
  intros Hw Hh. unfold dimensionEffect. split; simpl; try assumption.
  - apply withinBounds_spec. simpl. lia.
  - apply withinBounds_spec. simpl. lia.
  - intros c [].
  - constructor.
Qed.

Lemma gridInv_dispatch (e : Event) (u u' : UiState) :
  gridInv (map u) -> possible e u -> dispatch e u = Some u' -> gridInv (map u').
Proof.
  intros Hinv Hposs Hd. destruct e; simpl in Hd, Hposs.
  - injection Hd as <-. unfold handleMouseDown.
    apply (gridInv_click u _ row col); simpl; tauto.
  - injection Hd as <-. unfold handleMouseEnter.
    destruct (mouseDown u); [|exact Hinv].
    destruct (currentNode u); try exact Hinv.
    apply gridInv_click; tauto.
  - injection Hd as <-. exact Hinv.
  - injection Hd as <-. exact Hinv.
  - injection Hd as <-. unfold handleWidthChange.
    destruct (_ =? _); [exact Hinv|]. simpl.
    apply gridInv_dimensionEffect; simpl.
    + unfold WIDTH. lia.
    + apply (grid_height _ Hinv).
  - injection Hd as <-. unfold handleHeightChange.
    destruct (_ =? _); [exact Hinv|]. simpl.
    apply gridInv_dimensionEffect; simpl.
    + apply (grid_width _ Hinv).
    + unfold HEIGHT. lia.
  - unfold generateMaze in Hd. simpl in Hd.
    destruct (Maze.mazePrimsAlgorithm _ _ _ _) as [[r|err]|] eqn:Hgen;
      [| |discriminate]; injection Hd as <-; simpl.
    + pose proof (grid_width _ Hinv) as Hw. pose proof (grid_height _ Hinv) as Hh.
      destruct Hposs as [Hx Hy].
      assert (Hpos : 0 < height (map u)) by lia.
      destruct (MazeProperties.returned_maze_for_editor _ _ _ _ _
                  Hpos Hx Hy Hgen) as (Hnd & Hin & Hs & He & _).
      rewrite inGrid_withinBounds in Hs, He.
      split; simpl; try assumption.
      intros c Hc. rewrite <- inGrid_withinBounds. apply Hin. exact Hc.
    + eapply gridInv_same; [..|exact Hinv]; reflexivity.
  - destruct (startPathFind (map u)) as [m'|] eqn:Hrun; [|discriminate].
    injection Hd as <-. simpl.
    destruct (startPathFind_keeps _ _ Hrun) as (H1 & H2 & H3 & H4 & H5 & _).
    eapply gridInv_same; eauto.
  - injection Hd as <-. simpl. eapply gridInv_same; [..|exact Hinv]; reflexivity.
  - injection Hd as <-. simpl. destruct Hinv as [H1 H2 H3 H4 H5 H6].
    split; simpl; try assumption; [intros c []|constructor].
  - injection Hd as <-. simpl. eapply gridInv_same; [..|exact Hinv]; reflexivity.
Qed.

(** X16: throughout a session (clicks and drags on tiles, changes of
    the dimensions, generated mazes, searches, the clear buttons) the
    dimensions stay within 5..125 and 5..50, start and end lie on the
    grid, every wall lies on the grid, and no wall is listed twice. *)
Theorem session_keeps_grid_consistent (u : UiState) :
  session u -> gridInv (map u).
Proof.
  induction 1 as [|u e u' _ IH Hposs Hd].
  - split; simpl; unfold WIDTH, HEIGHT; try lia; try reflexivity;
      try (intros c []); constructor.
  - eapply gridInv_dispatch; eauto.
Qed.

(** A session: wall mode, a press and a drag, then a narrower grid. *)
Lemma session_keeps_grid_consistent_witness :
  exists u, session u /\ width (map u) = 20 /\ gridInv (map u).
Proof.
  set (u1 := {| map := map initialUi; currentNode := WallMode;
                mouseDown := false; toggleTile := false |}).
  assert (H1 : session u1).
  { apply (session_event initialUi (SelectMode WallMode));
      [apply session_start|exact I|reflexivity]. }
  assert (H2 : session (handleMouseDown 2 3 u1)).
  { apply (session_event u1 (MouseDown 2 3)); [exact H1| |reflexivity].
    simpl. unfold WIDTH, HEIGHT. lia. }
  assert (H3 : session (handleMouseEnter 2 4 (handleMouseDown 2 3 u1))).
  { apply (session_event (handleMouseDown 2 3 u1) (MouseEnter 2 4));
      [exact H2| |reflexivity].
    simpl. unfold WIDTH, HEIGHT. lia. }
  assert (H4 : session (handleWidthChange 20
                          (handleMouseEnter 2 4 (handleMouseDown 2 3 u1)))).
  { apply (session_event _ (WidthInput 20) _ H3); [exact I|reflexivity]. }
  eexists. split; [exact H4|]. split; [reflexivity|].
  apply session_keeps_grid_consistent. exact H4.
Defined.

(** *** Changing the dimensions *)

(** X17: on a grid at least 5 high, an integer input for the width is
    clamped to 5..125 (a value in that range is taken as it is); when
    the width changes, the walls and the path are cleared, start is put
    at (0,0) and end at (1,1); an input that clamps to the present
    width changes nothing at all.  The distance and the iteration count
    are never cleared. *)
Theorem width_input_resets_grid (v : Z) (u : UiState) :
  5 <= height (map u) ->
  let u' := handleWidthChange v u in
  5 <= width (map u') <= 125 /\
  (5 <= v <= 125 -> width (map u') = v) /\
  (v < 5 -> width (map u') = 5) /\ (125 < v -> width (map u') = 125) /\
  (width (map u') <> width (map u) ->
   walls (map u') = [] /\ nodePath (map u') = [] /\
   openNodes (map u') = [] /\ closedNodes (map u') = [] /\
   start (map u') = mkCoord 0 0 /\ end_ (map u') = mkCoord 1 1) /\
  (width (map u') = width (map u) -> 5 <= width (map u) <= 125 -> u' = u) /\
  distance (map u') = distance (map u) /\
  iterations (map u') = iterations (map u) /\
  height (map u') = height (map u).
Proof.
  intros Hh u'. unfold u', handleWidthChange, WIDTH.
  destruct (Z.eqb_spec (Z.max 5 (Z.min 125 v)) (width (map u))) as [Heq|Hne].
  - repeat split; try lia; try reflexivity.
  - simpl. repeat split; try lia; try reflexivity. f_equal; lia.
Qed.

Lemma width_input_resets_grid_witness :
  let u' := handleWidthChange 3 initialUi in
  5 <= width (map u') <= 125 /\
  (5 <= 3 <= 125 -> width (map u') = 3) /\
  (3 < 5 -> width (map u') = 5) /\ (125 < 3 -> width (map u') = 125) /\
  (width (map u') <> width (map initialUi) ->
   walls (map u') = [] /\ nodePath (map u') = [] /\
   openNodes (map u') = [] /\ closedNodes (map u') = [] /\
   start (map u') = mkCoord 0 0 /\ end_ (map u') = mkCoord 1 1) /\
  (width (map u') = width (map initialUi) ->
   5 <= width (map initialUi) <= 125 -> u' = initialUi) /\
  distance (map u') = distance (map initialUi) /\
  iterations (map u') = iterations (map initialUi) /\
  height (map u') = height (map initialUi).
Proof.
  apply (width_input_resets_grid 3 initialUi). simpl. unfold HEIGHT. lia.
Defined.

(** *** A generated maze can be solved *)

Lemma connected_reachable w h wallsL diag (a b : Coord) :
  Maze.connected (Maze.isPassage w h wallsL) a b ->
  reachableFrom w h wallsL diag a b.
Proof.
  induction 1 as [_|c c' _ IH (d & Hd & ->) Hp]; [apply reachable_here|].
  eapply reachable_move; [exact IH|].
  apply validStep_spec. unfold Maze.isPassage in Hp.
  apply andb_true_iff in Hp as [Hin Hw]. apply negb_true_iff in Hw.
  rewrite inGrid_withinBounds in Hin. apply withinBounds_spec in Hin.
  split; [|split; [exact Hin|]].
  - exists d. split; [|reflexivity].
    unfold directions. destruct diag; [apply in_or_app; left|]; exact Hd.
  - intros Hc. apply not_true_iff_false in Hw. apply Hw.
    apply existsb_exists. eexists. split; [exact Hc|apply sameCoord_refl].
Qed.

(** X18: a search started on a freshly generated maze always finds a
    path, with or without diagonal movement: the path runs from the
    start of the maze to its end, and neither of the two is a wall. *)
Theorem generated_maze_is_solvable (u u1 : UiState) firstCell draws :
  gridInv (map u) ->
  possible (GenerateMaze firstCell draws) u ->
  generateMaze firstCell draws u = Some u1 ->
  ~ In (start (map u1)) (walls (map u1)) /\
  ~ In (end_ (map u1)) (walls (map u1)) /\
  exists u2,
    dispatch StartPathFind u1 = Some u2 /\
    nodePath (map u2) <> [] /\
    head (nodePath (map u2)) = Some (start (map u1)) /\
    last (nodePath (map u2)) = Some (end_ (map u1)).
Proof.
  intros Hinv [Hx Hy] Hgen. unfold generateMaze in Hgen. simpl in Hgen.
  pose proof (grid_width _ Hinv) as Hw. pose proof (grid_height _ Hinv) as Hh.
  destruct (Maze.mazePrimsAlgorithm _ _ _ _) as [[r|err]|] eqn:Hmaze;
    [| |discriminate].
  - injection Hgen as <-.
    assert (Hpos : 0 < height (map u)) by lia.
    destruct (MazeProperties.returned_maze_for_editor _ _ _ _ _
                Hpos Hx Hy Hmaze) as (_ & _ & _ & _ & Hconn).
    destruct (MazeProperties.connected_passage _ _ _ Hconn) as [Hps Hpe].
    assert (Hnot : forall c, Maze.isPassage (width (map u)) (height (map u))
                               (Maze.finalWallList r) c = true ->
                             ~ In c (Maze.finalWallList r)).
    { intros c Hc Hin. unfold Maze.isPassage in Hc.
      apply andb_true_iff in Hc as [_ Hc]. apply negb_true_iff in Hc.
      apply not_true_iff_false in Hc. apply Hc. apply existsb_exists.
      exists c. split; [exact Hin|apply sameCoord_refl]. }
    simpl. split; [auto|]. split; [auto|].
    set (m1 := setEnd (Maze.end_ r)
                 (setStart (Maze.start r)
                    (setWalls (Maze.finalWallList r) (reset (map u))))).
    destruct (reachable_gives_path m1) as (m2 & Hrun & Hne & Hhead & Hlast).
    { apply connected_reachable. exact Hconn. }
    exists (withMap (withMap u m1) m2). simpl. fold m1. rewrite Hrun.
    simpl. auto.
  - exfalso.
    assert (Hw0 : 0 < width (map u) < Maze.arrayLimit)
      by (unfold WIDTH, Maze.arrayLimit in *; lia).
    assert (Hh0 : 0 <= height (map u) < Maze.arrayLimit)
      by (unfold HEIGHT, Maze.arrayLimit in *; lia).
    apply (MazeProperties.positive_dimensions_do_not_throw _ _ _ _ err
             Hw0 Hh0 Hx Hmaze).
Qed.

Lemma generated_maze_is_solvable_witness :
  exists u1 u2,
    generateMaze (mkCoord 2 2) (repeat 0%nat 200)
      (handleHeightChange 5 (handleWidthChange 5 initialUi)) = Some u1 /\
    dispatch StartPathFind u1 = Some u2 /\
    nodePath (map u2) <> [].
Proof.
  destruct (generateMaze (mkCoord 2 2) (repeat 0%nat 200)
              (handleHeightChange 5 (handleWidthChange 5 initialUi)))
    as [u1|] eqn:Hgen; [|vm_compute in Hgen; discriminate Hgen].
  destruct (generated_maze_is_solvable
              (handleHeightChange 5 (handleWidthChange 5 initialUi)) u1
              (mkCoord 2 2) (repeat 0%nat 200)) as (_ & _ & u2 & Hd & Hne & _).
  - split; simpl; unfold WIDTH, HEIGHT; try lia; try reflexivity;
      try (intros c []); constructor.
  - split; unfold Maze.drawn; simpl; lia.
  - exact Hgen.
  - exists u1, u2. auto.
Defined.

(** *** A search that finds no path *)

Lemma session_replay (events : list Event) :
  forall u u' : UiState,
    session u -> replayable events u -> replay events u = Some u' -> session u'.
Proof.
  induction events as [|e events IH]; intros u u' Hs Hp Hr; simpl in *.
  - injection Hr as <-. exact Hs.
  - destruct Hp as [Hpe Hp].
    destruct (dispatch e u) as [u1|] eqn:Hd; [|discriminate].
    apply (IH u1 u' (session_event u e u1 Hs Hpe Hd) Hp Hr).
Qed.

(** C3: when [end] cannot be reached from [start], the search returns
    the empty path and raises nothing, but it leaves the distance at the
    value it had instead of setting it to 0.  The failing input is a
    session on the 5x5 grid without diagonal movement: a first search
    from (0,0) to (1,1) sets the distance to 20; the tiles (1,0) and
    (0,1) are then made walls, which cuts (0,0) off; the next search
    returns the empty path and the distance is still 20. *)
Theorem C3_no_path_leaves_previous_distance :
  (forall st : MapState,
      ~ reachableFrom (width st) (height st) (walls st) (diagonalMovement st)
                      (start st) (end_ st) ->
      exists st',
        startPathFind st = Some st' /\
        nodePath st' = [] /\ distance st' = distance st) /\
  let events :=
    [ WidthInput 5; HeightInput 5; SetDiagonal false; StartPathFind;
      SelectMode WallMode;
      MouseDown 1 0; MouseUp; MouseDown 1 0; MouseUp; MouseDown 0 1; MouseUp ] in
  exists u u' : UiState,
    replayable events initialUi /\
    replay events initialUi = Some u /\
    session u /\
    (width (map u) = 5 /\ height (map u) = 5 /\
     start (map u) = mkCoord 0 0 /\ end_ (map u) = mkCoord 1 1 /\
     walls (map u) = [mkCoord 1 0; mkCoord 0 1] /\
     diagonalMovement (map u) = false /\ distance (map u) = 20) /\
    ~ reachableFrom 5 5 [mkCoord 1 0; mkCoord 0 1] false
                    (mkCoord 0 0) (mkCoord 1 1) /\
    dispatch StartPathFind u = Some u' /\
    nodePath (map u') = [] /\
    distance (map u') = 20 /\
    distance (map u') <> 0.
Proof.
  split.
  - intros st Hno.
    destruct (startPathFind_outcome st)
      as (st' & closedL & c & Hst' & Hrun & Hexit & _ & _ & Hpath & Hdist).
    exists st'. split; [exact Hst'|].
    destruct (exit_closed st c closedL Hrun Hexit) as (Hrooted & _).
    destruct (List.find _ closedL) as [n|] eqn:Hf.
    + exfalso. apply Hno.
      apply find_some in Hf as [Hin Hend]. apply sameCoord_eq in Hend.
      rewrite List.Forall_forall in Hrooted.
      destruct (Hrooted n Hin) as [Hs Hr _].
      apply (validPath_reachable _ _ _ _ (rev (tracePath n))); [exact Hr| |].
      * rewrite head_rev. exact Hs.
      * rewrite last_rev, tracePath_head, Hend. reflexivity.
    + rewrite Hpath, Hdist. auto.
  - intros events.
    assert (Hp : replayable events initialUi).
    { vm_compute. repeat split; try discriminate. }
    destruct (replay events initialUi) as [u|] eqn:Hu;
      [|vm_compute in Hu; discriminate Hu].
    pose proof (session_replay events initialUi u session_start Hp Hu) as Hs.
    vm_compute in Hu. injection Hu as <-.
    eexists. eexists.
    split; [exact Hp|]. split; [reflexivity|]. split; [exact Hs|].
    split; [repeat split; reflexivity|].
    split; [|split; [vm_compute; reflexivity|]].
    + intros Hr.
      destruct (reachable_gives_path
                  {| width := 5; height := 5;
                     start := mkCoord 0 0; end_ := mkCoord 1 1;
                     walls := [mkCoord 1 0; mkCoord 0 1];
                     openNodes := []; closedNodes := []; nodePath := [];
                     diagonalMovement := false; iterations := 0; distance := 0 |}
                  Hr) as (st' & Hrun & Hne & _).
      vm_compute in Hrun. injection Hrun as <-. apply Hne. reflexivity.
    + split; [reflexivity|]. split; [reflexivity|]. discriminate.
Qed.

End EditorProperties.
